(** * vue-script-merger: path resolution and merge transform

    A shallow embedding of [src/index.js] (the Vite plugin
    [vueScriptMerger]) and the properties of its resolver, its
    resolution cache and its default splicing rule.

    - JavaScript strings are sequences of UTF-16 code units: [list N].
    - The regular expressions of the source are values of a small
      regex syntax, run by a backtracking matcher.
    - The file system, the resolution cache and the console are
      effects: a state, an event log and exceptions, threaded by the
      monad [M].
    - Node's [path] module and the depth of the call stack are an
      interface ([Runtime]); [posix] is the instance the concrete
      runs use. *)

From Stdlib Require Import NArith Ascii String.
From stdpp Require Import base option list gmap.

Local Open Scope N_scope.
Local Open Scope list_scope.

(** ** JavaScript strings *)

Module JS.

Abbreviation jstring := (list N).

(** A string literal of the source, as code units (ASCII only). *)
Definition js (s : string) : jstring :=
  map N_of_ascii (list_ascii_of_string s).

(** [String.prototype.startsWith]. *)
Fixpoint startsWith (s p : jstring) : bool :=
  match p, s with
  | [], _ => true
  | _ :: _, [] => false
  | a :: p', b :: s' => (a =? b) && startsWith s' p'
  end.

(** [String.prototype.endsWith]. *)
Definition endsWith (s p : jstring) : bool :=
  startsWith (rev s) (rev p).

(** [String.prototype.includes]. *)
Fixpoint includes (s p : jstring) : bool :=
  startsWith s p ||
  match s with
  | [] => false
  | _ :: s' => includes s' p
  end.

(** The rest of [s] behind the prefix [p], when [s] starts with [p]. *)
Fixpoint strip (p s : jstring) : option jstring :=
  match p, s with
  | [], _ => Some s
  | _ :: _, [] => None
  | a :: p', b :: s' => if a =? b then strip p' s' else None
  end.

(** [\s] of ECMAScript: WhiteSpace and LineTerminator code units. *)
Definition is_space (c : N) : bool :=
  (c =? 9) || (c =? 10) || (c =? 11) || (c =? 12) || (c =? 13) ||
  (c =? 32) || (c =? 160) || (c =? 5760) ||
  ((8192 <=? c) && (c <=? 8202)) ||
  (c =? 8232) || (c =? 8233) || (c =? 8239) || (c =? 8287) ||
  (c =? 12288) || (c =? 65279).

(** [[^>]]. *)
Definition not_gt (c : N) : bool := negb (c =? 62).

(** [[\s\S]]. *)
Definition any_char (c : N) : bool := is_space c || negb (is_space c).

(** *** Regular expressions

    The fragment the source uses: literal runs, a quantified
    character class (greedy [*], greedy [+], lazy [*?]), sequence and
    capture groups. *)

Inductive Re :=
| Str (s : jstring)
| Star (p : N -> bool)
| Plus (p : N -> bool)
| Lazy (p : N -> bool)
| Seq (r1 r2 : Re)
| Grp (r : Re).

(** A continuation receives the rest of the input and the captures so
    far; [None] makes the matcher backtrack. *)
Definition Cont := jstring -> list jstring -> option (jstring * list jstring).

Fixpoint star_greedy (p : N -> bool) (s : jstring) (caps : list jstring)
    (k : Cont) : option (jstring * list jstring) :=
  match s with
  | c :: s' =>
      if p c then
        match star_greedy p s' caps k with
        | Some r => Some r
        | None => k s caps
        end
      else k s caps
  | [] => k [] caps
  end.

Fixpoint star_lazy (p : N -> bool) (s : jstring) (caps : list jstring)
    (k : Cont) : option (jstring * list jstring) :=
  match k s caps with
  | Some r => Some r
  | None =>
      match s with
      | c :: s' => if p c then star_lazy p s' caps k else None
      | [] => None
      end
  end.

Fixpoint rmatch (r : Re) (s : jstring) (caps : list jstring) (k : Cont)
    : option (jstring * list jstring) :=
  match r with
  | Str l =>
      match strip l s with
      | Some s' => k s' caps
      | None => None
      end
  | Star p => star_greedy p s caps k
  | Plus p =>
      match s with
      | c :: s' => if p c then star_greedy p s' caps k else None
      | [] => None
      end
  | Lazy p => star_lazy p s caps k
  | Seq r1 r2 => rmatch r1 s caps (fun s1 caps1 => rmatch r2 s1 caps1 k)
  | Grp r1 =>
      rmatch r1 s caps
        (fun s1 caps1 => k s1 (caps1 ++ [take (length s - length s1) s]))
  end.

(** The result of [RegExp.prototype.exec]: the text before the match,
    the match, its captures and the text behind it. *)
Record Match := {
  m_before : jstring;
  m_text : jstring;
  m_caps : list jstring;
  m_after : jstring
}.

(** The match anchored at the head of [s]. *)
Definition match_here (r : Re) (before s : jstring) : option Match :=
  match rmatch r s [] (fun rest caps => Some (rest, caps)) with
  | Some (rest, caps) =>
      Some {| m_before := before;
              m_text := take (length s - length rest) s;
              m_caps := caps;
              m_after := rest |}
  | None => None
  end.

(** The leftmost match: start indices are tried from left to right. *)
Fixpoint exec_from (r : Re) (before s : jstring) : option Match :=
  match match_here r before s with
  | Some m => Some m
  | None =>
      match s with
      | [] => None
      | c :: s' => exec_from r (before ++ [c]) s'
      end
  end.

Definition exec (r : Re) (s : jstring) : option Match := exec_from r [] s.

(** [RegExp.prototype.test]. *)
Definition test (r : Re) (s : jstring) : bool :=
  match exec r s with Some _ => true | None => false end.

(** [GetSubstitution] for a pattern without capture groups: [$$],
    [$&], [$`] and [$'] are expanded; [$1]..[$99] and [$<] have
    nothing to refer to and stay as they are. *)
Fixpoint getSubstitution (matched before after repl : jstring) : jstring :=
  match repl with
  | [] => []
  | c :: r =>
      if c =? 36 then
        match r with
        | [] => [c]
        | d :: r' =>
            if d =? 36 then 36 :: getSubstitution matched before after r'
            else if d =? 38 then matched ++ getSubstitution matched before after r'
            else if d =? 96 then before ++ getSubstitution matched before after r'
            else if d =? 39 then after ++ getSubstitution matched before after r'
            else c :: getSubstitution matched before after r
        end
      else c :: getSubstitution matched before after r
  end.

(** [String.prototype.replace] with a regex (no [g] flag) and a
    replacer function. *)
Definition replace_fn (s : jstring) (r : Re) (f : Match -> jstring) : jstring :=
  match exec r s with
  | Some m => m_before m ++ f m ++ m_after m
  | None => s
  end.

(** [String.prototype.replace] with a regex without groups (no [g]
    flag) and a replacement string. *)
Definition replace_re (s : jstring) (r : Re) (repl : jstring) : jstring :=
  match exec r s with
  | Some m =>
      m_before m ++ getSubstitution (m_text m) (m_before m) (m_after m) repl
      ++ m_after m
  | None => s
  end.

(** [String.prototype.replace] with a string pattern: the first
    occurrence of the pattern, searched literally, is replaced, and the
    replacement string is expanded all the same. *)
Definition replace (s pat repl : jstring) : jstring :=
  replace_re s (Str pat) repl.

End JS.
Export JS.

(** ** Effects: file system, cache, console, exceptions *)

(** What a handler reads off a value it caught: the text of its
    [message] and of its [stack] ([stack] is empty when the property is
    missing or falsy).  An [Error] of [fs] or of the engine is such a
    value. *)
Record Error := { message : jstring; stack : jstring }.

(** A thrown value.  JavaScript lets any value be thrown: one whose
    properties can be read, told by what the handlers of the plugin
    read off it, or [null] or [undefined], on which reading a property
    raises a [TypeError]. *)
Inductive Thrown :=
| Object (e : Error)
| Nullish (undefined : bool).

Inductive Res (A : Type) :=
| Val (a : A)
| Raise (t : Thrown).
Arguments Val {A} a.
Arguments Raise {A} t.

(** The throw of a value whose properties can be read. *)
Abbreviation Exn e := (Raise (Object e)).

(** The [TypeError] of reading the property [prop] of [null] or
    [undefined]. *)
Definition typeError (undefined : bool) (prop : string) : Error :=
  {| message :=
       js "Cannot read properties of "
       ++ (if undefined then js "undefined" else js "null")
       ++ js " (reading '" ++ js prop ++ js "')";
     stack := [] |}.

(** [fs.Dirent], as [readdirSync(dir, { withFileTypes: true })]
    returns them; a symbolic link, socket or device is [KOther]. *)
Inductive DirentKind := KFile | KDirectory | KOther.

Record Dirent := { name : jstring; kind : DirentKind }.

Definition isDirectory (e : Dirent) : bool :=
  match kind e with KDirectory => true | _ => false end.

Definition isFile (e : Dirent) : bool :=
  match kind e with KFile => true | _ => false end.

(** What a call into [fs] ends in: its value, or the [Error] it
    throws ([fs] throws nothing else). *)
Inductive FsResult (A : Type) :=
| Done (a : A)
| Failed (e : Error).
Arguments Done {A} a.
Arguments Failed {A} e.

Definition outcomeOf {A} (r : FsResult A) : Res A :=
  match r with
  | Done a => Val a
  | Failed e => Exn e
  end.

(** The state of the disk, as the three calls of the plugin see it. *)
Record FS := {
  fs_exists : jstring -> bool;
  fs_scandir : jstring -> FsResult (list Dirent);
  fs_read : jstring -> FsResult jstring
}.

(** [fs.readdirSync(p, { withFileTypes: true })] on the disk [d]. *)
Definition fs_readdir (d : FS) (p : jstring) : Res (list Dirent) :=
  outcomeOf (fs_scandir d p).

(** [fs.readFileSync(p, 'utf-8')] on the disk [d]. *)
Definition fs_readFile (d : FS) (p : jstring) : Res jstring :=
  outcomeOf (fs_read d p).

(** The mutable state: the disk and the [scriptCache] map of the
    plugin instance ([null] is [None]). *)
Record State := {
  fs : FS;
  scriptCache : gmap jstring (option jstring)
}.

Inductive Stream := ConsoleError | ConsoleWarn | ConsoleLog.

(** What a run does to the world outside, in order. *)
Inductive Event :=
| EExists (p : jstring)
| EReaddir (p : jstring)
| EReadFile (p : jstring)
| ECacheHas (k : jstring)
| ECacheGet (k : jstring)
| ECacheSet (k : jstring) (v : option jstring)
| EConsole (s : Stream) (prefix msg : jstring)
| ECallResolve (id : jstring)
| ECallTransform (code scriptContent comment id scriptPath : jstring).

Definition is_fs_event (e : Event) : bool :=
  match e with
  | EExists _ | EReaddir _ | EReadFile _ => true
  | _ => false
  end.

Definition is_cache_event (e : Event) : bool :=
  match e with
  | ECacheHas _ | ECacheGet _ | ECacheSet _ _ => true
  | _ => false
  end.

(** A computation: from a state to a result or a thrown value, the
    new state and the events it caused.  The state and the events
    survive a throw. *)
Definition M (A : Type) : Type := State -> Res A * State * list Event.

Definition ret {A} (a : A) : M A := fun st => (Val a, st, []).

Definition bind {A B} (c : M A) (k : A -> M B) : M B :=
  fun st =>
    match c st with
    | (Val a, st1, ev1) =>
        match k a st1 with
        | (r, st2, ev2) => (r, st2, ev1 ++ ev2)
        end
    | (Raise t, st1, ev1) => (Raise t, st1, ev1)
    end.

Definition throw {A} (e : Error) : M A := fun st => (Exn e, st, []).

(** [try { body } catch (err) { handler(err) }]. *)
Definition try_catch {A} (body : M A) (handler : Thrown -> M A) : M A :=
  fun st =>
    match body st with
    | (Val a, st1, ev1) => (Val a, st1, ev1)
    | (Raise t, st1, ev1) =>
        match handler t st1 with
        | (r, st2, ev2) => (r, st2, ev1 ++ ev2)
        end
    end.

(** The outcome of a call, exception included, as a value. *)
Definition attempt {A} (c : M A) : M (Res A) :=
  fun st => match c st with (r, st1, ev1) => (Val r, st1, ev1) end.

Declare Scope m_scope.
Delimit Scope m_scope with m.
Notation "'let*' x ':=' c 'in' k" := (bind c (fun x => k))
  (at level 10, x name, c at level 100, k at level 200) : m_scope.
Notation "c ;; k" := (bind c (fun _ => k))
  (at level 100, k at level 200, right associativity) : m_scope.
Local Open Scope m_scope.

(** Control flow of a loop body: [return v] leaves the enclosing
    function, otherwise the loop goes on. *)
Inductive Ctl (A : Type) :=
| Return (a : A)
| Continue.
Arguments Return {A} a.
Arguments Continue {A}.

(** *** The calls into [fs], the cache and the console *)

Definition existsSync (p : jstring) : M bool :=
  fun st => (Val (fs_exists (fs st) p), st, [EExists p]).

Definition readdirSync (p : jstring) : M (list Dirent) :=
  fun st => (fs_readdir (fs st) p, st, [EReaddir p]).

Definition readFileSync (p : jstring) : M jstring :=
  fun st => (fs_readFile (fs st) p, st, [EReadFile p]).

(** [scriptCache.has(k)]. *)
Definition cacheHas (k : jstring) : M bool :=
  fun st => (Val (bool_decide (is_Some (scriptCache st !! k))), st, [ECacheHas k]).

(** [scriptCache.get(k)]; [undefined] for a missing key reads as [null]. *)
Definition cacheGet (k : jstring) : M (option jstring) :=
  fun st => (Val (default None (scriptCache st !! k)), st, [ECacheGet k]).

(** [scriptCache.set(k, v)]. *)
Definition cacheSet (k : jstring) (v : option jstring) : M unit :=
  fun st =>
    (Val tt, {| fs := fs st; scriptCache := <[k := v]> (scriptCache st) |},
     [ECacheSet k v]).

Definition console (s : Stream) (prefix msg : jstring) : M unit :=
  fun st => (Val tt, st, [EConsole s prefix msg]).

(** A function supplied by the user of the plugin.  It runs outside
    the closure of the plugin: it can do anything to the disk and can
    throw any value, but the [scriptCache] is out of its reach. *)
Definition UserFn (A : Type) : Type := FS -> Res A * FS.

Definition callUser {A} (ev : Event) (f : UserFn A) : M A :=
  fun st =>
    match f (fs st) with
    | (r, fs1) => (r, {| fs := fs1; scriptCache := scriptCache st |}, [ev])
    end.

(** ** The runtime: Node's [path] module and the call stack *)

(** [path.basename(p, ext)] takes its second argument as an option;
    [path.join] is variadic.  [stackDepth] is how deep calls of
    [findMatchingFiles] can nest before the engine throws its
    [RangeError]. *)
Class Runtime := {
  basename : jstring -> option jstring -> jstring;
  dirname : jstring -> jstring;
  extname : jstring -> jstring;
  join : list jstring -> jstring;
  isAbsolute : jstring -> bool;
  relative : jstring -> jstring -> jstring;
  stackDepth : nat
}.

Definition rangeError : Error :=
  {| message := js "Maximum call stack size exceeded"; stack := [] |}.

(** ** Configuration *)

Module Options.

Record Config := {
  scriptPaths : list jstring;
  extensions : list jstring;
  (** [Object.entries(config.aliases)], in their order *)
  aliases : list (jstring * jstring);
  debug : bool;
  resolveScriptPath : option (jstring -> UserFn (option jstring));
  transform :
    option (jstring -> jstring -> jstring -> jstring -> jstring ->
            UserFn (option jstring));
  rootDir : jstring;
  srcDir : jstring;
  injectComment : jstring;
  useSameDir : bool
}.

(** [defaultOptions], [cwd] being [process.cwd()].  The comment
    template is [// 自动导入的外部脚本: {filename}]. *)
Definition defaultOptions (cwd : jstring) : Config := {|
  scriptPaths := [js "views"; js "scripts"; js "components"];
  extensions := [js ".script.js"; js ".js"];
  aliases := [];
  debug := false;
  resolveScriptPath := None;
  transform := None;
  rootDir := cwd;
  srcDir := js "src";
  injectComment :=
    [47; 47; 32; 33258; 21160; 23548; 20837; 30340; 22806; 37096; 33050;
     26412; 58; 32] ++ js "{filename}";
  useSameDir := true
|}.

End Options.
Import Options.

(** ** The plugin *)

Inductive Level := LDebug | LInfo | LWarn | LError.

(** [level.toUpperCase()]. *)
Definition upperName (l : Level) : jstring :=
  match l with
  | LDebug => js "DEBUG"
  | LInfo => js "INFO"
  | LWarn => js "WARN"
  | LError => js "ERROR"
  end.

(** [log(message, level = 'debug')]. *)
Definition log (config : Config) (msg : jstring) (level : Level) : M unit :=
  if negb (debug config) && match level with LDebug => true | _ => false end
  then ret tt
  else
    let prefix := js "[vue-script-merger] " ++ upperName level ++ js ":" in
    match level with
    | LError => console ConsoleError prefix msg
    | LWarn => console ConsoleWarn prefix msg
    | LInfo | LDebug =>
        if debug config then console ConsoleLog prefix msg else ret tt
    end.

(** [error.stack || error.message] on a value whose properties can be
    read. *)
Definition stackOrMessage (e : Error) : jstring :=
  match stack e with
  | [] => message e
  | _ :: _ => stack e
  end.

(** The texts of the log lines. *)
Module Msg.
(** [在同目录找到脚本文件: ] *)
Definition sameDir : jstring :=
  [22312; 21516; 30446; 24405; 25214; 21040; 33050; 26412; 25991; 20214; 58; 32].
(** [搜索目录不存在: ] *)
Definition noDir : jstring :=
  [25628; 32034; 30446; 24405; 19981; 23384; 22312; 58; 32].
(** [找到匹配的脚本文件: ] *)
Definition found : jstring :=
  [25214; 21040; 21305; 37197; 30340; 33050; 26412; 25991; 20214; 58; 32].
(** [搜索目录 ] and [ 时出错: ] *)
Definition search1 : jstring := [25628; 32034; 30446; 24405; 32].
Definition search2 : jstring := [32; 26102; 20986; 38169; 58; 32].
(** [未找到与 ] and [ 匹配的脚本文件] *)
Definition notFound1 : jstring := [26410; 25214; 21040; 19982; 32].
Definition notFound2 : jstring :=
  [32; 21305; 37197; 30340; 33050; 26412; 25991; 20214].
(** [读取目录 ] and [ 失败: ] *)
Definition readDir1 : jstring := [35835; 21462; 30446; 24405; 32].
Definition failed : jstring := [32; 22833; 36133; 58; 32].
(** [处理文件 ] *)
Definition process1 : jstring := [22788; 29702; 25991; 20214; 32].
End Msg.

(** The three regular expressions of [transform]. *)

(** [/<script\s+setup[^>]*>/] *)
Definition re_open : Re :=
  Seq (Str (js "<script"))
   (Seq (Plus is_space)
    (Seq (Str (js "setup"))
     (Seq (Star not_gt) (Str (js ">"))))).

(** [/(<script\s+setup[^>]*>)([\s\S]*?)(<\/script>)/] *)
Definition re_block : Re :=
  Seq (Grp re_open)
   (Seq (Grp (Lazy any_char)) (Grp (Str (js "</script>")))).

(** [/<\/template>/] *)
Definition re_template : Re := Str (js "</template>").

Definition nl : jstring := [10].

Section Plugin.

Context {rt : Runtime}.
Variable config : Config.

(** [resolveAlias]: the loop over [Object.entries(config.aliases)]. *)
Fixpoint resolveAliasIn (entries : list (jstring * jstring))
    (filepath : jstring) : jstring :=
  match entries with
  | [] => filepath
  | (alias, target) :: rest =>
      if startsWith filepath alias then replace filepath alias target
      else resolveAliasIn rest filepath
  end.

Definition resolveAlias (filepath : jstring) : jstring :=
  resolveAliasIn (aliases config) filepath.

(** The [for (const entry of entries)] loop of [findMatchingFiles].
    [results] is one array, pushed to in place: what was pushed before
    an exception left the loop is still there, so the loop yields the
    array together with the exception that ended it, if any.
    [recur] is the recursive call. *)
Fixpoint forEntries (recur : jstring -> list jstring -> M (list jstring))
    (dir : jstring) (extensions : list jstring) (entries : list Dirent)
    (results : list jstring) : M (list jstring * option Thrown) :=
  match entries with
  | [] => ret (results, None)
  | entry :: rest =>
      let fullPath := join [dir; name entry] in
      if isDirectory entry then
        let* r := attempt (recur fullPath results) in
        match r with
        | Val results1 => forEntries recur dir extensions rest results1
        | Raise err => ret (results, Some err)
        end
      else if isFile entry
              && existsb (fun ext => endsWith (name entry) ext) extensions
      then forEntries recur dir extensions rest (results ++ [fullPath])
      else forEntries recur dir extensions rest results
  end.

(** The [catch (err)] block of [findMatchingFiles] (lines 156-158);
    the template literal reads [err.message] before [log] is called. *)
Definition readDirFailed (dir : jstring) (err : Thrown)
    (results : list jstring) : M (list jstring) :=
  match err with
  | Object e =>
      log config (Msg.readDir1 ++ dir ++ Msg.failed ++ message e) LError ;;
      ret results
  | Nullish u => throw (typeError u "message")
  end.

(** [findMatchingFiles(dir, extensions, results)].  [depth] is the
    room left on the call stack: a call with none left throws. *)
Fixpoint findMatchingFiles (depth : nat) (dir : jstring)
    (extensions : list jstring) (results : list jstring)
    : M (list jstring) :=
  match depth with
  | O => throw rangeError
  | S depth' =>
      let* there := existsSync dir in
      if negb there then ret results
      else
        let* r := attempt (readdirSync dir) in
        match r with
        | Raise err => readDirFailed dir err results
        | Val entries =>
            let* out :=
              forEntries (fun d res => findMatchingFiles depth' d extensions res)
                dir extensions entries results in
            match out with
            | (results1, Some err) => readDirFailed dir err results1
            | (results1, None) => ret results1
            end
        end
  end.

(** The same-directory loop of the resolver (step 1). *)
Fixpoint sameDirLoop (vueFilePath vueDir vueBaseName : jstring)
    (exts : list jstring) : M (Ctl (option jstring)) :=
  match exts with
  | [] => ret Continue
  | ext :: rest =>
      let sameDirPath := join [vueDir; vueBaseName ++ ext] in
      let* there := existsSync sameDirPath in
      if there then
        log config (Msg.sameDir ++ relative (rootDir config) sameDirPath) LDebug ;;
        cacheSet vueFilePath (Some sameDirPath) ;;
        ret (Return (Some sameDirPath))
      else sameDirLoop vueFilePath vueDir vueBaseName rest
  end.

(** The file-name test of the resolver (lines 112-115). *)
Definition matchesComponent (vueBaseName file : jstring) : bool :=
  let fileBaseName := basename file (Some (extname file)) in
  bool_decide (fileBaseName = vueBaseName)
  || startsWith (basename file None) (vueBaseName ++ js ".")
  || includes file (js "/" ++ vueBaseName ++ js "/index")
  || includes file (js "\" ++ vueBaseName ++ js "\index").

(** The [for (const file of files)] loop. *)
Fixpoint matchLoop (vueFilePath vueBaseName : jstring) (files : list jstring)
    : M (Ctl (option jstring)) :=
  match files with
  | [] => ret Continue
  | file :: rest =>
      if matchesComponent vueBaseName file then
        log config (Msg.found ++ relative (rootDir config) file) LDebug ;;
        cacheSet vueFilePath (Some file) ;;
        ret (Return (Some file))
      else matchLoop vueFilePath vueBaseName rest
  end.

(** The directory a [scriptPaths] entry stands for. *)
Definition searchDirOf (scriptPath : jstring) : jstring :=
  resolveAlias
    (if isAbsolute scriptPath then scriptPath
     else if startsWith scriptPath (js "./") || startsWith scriptPath (js "../")
     then join [rootDir config; scriptPath]
     else join [rootDir config; srcDir config; scriptPath]).

(** The [catch (err)] block of the search loop (lines 121-123). *)
Definition searchFailed (searchDir : jstring) (err : Thrown)
    : M (Ctl (option jstring)) :=
  match err with
  | Object e =>
      log config (Msg.search1 ++ searchDir ++ Msg.search2 ++ message e)
        LError ;;
      ret Continue
  | Nullish u => throw (typeError u "message")
  end.

(** The [for (const scriptPath of config.scriptPaths)] loop (step 2). *)
Fixpoint searchLoop (vueFilePath vueBaseName : jstring)
    (paths : list jstring) : M (Ctl (option jstring)) :=
  match paths with
  | [] => ret Continue
  | scriptPath :: rest =>
      let searchDir := searchDirOf scriptPath in
      let* there := existsSync searchDir in
      if negb there then
        log config (Msg.noDir ++ searchDir) LWarn ;;
        searchLoop vueFilePath vueBaseName rest
      else
        let* r :=
          try_catch
            (let* files :=
               findMatchingFiles stackDepth searchDir (extensions config) [] in
             matchLoop vueFilePath vueBaseName files)
            (searchFailed searchDir) in
        match r with
        | Return v => ret (Return v)
        | Continue => searchLoop vueFilePath vueBaseName rest
        end
  end.

(** The function [createPathResolver(config)] returns. *)
Definition createPathResolver (vueFilePath : jstring) : M (option jstring) :=
  let* hit := cacheHas vueFilePath in
  if hit then cacheGet vueFilePath
  else
    let vueBaseName := basename vueFilePath (Some (js ".vue")) in
    let* r :=
      (if useSameDir config then
         sameDirLoop vueFilePath (dirname vueFilePath) vueBaseName
           (extensions config)
       else ret Continue) in
    match r with
    | Return v => ret v
    | Continue =>
        let* r := searchLoop vueFilePath vueBaseName (scriptPaths config) in
        match r with
        | Return v => ret v
        | Continue =>
            log config
              (Msg.notFound1 ++ basename vueFilePath None ++ Msg.notFound2)
              LWarn ;;
            cacheSet vueFilePath None ;;
            ret None
        end
    end.

(** [const resolveScriptPath =
      config.resolveScriptPath || createPathResolver(config)]. *)
Definition resolveScriptPath (id : jstring) : M (option jstring) :=
  match Options.resolveScriptPath config with
  | Some f => callUser (ECallResolve id) (f id)
  | None => createPathResolver id
  end.

(** The replacer of the default splice (lines 237-239). *)
Definition inject (comment scriptContent : jstring) (m : Match) : jstring :=
  let openTag := nth 0 (m_caps m) [] in
  let content := nth 1 (m_caps m) [] in
  let closeTag := nth 2 (m_caps m) [] in
  openTag ++ nl ++ comment ++ nl ++ scriptContent ++ nl ++ content ++ closeTag.

(** The replacement string of the fallback (line 244). *)
Definition newBlock (comment scriptContent : jstring) : jstring :=
  js "</template>" ++ nl ++ nl ++ js "<script setup>" ++ nl ++ comment ++ nl
  ++ scriptContent ++ nl ++ js "</script>".

(** The default splice (lines 234-246). *)
Definition defaultTransform (code comment scriptContent : jstring) : jstring :=
  if test re_open code then
    replace_fn code re_block (inject comment scriptContent)
  else
    replace_re code re_template (newBlock comment scriptContent).

(** The body of the [try] block of [transform]. *)
Definition transformBody (code id : jstring) : M (option jstring) :=
  let* scriptPath := resolveScriptPath id in
  match scriptPath with
  | None | Some [] => ret None
  | Some scriptPath =>
      let* scriptContent := readFileSync scriptPath in
      let comment :=
        replace (injectComment config) (js "{filename}")
          (relative (dirname id) scriptPath) in
      match Options.transform config with
      | Some f =>
          callUser (ECallTransform code scriptContent comment id scriptPath)
            (f code scriptContent comment id scriptPath)
      | None => ret (Some (defaultTransform code comment scriptContent))
      end
  end.

(** The [catch (error)] block of [transform] (lines 247-250).  The
    template literal reads [error.stack] first: on [null] or
    [undefined] that raises before anything is logged. *)
Definition transformFailed (id : jstring) (error : Thrown)
    : M (option jstring) :=
  match error with
  | Object e =>
      log config (Msg.process1 ++ id ++ Msg.failed ++ stackOrMessage e)
        LError ;;
      ret None
  | Nullish u => throw (typeError u "stack")
  end.

(** The [transform(code, id)] hook. *)
Definition transform (code id : jstring) : M (option jstring) :=
  if negb (endsWith id (js ".vue")) then ret None
  else try_catch (transformBody code id) (transformFailed id).

End Plugin.

(** ** [path.posix]

    The instance of [Runtime] the concrete runs use, after Node's
    [path.posix]; relative arguments of [relative] are resolved
    against [cwd]. *)

Module Posix.

Definition slash : N := 47.
Definition dot : N := 46.

(** The pieces of [s] between slashes. *)
Fixpoint split (s : jstring) : list jstring :=
  match s with
  | [] => [[]]
  | c :: s' =>
      if c =? slash then [] :: split s'
      else
        match split s' with
        | seg :: segs => (c :: seg) :: segs
        | [] => [[c]]
        end
  end.

Fixpoint unsplit (segs : list jstring) : jstring :=
  match segs with
  | [] => []
  | [seg] => seg
  | seg :: rest => seg ++ slash :: unsplit rest
  end.

Definition isAbsolute (p : jstring) : bool :=
  match p with
  | c :: _ => c =? slash
  | [] => false
  end.

(** One step of [normalizeString]: [acc] holds the segments kept so
    far, last one first. *)
Definition pushSegment (absolute : bool) (acc : list jstring) (seg : jstring)
    : list jstring :=
  if bool_decide (seg = []) || bool_decide (seg = [dot]) then acc
  else if bool_decide (seg = [dot; dot]) then
    match acc with
    | top :: below =>
        if bool_decide (top = [dot; dot]) then seg :: acc else below
    | [] => if absolute then [] else [seg]
    end
  else seg :: acc.

Definition normalizeSegments (absolute : bool) (segs : list jstring)
    : list jstring :=
  rev (fold_left (pushSegment absolute) segs []).

(** [path.normalize] (a trailing slash is kept). *)
Definition normalize (p : jstring) : jstring :=
  match p with
  | [] => [dot]
  | _ =>
      let absolute := isAbsolute p in
      let trailing := endsWith p [slash] in
      let body := unsplit (normalizeSegments absolute (split p)) in
      let body :=
        match body with
        | [] => if absolute then [] else [dot]
        | _ => body
        end in
      let body :=
        match body with
        | [] => []
        | _ => if trailing then body ++ [slash] else body
        end in
      if absolute then slash :: body else body
  end.

(** [path.join(...parts)]. *)
Definition join (parts : list jstring) : jstring :=
  match filter (fun part => part <> []) parts with
  | [] => [dot]
  | kept => normalize (unsplit kept)
  end.

(** The last segment of [p], trailing slashes aside. *)
Definition lastSegment (p : jstring) : jstring :=
  match filter (fun seg => seg <> []) (rev (split p)) with
  | seg :: _ => seg
  | [] => []
  end.

(** [s] without the code units of the class [p] at its head. *)
Fixpoint skipWhile (p : N -> bool) (s : jstring) : jstring :=
  match s with
  | c :: s' => if p c then skipWhile p s' else s
  | [] => []
  end.

(** The slashes at the end of [p]. *)
Definition trailingSlashes (p : jstring) : jstring :=
  take (length p - length (skipWhile (fun c => c =? slash) (rev p))) (rev p).

(** [path.basename(p, ext)].  Node scans [p] from its end and matches
    the suffix on the way: a last segment that ends with the suffix
    loses it, unless it is the suffix; a last segment that is only the
    tail of the suffix comes back with the slashes behind it; a suffix
    longer than [p] is not looked at. *)
Definition basename (p : jstring) (ext : option jstring) : jstring :=
  let seg := lastSegment p in
  match ext with
  | Some (c :: e) =>
      let suffix := c :: e in
      if (length p <? length suffix)%nat then seg
      else if bool_decide (suffix = p) then []
      else if endsWith seg suffix then
        if bool_decide (seg = suffix) then seg
        else take (length seg - length suffix) seg
      else if endsWith suffix seg then seg ++ trailingSlashes p
      else seg
  | _ => seg
  end.

(** [path.dirname(p)].  Node scans [p] from its end down to its second
    code unit, passes over the slashes at the end and over the last
    segment, and cuts [p] before the slash it then meets. *)
Definition dirname (p : jstring) : jstring :=
  match p with
  | [] => [dot]
  | c :: tail =>
      let hasRoot := c =? slash in
      match skipWhile (fun d => negb (d =? slash))
              (skipWhile (fun d => d =? slash) (rev tail)) with
      | _ :: front =>
          if hasRoot && bool_decide (front = []) then [slash; slash]
          else c :: rev front
      | [] => if hasRoot then [slash] else [dot]
      end
  end.

(** The suffix of [seg] from its last dot on, [None] without a dot. *)
Fixpoint lastDot (seg : jstring) : option jstring :=
  match seg with
  | [] => None
  | c :: seg' =>
      match lastDot seg' with
      | Some e => Some e
      | None => if c =? dot then Some seg else None
      end
  end.

(** [path.extname(p)]. *)
Definition extname (p : jstring) : jstring :=
  let seg := lastSegment p in
  match lastDot seg with
  | Some e =>
      if bool_decide (e = seg) || bool_decide (seg = [dot; dot]) then [] else e
  | None => []
  end.

(** The segments of [p] made absolute against [cwd]. *)
Definition resolved (cwd p : jstring) : list jstring :=
  normalizeSegments true
    (split (if isAbsolute p then p else cwd ++ slash :: p)).

Fixpoint dropCommon (a b : list jstring) : list jstring * list jstring :=
  match a, b with
  | x :: a', y :: b' =>
      if bool_decide (x = y) then dropCommon a' b' else (a, b)
  | _, _ => (a, b)
  end.

(** [path.relative(from, to)]. *)
Definition relative (cwd from to : jstring) : jstring :=
  match dropCommon (resolved cwd from) (resolved cwd to) with
  | (up, down) => unsplit (map (fun _ => [dot; dot]) up ++ down)
  end.

End Posix.

Definition posix (cwd : jstring) (depth : nat) : Runtime := {|
  basename := Posix.basename;
  dirname := Posix.dirname;
  extname := Posix.extname;
  join := Posix.join;
  isAbsolute := Posix.isAbsolute;
  relative := Posix.relative cwd;
  stackDepth := depth
|}.


(** ** Runs *)

(** The three components of the outcome of a computation. *)
Definition result {A} (o : Res A * State * list Event) : Res A := o.1.1.
Definition final {A} (o : Res A * State * list Event) : State := o.1.2.
Definition events {A} (o : Res A * State * list Event) : list Event := o.2.

(** What happens to a plugin instance over time: the built-in
    resolver is called, the host calls the [transform] hook, or the
    world outside rewrites the disk. *)
Inductive Step :=
| Resolve (id : jstring)
| Transform (code id : jstring)
| Disk (d : FS).

Definition setDisk (d : FS) : M unit :=
  fun st => (Val tt, {| fs := d; scriptCache := scriptCache st |}, []).

Definition step {rt : Runtime} (config : Config) (s : Step) : M unit :=
  match s with
  | Resolve id => attempt (createPathResolver config id) ;; ret tt
  | Transform code id => attempt (transform config code id) ;; ret tt
  | Disk d => setDisk d
  end.

Fixpoint run {rt : Runtime} (config : Config) (steps : list Step) : M unit :=
  match steps with
  | [] => ret tt
  | s :: rest => step config s ;; run config rest
  end.

(** A step of the plugin itself, not of the world outside. *)
Definition isCall (s : Step) : bool :=
  match s with
  | Disk _ => false
  | _ => true
  end.

(** A fresh plugin instance on the disk [d]. *)
Definition freshState (d : FS) : State := {| fs := d; scriptCache := ∅ |}.

(** *** Concrete disks *)

Definition lookupPath {A} (p : jstring) (l : list (jstring * A)) : option A :=
  snd <$> find (fun e => bool_decide (e.1 = p)) l.

Definition enoent : Error :=
  {| message := js "ENOENT: no such file or directory"; stack := [] |}.

Definition eisdir : Error :=
  {| message := js "EISDIR: illegal operation on a directory, read"; stack := [] |}.

Definition enotdir : Error :=
  {| message := js "ENOTDIR: not a directory, scandir"; stack := [] |}.

(** The disk that holds the files [files] (path and content) and the
    directories [dirs] (path and listing). *)
Definition disk (files : list (jstring * jstring))
    (dirs : list (jstring * list Dirent)) : FS := {|
  fs_exists p :=
    bool_decide (is_Some (lookupPath p files))
    || bool_decide (is_Some (lookupPath p dirs));
  fs_scandir p :=
    match lookupPath p dirs with
    | Some entries => Done entries
    | None =>
        match lookupPath p files with
        | Some _ => Failed enotdir
        | None => Failed enoent
        end
    end;
  fs_read p :=
    match lookupPath p files with
    | Some content => Done content
    | None =>
        match lookupPath p dirs with
        | Some _ => Failed eisdir
        | None => Failed enoent
        end
    end
|}.

(** ** Vocabulary of the properties *)

(** The line [log] puts on the console, if any. *)
Definition logLine (config : Config) (msg : jstring) (level : Level)
    : list Event :=
  let prefix := js "[vue-script-merger] " ++ upperName level ++ js ":" in
  match level with
  | LError => [EConsole ConsoleError prefix msg]
  | LWarn => [EConsole ConsoleWarn prefix msg]
  | LInfo | LDebug =>
      if debug config then [EConsole ConsoleLog prefix msg] else []
  end.

(** The state with [v] stored for [k] in the cache. *)
Definition cached (k : jstring) (v : option jstring) (st : State) : State :=
  {| fs := fs st; scriptCache := <[k := v]> (scriptCache st) |}.

(** The cache is the one before. *)
Definition sameCache (st st' : State) : Prop := scriptCache st' = scriptCache st.

(** Every entry of the cache is still there, with the same value. *)
Definition keeps (st st' : State) : Prop :=
  forall k v, scriptCache st !! k = Some v -> scriptCache st' !! k = Some v.

(** Every entry but the one of [Q] is as before. *)
Definition othersKept (Q : jstring) (st st' : State) : Prop :=
  forall k, k <> Q -> scriptCache st' !! k = scriptCache st !! k.

(** The disk is the one before. *)
Definition sameDisk (st st' : State) : Prop := fs st' = fs st.

(** [returns c]: whatever the state, [c] ends with a value, not with
    an exception. *)
Definition returns {A} (c : M A) : Prop :=
  forall st, exists a, result (c st) = Val a.

(** [respects R E c]: a run of [c] takes a state to an [R]-related
    one and causes only events of the kind [E]. *)
Definition respects (R : State -> State -> Prop) (E : Event -> Prop)
    {A} (c : M A) : Prop :=
  forall st, R st (final (c st)) /\ Forall E (events (c st)).

(** The outcome of one of the resolver's loops on a path [P]: it
    returns; when it leaves the function with [v], [v] is what the
    cache now holds for [P]; when it falls through, the cache is as
    before. *)
Definition loopPost (P : jstring) (c : M (Ctl (option jstring))) : Prop :=
  forall st,
    match result (c st) with
    | Val (Return v) => scriptCache (final (c st)) !! P = Some v
    | Val Continue => scriptCache (final (c st)) = scriptCache st
    | Raise _ => False
    end.

(** A user function that leaves the disk as it is. *)
Definition readOnly {A} (f : UserFn A) : Prop := forall d, (f d).2 = d.

(** *** What the regular expressions match *)

(** [<script\s+setup[^>]*>]: [<script], white space, [setup],
    anything but [>], and [>]. *)
Definition isOpenTag (t : jstring) : Prop :=
  exists ws attrs,
    t = js "<script" ++ ws ++ js "setup" ++ attrs ++ js ">" /\
    ws <> [] /\
    Forall (fun c => is_space c = true) ws /\
    Forall (fun c => c <> 62) attrs.

Definition closeTag : jstring := js "</script>".
Definition templateClose : jstring := js "</template>".

(** [occursIn pat s]: [pat] is somewhere in [s]. *)
Definition occursIn (pat s : jstring) : Prop :=
  exists a b, s = a ++ pat ++ b.

(** [s = a ++ pat ++ b] splits [s] at the first [pat]: no occurrence
    of [pat] starts inside [a]. *)
Definition firstAt (pat a s : jstring) : Prop :=
  forall a' b', s = a' ++ pat ++ b' -> (length a <= length a')%nat.

(** The longest prefix of [s] within the class [p], and the rest. *)
Fixpoint span (p : N -> bool) (s : jstring) : jstring * jstring :=
  match s with
  | c :: s' =>
      if p c then (c :: (span p s').1, (span p s').2) else ([], s)
  | [] => ([], [])
  end.

(** The open tag at the head of [s] and what follows it. *)
Definition openTagAt (s : jstring) : option (jstring * jstring) :=
  match strip (js "<script") s with
  | None => None
  | Some s1 =>
      match span is_space s1 with
      | ([], _) => None
      | (ws, s2) =>
          match strip (js "setup") s2 with
          | None => None
          | Some s3 =>
              match strip (js ">") (span not_gt s3).2 with
              | None => None
              | Some s5 =>
                  Some (js "<script" ++ ws ++ js "setup"
                        ++ (span not_gt s3).1 ++ js ">", s5)
              end
          end
      end
  end.

(** The text before the first [pat] in [s] and the text behind it. *)
Fixpoint findFirst (pat s : jstring) : option (jstring * jstring) :=
  match strip pat s with
  | Some b => Some ([], b)
  | None =>
      match s with
      | [] => None
      | c :: s' =>
          match findFirst pat s' with
          | Some (a, b) => Some (c :: a, b)
          | None => None
          end
      end
  end.

(** The replacement has none of the patterns [GetSubstitution]
    expands: no [$$], [$&], [$`] or [$']. *)
Fixpoint plainReplacement (repl : jstring) : bool :=
  match repl with
  | [] => true
  | c :: r =>
      match r with
      | d :: _ =>
          negb ((c =? 36) && ((d =? 36) || (d =? 38) || (d =? 96) || (d =? 39)))
          && plainReplacement r
      | [] => true
      end
  end.

(** The source has a [<script setup ...>] open tag. *)
Definition hasOpenTag (code : jstring) : Prop :=
  exists pre tag rest, code = pre ++ tag ++ rest /\ isOpenTag tag.

(** The source has a [<script setup ...>] open tag with a
    [</script>] somewhere behind it. *)
Definition hasBlock (code : jstring) : Prop :=
  exists pre tag mid post,
    code = pre ++ tag ++ mid ++ closeTag ++ post /\ isOpenTag tag.

(** The block at the head of [s]: the open tag, the text up to the
    first [</script>], and what follows that close tag. *)
Definition blockAt (s : jstring) : option (jstring * jstring * jstring) :=
  match openTagAt s with
  | Some (tag, rest) =>
      match findFirst closeTag rest with
      | Some (inner, after) => Some (tag, inner, after)
      | None => None
      end
  | None => None
  end.

(** What the open-tag pattern and the block pattern find at the head
    of [s]: the match, its captures and the rest. *)
Definition hereOpen (s : jstring) : option (jstring * list jstring * jstring) :=
  match openTagAt s with
  | Some (tag, rest) => Some (tag, [], rest)
  | None => None
  end.

Definition hereBlock (s : jstring) : option (jstring * list jstring * jstring) :=
  match blockAt s with
  | Some (tag, inner, after) =>
      Some (tag ++ inner ++ closeTag, [tag; inner; closeTag], after)
  | None => None
  end.

(** The events of [transform] behind the resolution: the read of the
    script, the call of a custom transform, console lines. *)
Definition afterResolve (e : Event) : Prop :=
  match e with
  | EReadFile _ | ECallTransform _ _ _ _ _ | EConsole _ _ _ => True
  | _ => False
  end.

(** The paths the custom resolver was called with, in order. *)
Definition resolveCalls (evs : list Event) : list jstring :=
  omap (fun e => match e with ECallResolve id => Some id | _ => None end) evs.

(** The line [transform] logs for a caught [error]. *)
Definition caughtLine (id : jstring) (error : Error) : Event :=
  EConsole ConsoleError (js "[vue-script-merger] ERROR:")
    (Msg.process1 ++ id ++ Msg.failed ++ stackOrMessage error).

(** The comment [transform] injects for the script [scriptPath]. *)
Definition commentFor {rt : Runtime} (config : Config) (id scriptPath : jstring)
    : jstring :=
  replace (injectComment config) (js "{filename}")
    (relative (dirname id) scriptPath).

(** The same-directory candidate of the component [P] for a suffix. *)
Definition sameDirCandidate {rt : Runtime} (P ext : jstring) : jstring :=
  join [dirname P; basename P (Some (js ".vue")) ++ ext].

(** On the disk [d], [ext] is the first configured suffix whose
    same-directory file exists for the component [P]. *)
Definition sameDirHit {rt : Runtime} (config : Config) (P ext : jstring)
    (d : FS) : Prop :=
  exists pre post,
    extensions config = pre ++ ext :: post /\
    Forall (fun e => fs_exists d (sameDirCandidate P e) = false) pre /\
    fs_exists d (sameDirCandidate P ext) = true.

(** A step that leaves that file where it is. *)
Definition keepsSameDirHit {rt : Runtime} (config : Config) (P ext : jstring)
    (s : Step) : Prop :=
  match s with
  | Disk d => sameDirHit config P ext d
  | _ => True
  end.

(** The plugin has seen to [P] not at all, or has resolved it to [f]. *)
Definition unresolvedOr (P f : jstring) (st : State) : Prop :=
  scriptCache st !! P = None \/ scriptCache st !! P = Some (Some f).

(** ** A project on a concrete disk

    The project [/proj] with the default options, run on Node with
    [/proj] as working directory; the component is
    [/proj/src/pages/Foo.vue].  The call stack has room for ten
    thousand nested calls of [findMatchingFiles], more folders than a
    path name can hold. *)

Definition node : Runtime := posix (js "/proj") (N.to_nat 10000).

Definition project : Config := defaultOptions (js "/proj").

Definition fooVue : jstring := js "/proj/src/pages/Foo.vue".

Definition fileEntry (n : string) : Dirent := {| name := js n; kind := KFile |}.
Definition dirEntry (n : string) : Dirent := {| name := js n; kind := KDirectory |}.

(** The directories every disk below has. *)
Definition projectDirs (pages views : list Dirent)
    : list (jstring * list Dirent) :=
  [(js "/proj", [dirEntry "src"]);
   (js "/proj/src", [dirEntry "pages"; dirEntry "views"]);
   (js "/proj/src/pages", pages);
   (js "/proj/src/views", views)].

Definition srcPlain : jstring := js "<template><p/></template><style></style>".

(** [src/views] holds [Foo.js] and [Foo.script.js], listed in the
    order of their names. *)
Definition viewsDisk : FS :=
  disk [(fooVue, srcPlain);
        (js "/proj/src/views/Foo.js", js "const a = 1");
        (js "/proj/src/views/Foo.script.js", js "const b = 2")]
       (projectDirs [fileEntry "Foo.vue"]
                    [fileEntry "Foo.js"; fileEntry "Foo.script.js"]).

(** [Foo.script.js] lies next to the component; [src/views] holds a
    [Foo.js] too. *)
Definition sameDirDisk : FS :=
  disk [(fooVue, srcPlain);
        (js "/proj/src/pages/Foo.script.js", js "const b = 2");
        (js "/proj/src/views/Foo.js", js "const a = 1")]
       (projectDirs [fileEntry "Foo.script.js"; fileEntry "Foo.vue"]
                    [fileEntry "Foo.js"]).

(** [Foo.script.js] next to the component is a directory: it exists
    and cannot be read as a file. *)
Definition brokenDisk : FS :=
  disk [(fooVue, srcPlain)]
       ((js "/proj/src/pages/Foo.script.js", [])
        :: projectDirs [dirEntry "Foo.script.js"; fileEntry "Foo.vue"] []).

(** The script next to the component has a dollar sign in a string. *)
Definition dollarScript : jstring := js "const cur = '$';".

Definition dollarDisk : FS :=
  disk [(fooVue, srcPlain);
        (js "/proj/src/pages/Foo.script.js", dollarScript)]
       (projectDirs [fileEntry "Foo.script.js"; fileEntry "Foo.vue"] []).

(** The script of the component is [src/views/Foo/index.js]. *)
Definition nestedDisk : FS :=
  disk [(fooVue, srcPlain);
        (js "/proj/src/views/Bar.js", js "const bar = 0");
        (js "/proj/src/views/Foo/index.js", js "const a = 1")]
       ((js "/proj/src/views/Foo", [fileEntry "index.js"])
        :: projectDirs [fileEntry "Foo.vue"] [fileEntry "Bar.js"; dirEntry "Foo"]).

(** No script for the component anywhere. *)
Definition bareDisk : FS :=
  disk [(fooVue, srcPlain)] (projectDirs [fileEntry "Foo.vue"] []).

(** Component sources. *)
Definition srcBlocks : jstring :=
  js "<template><p/></template><script  setup lang='ts'>x</script><script setup>y</script>".

Definition srcOpenOnly : jstring := js "<template><p/></template><script setup>x".

Definition srcNeither : jstring := js "<p>text</p>".

(** The comment of the default template for [Foo.script.js]:
    [// 自动导入的外部脚本: Foo.script.js]. *)
Definition fooComment : jstring :=
  [47; 47; 32; 33258; 21160; 23548; 20837; 30340; 22806; 37096; 33050;
   26412; 58; 32] ++ js "Foo.script.js".

(** A custom resolver that reads nothing and answers with one path. *)
Definition fixedResolver : jstring -> UserFn (option jstring) :=
  fun _ d => (Val (Some (js "/proj/src/pages/Foo.script.js")), d).

Definition customProject : Config := {|
  scriptPaths := scriptPaths project;
  extensions := extensions project;
  aliases := aliases project;
  debug := debug project;
  Options.resolveScriptPath := Some fixedResolver;
  Options.transform := None;
  rootDir := rootDir project;
  srcDir := srcDir project;
  injectComment := injectComment project;
  useSameDir := useSameDir project
|}.

(** A custom transform that throws [undefined], and the project that
    uses it. *)
Definition throwingTransform
    : jstring -> jstring -> jstring -> jstring -> jstring ->
      UserFn (option jstring) :=
  fun _ _ _ _ _ d => (Raise (Nullish true), d).

Definition throwingProject : Config := {|
  scriptPaths := scriptPaths project;
  extensions := extensions project;
  aliases := aliases project;
  debug := debug project;
  Options.resolveScriptPath := None;
  Options.transform := Some throwingTransform;
  rootDir := rootDir project;
  srcDir := srcDir project;
  injectComment := injectComment project;
  useSameDir := useSameDir project
|}.

(** The same-directory file is there, and the cache does not say
    otherwise. *)
Definition sameDirInv {rt : Runtime} (config : Config) (P ext : jstring)
    (st : State) : Prop :=
  sameDirHit config P ext (fs st) /\ unresolvedOr P (sameDirCandidate P ext) st.

(** Reduction of the projections of an outcome. *)
Ltac outcome :=
  cbn [result final events fst snd].

(** ** Vocabulary of the further properties *)

(** The entries [findMatchingFiles] pushes: files whose name ends in
    one of the suffixes (line 152). *)
Definition keptEntry (extensions : list jstring) (e : Dirent) : bool :=
  isFile e && existsb (fun ext => endsWith (name e) ext) extensions.

(** The events of a directory search: existence tests, directory
    reads and lines on [console.error]. *)
Definition searchEvent (e : Event) : Prop :=
  match e with
  | EExists _ | EReaddir _ | EConsole ConsoleError _ _ => True
  | _ => False
  end.

(** Anything but a line on [console.log]. *)
Definition notConsoleLog (e : Event) : Prop :=
  match e with
  | EConsole ConsoleLog _ _ => False
  | _ => True
  end.

(** Anything but an existence test or a directory read. *)
Definition notSearch (e : Event) : Prop :=
  match e with
  | EExists _ | EReaddir _ => False
  | _ => True
  end.

(** The entries written to the cache, in order. *)
Definition cacheSets (evs : list Event) : list (jstring * option jstring) :=
  omap (fun e => match e with ECacheSet k v => Some (k, v) | _ => None end) evs.

(** The lines of a run on [console.warn]. *)
Definition warnings (evs : list Event) : list jstring :=
  omap (fun e => match e with EConsole ConsoleWarn _ m => Some m | _ => None end)
    evs.

(** No alias of [entries] is a prefix of [filepath]. *)
Definition noAlias (entries : list (jstring * jstring)) (filepath : jstring)
    : Prop :=
  Forall (fun e => startsWith filepath e.1 = false) entries.

(** What the resolver does for a search directory that is missing:
    the existence test and the warning. *)
Definition skippedDir {rt : Runtime} (config : Config) (scriptPath : jstring)
    : list Event :=
  EExists (searchDirOf config scriptPath)
  :: logLine config (Msg.noDir ++ searchDirOf config scriptPath) LWarn.

(** The closing line of a resolution that found nothing. *)
Definition notFoundLine {rt : Runtime} (config : Config) (P : jstring)
    : list Event :=
  logLine config (Msg.notFound1 ++ basename P None ++ Msg.notFound2) LWarn.

(** The existence tests of the same-directory step when nothing is
    there: one per suffix if the step is enabled. *)
Definition sameDirProbes {rt : Runtime} (config : Config) (P : jstring)
    : list Event :=
  if useSameDir config
  then map (fun e => EExists (sameDirCandidate P e)) (extensions config)
  else [].

(** [src/views] is there but cannot be listed. *)
Definition lockedDisk : FS := {|
  fs_exists p := fs_exists bareDisk p;
  fs_scandir p :=
    if bool_decide (p = js "/proj/src/views")
    then Failed {| message := js "EACCES: permission denied, scandir"; stack := [] |}
    else fs_scandir bareDisk p;
  fs_read p := fs_read bareDisk p
|}.

(** [src/views] holds a script, a style sheet, a link and a folder. *)
Definition mixedDisk : FS :=
  disk [(fooVue, srcPlain);
        (js "/proj/src/views/Bar.js", js "const bar = 0");
        (js "/proj/src/views/Foo.css", js "p {}");
        (js "/proj/src/views/Foo.script.js", js "const b = 2")]
       (projectDirs [fileEntry "Foo.vue"]
          [fileEntry "Bar.js"; fileEntry "Foo.css";
           {| name := js "Foo.js"; kind := KOther |};
           fileEntry "Foo.script.js"]).

(** A project with two aliases and a custom transform that wraps the
    script in a comment of its own. *)
Definition aliasProject : Config := {|
  scriptPaths := [js "@scripts/pages"];
  extensions := extensions project;
  aliases := [(js "/proj/src/@scripts", js "/srv/scripts");
              (js "/proj", js "/other")];
  debug := false;
  Options.resolveScriptPath := None;
  Options.transform := None;
  rootDir := rootDir project;
  srcDir := srcDir project;
  injectComment := injectComment project;
  useSameDir := true
|}.



(** The paths [findMatchingFiles] pushes for the entries [entries] of
    the directory [dir], sub-directories aside. *)
Definition filesOf {rt : Runtime} (extensions : list jstring) (dir : jstring)
    (entries : list Dirent) : list jstring :=
  map (fun e => join [dir; name e]) (List.filter (keptEntry extensions) entries).

(** What a call of [findMatchingFiles] with the accumulator [res] may
    end in: an [Error] thrown, or [res] with more paths behind it; the
    state is the one before, and the events are those of a search. *)
Definition searchOutcome (res : list jstring) (st : State)
    (o : Res (list jstring) * State * list Event) : Prop :=
  match result o with
  | Val r => exists found, r = res ++ found
  | Raise t => exists err, t = Object err
  end /\
  final o = st /\
  Forall searchEvent (events o).

(** [listed d exts dir p]: on the disk [d], [p] is the path of an
    entry of the listing of [dir], or of a directory below it, that is
    a regular file with one of the suffixes; every directory on the
    way is there and can be read. *)
Inductive listed {rt : Runtime} (d : FS) (exts : list jstring)
    : jstring -> jstring -> Prop :=
| listed_here dir entries e :
    fs_exists d dir = true ->
    fs_readdir d dir = Val entries ->
    e ∈ entries ->
    keptEntry exts e = true ->
    listed d exts dir (join [dir; name e])
| listed_below dir entries e p :
    fs_exists d dir = true ->
    fs_readdir d dir = Val entries ->
    e ∈ entries ->
    isDirectory e = true ->
    listed d exts (join [dir; name e]) p ->
    listed d exts dir p.

(** [src/views] holds a script and the folder [Foo] with two more. *)
Definition treeDisk : FS :=
  disk [(fooVue, srcPlain);
        (js "/proj/src/views/Bar.js", js "const bar = 0");
        (js "/proj/src/views/Foo/index.js", js "const a = 1");
        (js "/proj/src/views/Foo/notes.txt", js "notes");
        (js "/proj/src/views/Zed.js", js "const z = 0")]
       ((js "/proj/src/views/Foo", [fileEntry "index.js"; fileEntry "notes.txt"])
        :: projectDirs [fileEntry "Foo.vue"]
             [fileEntry "Bar.js"; dirEntry "Foo"; fileEntry "Zed.js"]).

(** A loop of the resolver stores what it returns, once, and nothing
    when it falls through. *)
Definition loopSets (P : jstring) (c : M (Ctl (option jstring))) : Prop :=
  forall st,
    match result (c st) with
    | Val (Return v) => cacheSets (events (c st)) = [(P, v)]
    | Val Continue => cacheSets (events (c st)) = []
    | Raise _ => False
    end.

(** A loop of the resolver returns, if anything, a path with the
    property [Q]. *)
Definition loopFinds (Q : State -> jstring -> Prop)
    (c : M (Ctl (option jstring))) : Prop :=
  forall st,
    match result (c st) with
    | Val (Return v) => exists f, v = Some f /\ Q st f
    | _ => True
    end.

(** No constraint on how the state changes. *)
Definition anyState (st st' : State) : Prop := True.

Ltac outcome_in H :=
  cbn [result final events fst snd] in H.

(** None of the search directories exists. *)
Definition pagesOnlyDisk : FS :=
  disk [(fooVue, srcPlain)]
       [(js "/proj", [dirEntry "src"]);
        (js "/proj/src", [dirEntry "pages"]);
        (js "/proj/src/pages", [fileEntry "Foo.vue"])].


(** The default comment template up to its placeholder:
    [// 自动导入的外部脚本: ]. *)
Definition commentHead : jstring :=
  [47; 47; 32; 33258; 21160; 23548; 20837; 30340; 22806; 37096; 33050;
   26412; 58; 32].

Example startsWith_ex : startsWith (js "./views") (js "./") = true.
Proof. reflexivity. Qed.

Example includes_ex : includes (js "a/Foo/index.js") (js "/Foo/index") = true.
Proof. reflexivity. Qed.

Example posix_join : Posix.join [js "/proj"; js "src"; js "views"] = js "/proj/src/views".
Proof. vm_compute. reflexivity. Qed.

Example posix_join_rel : Posix.join [js "/proj"; js "../lib/./x"] = js "/lib/x".
Proof. vm_compute. reflexivity. Qed.

Example posix_basename_vue :
  Posix.basename (js "/proj/src/pages/Foo.vue") (Some (js ".vue")) = js "Foo".
Proof. vm_compute. reflexivity. Qed.

Example posix_basename_ext :
  Posix.basename (js "/d/Foo.script.js") (Some (Posix.extname (js "/d/Foo.script.js")))
  = js "Foo.script".
Proof. vm_compute. reflexivity. Qed.

Example posix_extname : Posix.extname (js "/d/Foo.script.js") = js ".js".
Proof. vm_compute. reflexivity. Qed.

Example posix_extname_hidden : Posix.extname (js "/d/.bashrc") = [].
Proof. vm_compute. reflexivity. Qed.

Example posix_dirname : Posix.dirname (js "/proj/src/pages/Foo.vue") = js "/proj/src/pages".
Proof. vm_compute. reflexivity. Qed.

Example posix_relative :
  Posix.relative (js "/") (js "/proj/src/pages") (js "/proj/src/views/Foo.js")
  = js "../views/Foo.js".
Proof. vm_compute. reflexivity. Qed.

Example open_tag_with_attributes :
  openTagAt (js "<script  setup lang='ts'>x</script>")
  = Some (js "<script  setup lang='ts'>", js "x</script>").
Proof. vm_compute. reflexivity. Qed.

Example open_tag_needs_space : test re_open (js "<scriptsetup>") = false.
Proof. vm_compute. reflexivity. Qed.

Example open_tag_any_attribute : test re_open (js "<script setupx>") = true.
Proof. vm_compute. reflexivity. Qed.

Example block_is_lazy :
  m_caps <$> exec re_block (js "a<script setup>b</script>c</script>")
  = Some [js "<script setup>"; js "b"; js "</script>"].
Proof. vm_compute. reflexivity. Qed.

Example substitution_patterns :
  getSubstitution (js "M") (js "B") (js "A") (js "1$$2$&3$`4$'5$16$")
  = js "1$2M3B4A5$16$".
Proof. vm_compute. reflexivity. Qed.

Example replace_first_only :
  replace (js "// {filename} {filename}") (js "{filename}") (js "x.js")
  = js "// x.js {filename}".
Proof. vm_compute. reflexivity. Qed.

Example nested_index_file :
  result (createPathResolver (rt := node) project fooVue (freshState nestedDisk))
  = Val (Some (js "/proj/src/views/Foo/index.js")).
Proof. vm_compute. reflexivity. Qed.

(** * Properties *)

(** ** The monad *)

Lemma bind_eq {A B} (c : M A) (k : A -> M B) st :
  bind c k st =
  match result (c st) with
  | Val a =>
      (result (k a (final (c st))), final (k a (final (c st))),
       events (c st) ++ events (k a (final (c st))))
  | Raise t => (Raise t, final (c st), events (c st))
  end.
Proof.
  unfold bind, result, final, events.
  destruct (c st) as [[[a|e] st1] ev1]; simpl; [|done].
  by destruct (k a st1) as [[r st2] ev2].
Qed.

Lemma try_catch_eq {A} (body : M A) (handler : Thrown -> M A) st :
  try_catch body handler st =
  match result (body st) with
  | Val a => body st
  | Raise e =>
      (result (handler e (final (body st))), final (handler e (final (body st))),
       events (body st) ++ events (handler e (final (body st))))
  end.
Proof.
  unfold try_catch, result, final, events.
  destruct (body st) as [[[a|e] st1] ev1]; simpl; [done|].
  by destruct (handler e st1) as [[r st2] ev2].
Qed.

Lemma attempt_eq {A} (c : M A) st :
  attempt c st = (Val (result (c st)), final (c st), events (c st)).
Proof. unfold attempt, result, final, events. by destruct (c st) as [[r st1] ev1]. Qed.

Lemma outcome_eta {A} (o : Res A * State * list Event) :
  o = (result o, final o, events o).
Proof. by destruct o as [[r s] e]. Qed.

(** *** Computations that return *)


Lemma returns_ret {A} (a : A) : returns (ret a).
Proof. intros st. by exists a. Qed.

Lemma returns_bind {A B} (c : M A) (k : A -> M B) :
  returns c -> (forall a, returns (k a)) -> returns (bind c k).
Proof.
  intros Hc Hk st. rewrite bind_eq.
  destruct (Hc st) as [a ->]. apply Hk.
Qed.

Lemma returns_try_catch {A} (body : M A) handler :
  (forall e, returns (handler e)) -> returns (try_catch body handler).
Proof.
  intros Hh st. rewrite try_catch_eq.
  destruct (result (body st)) as [a|e] eqn:Hb.
  - exists a. done.
  - apply Hh.
Qed.

Lemma returns_attempt {A} (c : M A) : returns (attempt c).
Proof. intros st. rewrite attempt_eq. by eexists. Qed.

(** *** Frames

    [respects R E c]: a run of [c] takes a state to an [R]-related
    one and causes only events of the kind [E]. *)


Section Respects.

Context {R : State -> State -> Prop} `{!PreOrder R} {E : Event -> Prop}.

Lemma respects_ret {A} (a : A) : respects R E (ret a).
Proof. intros st. split; [reflexivity | constructor]. Qed.

Lemma respects_throw {A} e : respects R E (@throw A e).
Proof. intros st. split; [reflexivity | constructor]. Qed.

Lemma respects_bind {A B} (c : M A) (k : A -> M B) :
  respects R E c -> (forall a, respects R E (k a)) -> respects R E (bind c k).
Proof.
  intros Hc Hk st. rewrite bind_eq.
  destruct (Hc st) as [HR HE].
  destruct (result (c st)) as [a|e]; [|done].
  destruct (Hk a (final (c st))) as [HR2 HE2]. split.
  - by etrans.
  - by apply Forall_app.
Qed.

Lemma respects_try_catch {A} (body : M A) handler :
  respects R E body -> (forall e, respects R E (handler e)) ->
  respects R E (try_catch body handler).
Proof.
  intros Hb Hh st. rewrite try_catch_eq.
  destruct (Hb st) as [HR HE].
  destruct (result (body st)) as [a|e]; [done|].
  destruct (Hh e (final (body st))) as [HR2 HE2]. split.
  - by etrans.
  - by apply Forall_app.
Qed.

Lemma respects_attempt {A} (c : M A) : respects R E c -> respects R E (attempt c).
Proof. intros Hc st. rewrite attempt_eq. apply Hc. Qed.

Lemma respects_same {A} (c : M A) :
  (forall st, final (c st) = st) -> (forall st, Forall E (events (c st))) ->
  respects R E c.
Proof. intros Hs He st. rewrite Hs. split; [reflexivity | apply He]. Qed.

End Respects.

(** ** Frames of the plugin's functions *)

Section PluginFrame.

Context {rt : Runtime}.
Variable config : Config.
Variable R : State -> State -> Prop.
Context `{!PreOrder R}.
Variable E : Event -> Prop.

Hypothesis E_fs : forall e, is_fs_event e = true -> E e.
Hypothesis E_console : forall s p m, E (EConsole s p m).

Lemma respects_existsSync p : respects R E (existsSync p).
Proof. apply respects_same; [done|]. intros st. repeat constructor. by apply E_fs. Qed.

Lemma respects_readdirSync p : respects R E (readdirSync p).
Proof. apply respects_same; [done|]. intros st. repeat constructor. by apply E_fs. Qed.

Lemma respects_readFileSync p : respects R E (readFileSync p).
Proof. apply respects_same; [done|]. intros st. repeat constructor. by apply E_fs. Qed.

Lemma respects_console s p m : respects R E (console s p m).
Proof. apply respects_same; [done|]. intros st. repeat constructor. apply E_console. Qed.

Lemma respects_log msg level : respects R E (log config msg level).
Proof.
  unfold log.
  destruct (debug config), level; simpl;
    first [apply respects_ret | apply respects_console].
Qed.

Lemma respects_readDirFailed dir err results :
  respects R E (readDirFailed config dir err results).
Proof.
  destruct err as [err|u]; simpl; [|apply respects_throw].
  apply respects_bind; [apply respects_log | intros; apply respects_ret].
Qed.

Lemma respects_forEntries recur dir exts entries :
  (forall d res, respects R E (recur d res)) ->
  forall results, respects R E (forEntries recur dir exts entries results).
Proof.
  intros Hrec. induction entries as [|entry rest IH]; intros results; simpl.
  - apply respects_ret.
  - destruct (isDirectory entry).
    + apply respects_bind; [by apply respects_attempt|].
      intros [res1|err]; [apply IH | apply respects_ret].
    + destruct (_ && _); apply IH.
Qed.

Lemma respects_findMatchingFiles depth : forall dir exts results,
  respects R E (findMatchingFiles config depth dir exts results).
Proof.
  induction depth as [|depth IH]; intros dir exts results; simpl.
  - apply respects_throw.
  - apply respects_bind; [apply respects_existsSync|].
    intros there. destruct there; simpl; [|apply respects_ret].
    apply respects_bind; [apply respects_attempt, respects_readdirSync|].
    intros [entries|err].
    + apply respects_bind.
      * apply respects_forEntries. intros d res. apply IH.
      * intros [res1 [err|]]; [apply respects_readDirFailed | apply respects_ret].
    + apply respects_readDirFailed.
Qed.

(** The resolver on the path [P], given that its three cache calls
    are within the frame. *)
Section Resolver.

Variable P : jstring.
Hypothesis E_has : E (ECacheHas P).
Hypothesis E_get : E (ECacheGet P).
Hypothesis R_set : forall v, respects R E (cacheSet P v).

Lemma respects_cacheHas : respects R E (cacheHas P).
Proof. apply respects_same; [done|]. intros st. by repeat constructor. Qed.

Lemma respects_cacheGet : respects R E (cacheGet P).
Proof. apply respects_same; [done|]. intros st. by repeat constructor. Qed.

Lemma respects_found msg v :
  respects R E
    (log config msg LDebug ;; cacheSet P (Some v) ;; ret (Return (Some v))).
Proof.
  apply respects_bind; [apply respects_log|]. intros _.
  apply respects_bind; [apply R_set|]. intros _. apply respects_ret.
Qed.

Lemma respects_sameDirLoop vueDir base exts :
  respects R E (sameDirLoop config P vueDir base exts).
Proof.
  induction exts as [|ext rest IH]; simpl; [apply respects_ret|].
  apply respects_bind; [apply respects_existsSync|].
  intros [|]; [apply respects_found | apply IH].
Qed.

Lemma respects_matchLoop base files :
  respects R E (matchLoop config P base files).
Proof.
  induction files as [|file rest IH]; simpl; [apply respects_ret|].
  destruct (matchesComponent base file); [apply respects_found | apply IH].
Qed.

Lemma respects_searchLoop base paths :
  respects R E (searchLoop config P base paths).
Proof.
  induction paths as [|scriptPath rest IH]; simpl; [apply respects_ret|].
  apply respects_bind; [apply respects_existsSync|].
  intros [|]; simpl.
  - apply respects_bind.
    + apply respects_try_catch.
      * apply respects_bind; [apply respects_findMatchingFiles|].
        intros files. apply respects_matchLoop.
      * intros [err|u]; simpl; [|apply respects_throw].
        apply respects_bind; [apply respects_log|].
        intros _. apply respects_ret.
    + intros [v|]; [apply respects_ret | apply IH].
  - apply respects_bind; [apply respects_log | intros _; apply IH].
Qed.

Lemma respects_createPathResolver :
  respects R E (createPathResolver config P).
Proof.
  unfold createPathResolver.
  apply respects_bind; [apply respects_cacheHas|].
  intros [|]; [apply respects_cacheGet|].
  apply respects_bind.
  - destruct (useSameDir config); [apply respects_sameDirLoop | apply respects_ret].
  - intros [v|]; [apply respects_ret|].
    apply respects_bind; [apply respects_searchLoop|].
    intros [v|]; [apply respects_ret|].
    apply respects_bind; [apply respects_log|]. intros _.
    apply respects_bind; [apply R_set|]. intros _. apply respects_ret.
Qed.

End Resolver.

(** The [transform] hook on the path [id], given that the resolver in
    use and the custom transform, if any, are within the frame. *)
Lemma respects_transform code id :
  respects R E (resolveScriptPath config id) ->
  (forall f content comment scriptPath,
     Options.transform config = Some f ->
     respects R E
       (callUser (ECallTransform code content comment id scriptPath)
          (f code content comment id scriptPath))) ->
  respects R E (transform config code id).
Proof.
  intros Hres Huser. unfold transform.
  destruct (negb _); [apply respects_ret|].
  apply respects_try_catch.
  - unfold transformBody. apply respects_bind; [apply Hres|].
    intros [[|c p]|]; try apply respects_ret.
    apply respects_bind; [apply respects_readFileSync|].
    intros content.
    destruct (Options.transform config) as [f|] eqn:Hf;
      [by apply Huser | apply respects_ret].
  - intros [err|u]; simpl; [|apply respects_throw].
    apply respects_bind; [apply respects_log|].
    intros _. apply respects_ret.
Qed.

End PluginFrame.

(** ** The primitive calls *)

Lemma ret_eq {A} (a : A) st : ret a st = (Val a, st, []).
Proof. reflexivity. Qed.

Lemma throw_eq {A} e st : @throw A e st = (Exn e, st, []).
Proof. reflexivity. Qed.

Lemma existsSync_eq p st :
  existsSync p st = (Val (fs_exists (fs st) p), st, [EExists p]).
Proof. reflexivity. Qed.

Lemma readdirSync_eq p st :
  readdirSync p st = (fs_readdir (fs st) p, st, [EReaddir p]).
Proof. reflexivity. Qed.

Lemma readFileSync_eq p st :
  readFileSync p st = (fs_readFile (fs st) p, st, [EReadFile p]).
Proof. reflexivity. Qed.

Lemma cacheHas_eq k st :
  cacheHas k st =
  (Val (bool_decide (is_Some (scriptCache st !! k))), st, [ECacheHas k]).
Proof. reflexivity. Qed.

Lemma cacheGet_eq k st :
  cacheGet k st = (Val (default None (scriptCache st !! k)), st, [ECacheGet k]).
Proof. reflexivity. Qed.

Lemma cacheSet_eq k v st :
  cacheSet k v st =
  (Val tt, {| fs := fs st; scriptCache := <[k := v]> (scriptCache st) |},
   [ECacheSet k v]).
Proof. reflexivity. Qed.

(** A call into [fs] throws an [Error], nothing else. *)
Lemma fs_readdir_throws d p t :
  fs_readdir d p = Raise t -> exists err, t = Object err.
Proof.
  unfold fs_readdir. destruct (fs_scandir d p) as [l|e]; cbn [outcomeOf]; [done|].
  intros [= <-]. by eexists.
Qed.

Lemma fs_readFile_throws d p t :
  fs_readFile d p = Raise t -> exists err, t = Object err.
Proof.
  unfold fs_readFile. destruct (fs_read d p) as [l|e]; cbn [outcomeOf]; [done|].
  intros [= <-]. by eexists.
Qed.

Lemma callUser_eq {A} ev (f : UserFn A) st :
  callUser ev f st =
  ((f (fs st)).1, {| fs := (f (fs st)).2; scriptCache := scriptCache st |}, [ev]).
Proof. unfold callUser. by destruct (f (fs st)). Qed.

(** ** The console *)


Lemma log_eq config msg level st :
  log config msg level st = (Val tt, st, logLine config msg level).
Proof. unfold log, logLine. by destruct (debug config), level. Qed.

Lemma logLine_error config msg :
  logLine config msg LError =
  [EConsole ConsoleError (js "[vue-script-merger] ERROR:") msg].
Proof. reflexivity. Qed.

Lemma returns_log config msg level : returns (log config msg level).
Proof. intros st. rewrite log_eq. by eexists. Qed.

(** ** The recursive search *)

Section Search.

Context {rt : Runtime}.
Variable config : Config.

(** The loop over the entries returns; what ended it, if anything, is
    what a recursive call threw. *)
Lemma forEntries_returns recur dir exts entries :
  (forall d res st t,
     result (recur d res st) = Raise t -> exists err, t = Object err) ->
  forall results st, exists out thrown,
    result (forEntries recur dir exts entries results st) = Val (out, thrown) /\
    forall t, thrown = Some t -> exists err, t = Object err.
Proof.
  intros Hrec. induction entries as [|entry rest IH]; intros results st;
    cbn [forEntries].
  - exists results, None. split; [done|]. by intros t.
  - destruct (isDirectory entry).
    + rewrite bind_eq, attempt_eq. outcome.
      destruct (result (recur (join [dir; name entry]) results st))
        as [res1|t] eqn:Hr.
      * apply IH.
      * rewrite ret_eq. outcome. exists results, (Some t). split; [done|].
        intros t' Ht'. apply (inj Some) in Ht' as <-. by apply (Hrec _ _ _ _ Hr).
    + destruct (_ && _); apply IH.
Qed.

(** [findMatchingFiles] throws in one case only: the [RangeError] of
    a call with no room left on the stack. *)
Lemma findMatchingFiles_throws depth : forall dir exts results st t,
  result (findMatchingFiles config depth dir exts results st) = Raise t ->
  depth = 0%nat /\ t = Object rangeError.
Proof.
  induction depth as [|depth IH]; intros dir exts results st t;
    cbn [findMatchingFiles].
  - rewrite throw_eq. outcome. by intros [= <-].
  - rewrite bind_eq, existsSync_eq. outcome.
    destruct (fs_exists _ _); cbn [negb]; [|by rewrite ret_eq].
    rewrite bind_eq, attempt_eq, readdirSync_eq. outcome.
    destruct (fs_readdir (fs st) dir) as [entries|t1] eqn:Hread.
    + rewrite bind_eq.
      destruct (forEntries_returns
                  (fun d res => findMatchingFiles config depth d exts res)
                  dir exts entries) with (results := results) (st := st)
        as (out & thrown & Hout & Hth).
      { intros d res st1 t1 Ht. destruct (IH _ _ _ _ _ Ht) as [_ ->]. by eexists. }
      rewrite Hout. outcome. destruct thrown as [t1|].
      * destruct (Hth t1 eq_refl) as [err ->]. cbn [readDirFailed].
        by rewrite bind_eq, log_eq, ret_eq.
      * by rewrite ret_eq.
    + destruct (fs_readdir_throws _ _ _ Hread) as [err ->]. cbn [readDirFailed].
      by rewrite bind_eq, log_eq, ret_eq.
Qed.

(** Below the top of the stack [findMatchingFiles] catches whatever
    is thrown in it: only a call with no room left throws, and so
    before it has pushed anything. *)
Lemma findMatchingFiles_returns depth dir exts results :
  returns (findMatchingFiles config (S depth) dir exts results).
Proof.
  intros st.
  destruct (result (findMatchingFiles config (S depth) dir exts results st))
    as [r|t] eqn:Hr; [by exists r|].
  by destruct (findMatchingFiles_throws _ _ _ _ _ _ Hr) as [? _].
Qed.

End Search.

(** ** The resolver and its cache *)

Section ResolverFacts.

Context {rt : Runtime}.
Variable config : Config.


Lemma found_eq P msg v st :
  (log config msg LDebug ;; cacheSet P (Some v) ;; ret (Return (Some v))) st =
  (Val (Return (Some v)), cached P (Some v) st,
   logLine config msg LDebug ++ [ECacheSet P (Some v)]).
Proof.
  rewrite bind_eq. outcome. rewrite log_eq. outcome. rewrite bind_eq. outcome. rewrite cacheSet_eq, ret_eq. outcome.
  by rewrite app_nil_r.
Qed.

(** A cache hit: the stored value comes back, the state stays, and
    the only events are the two cache reads. *)
Lemma resolver_hit P v st :
  scriptCache st !! P = Some v ->
  createPathResolver config P st = (Val v, st, [ECacheHas P; ECacheGet P]).
Proof.
  intros Hc. unfold createPathResolver. rewrite bind_eq. outcome. rewrite cacheHas_eq. outcome.
  rewrite Hc. rewrite bool_decide_eq_true_2 by eauto.
  rewrite cacheGet_eq. outcome. by rewrite Hc.
Qed.


#[local] Instance sameCache_preorder : PreOrder sameCache.
Proof.
  split.
  - by intros st.
  - intros a b c Hab Hbc. unfold sameCache in *. congruence.
Qed.

Lemma findMatchingFiles_sameCache depth dir exts results st :
  scriptCache (final (findMatchingFiles config depth dir exts results st))
  = scriptCache st.
Proof.
  by apply (respects_findMatchingFiles config sameCache (fun _ => True)).
Qed.


Lemma sameDirLoop_post P vueDir base exts :
  loopPost P (sameDirLoop config P vueDir base exts).
Proof.
  induction exts as [|ext rest IH]; intros st; cbn [sameDirLoop]; [done|].
  rewrite bind_eq. outcome. rewrite existsSync_eq. outcome.
  destruct (fs_exists _ _).
  - rewrite found_eq. outcome. apply lookup_insert_eq.
  - apply IH.
Qed.

Lemma matchLoop_post P base files :
  loopPost P (matchLoop config P base files).
Proof.
  induction files as [|file rest IH]; intros st; cbn [matchLoop]; [done|].
  destruct (matchesComponent base file); [|apply IH].
  rewrite found_eq. outcome. apply lookup_insert_eq.
Qed.

Lemma searchLoop_post P base paths :
  loopPost P (searchLoop config P base paths).
Proof.
  induction paths as [|scriptPath rest IH]; intros st; cbn [searchLoop]; [done|].
  rewrite bind_eq. outcome. rewrite existsSync_eq. outcome.
  destruct (fs_exists _ _); cbn [negb].
  - rewrite bind_eq, try_catch_eq, bind_eq.
    set (o := findMatchingFiles config stackDepth _ _ _ st).
    pose proof (findMatchingFiles_sameCache stackDepth
                  (searchDirOf config scriptPath) (extensions config) [] st) as Hsame.
    fold o in Hsame.
    destruct (result o) as [files|err] eqn:Ho; cbn [result final events fst snd].
    + pose proof (matchLoop_post P base files (final o)) as Hm.
      destruct (result (matchLoop config P base files (final o))) as [[v|]|e1];
        cbn [result final events fst snd]; [done| |done].
      specialize (IH (final (matchLoop config P base files (final o)))).
      destruct (result (searchLoop config P base rest _)) as [[v|]|e2];
        [done| |done].
      rewrite IH, Hm. done.
    + destruct (findMatchingFiles_throws _ _ _ _ _ _ _ Ho) as [_ ->].
      cbn [searchFailed]. rewrite bind_eq, log_eq, ret_eq. outcome.
      specialize (IH (final o)).
      destruct (result (searchLoop config P base rest _)) as [[v|]|e2];
        [done| |done].
      by rewrite IH.
  - rewrite bind_eq, log_eq. cbn [result final events fst snd]. apply IH.
Qed.

(** The resolver returns, and what it returns is then in the cache. *)
Lemma resolver_caches P st :
  exists v,
    result (createPathResolver config P st) = Val v /\
    scriptCache (final (createPathResolver config P st)) !! P = Some v.
Proof.
  destruct (scriptCache st !! P) as [v|] eqn:Hc.
  { exists v. by rewrite (resolver_hit P v st Hc). }
  unfold createPathResolver. rewrite bind_eq, cacheHas_eq. outcome.
  rewrite Hc. rewrite bool_decide_eq_false_2 by (by intros [? ?]).
  rewrite bind_eq.
  set (c1 := if useSameDir config then _ else _).
  assert (loopPost P c1) as H1.
  { subst c1. destruct (useSameDir config); [apply sameDirLoop_post | by intros ?]. }
  specialize (H1 st).
  destruct (result (c1 st)) as [[v|]|err]; cbn [result final events fst snd];
    [by exists v| |done].
  rewrite bind_eq.
  pose proof (searchLoop_post P (basename P (Some (js ".vue")))
                (scriptPaths config) (final (c1 st))) as H2.
  destruct (result (searchLoop config P _ _ (final (c1 st)))) as [[v|]|err];
    cbn [result final events fst snd]; [by exists v| |done].
  exists None. rewrite bind_eq, log_eq. outcome.
  rewrite bind_eq, cacheSet_eq, ret_eq. outcome.
  split; [done | apply lookup_insert_eq].
Qed.

End ResolverFacts.

(** ** The cache only grows *)


#[local] Instance keeps_preorder : PreOrder keeps.
Proof.
  split.
  - by intros st k v.
  - intros a b c Hab Hbc k v Hk. by apply Hbc, Hab.
Qed.


#[local] Instance othersKept_preorder Q : PreOrder (othersKept Q).
Proof.
  split.
  - by intros st k.
  - intros a b c Hab Hbc k Hk. by rewrite Hbc, Hab.
Qed.

Section CacheGrows.

Context {rt : Runtime}.
Variable config : Config.

Lemma resolver_othersKept Q st :
  othersKept Q st (final (createPathResolver config Q st)).
Proof.
  apply (respects_createPathResolver config (othersKept Q) (fun _ => True));
    try done.
  intros v st0. split; [|by repeat constructor].
  rewrite cacheSet_eq. intros k Hk. outcome. cbn [scriptCache].
  by apply lookup_insert_ne.
Qed.

Lemma resolver_keeps Q st : keeps st (final (createPathResolver config Q st)).
Proof.
  intros k v Hk. destruct (decide (k = Q)) as [->|Hne].
  - by rewrite (resolver_hit config Q v st Hk).
  - by rewrite resolver_othersKept.
Qed.

Lemma callUser_sameCache {A} ev (f : UserFn A) st :
  scriptCache (final (callUser ev f st)) = scriptCache st.
Proof. by rewrite callUser_eq. Qed.

Lemma resolveScriptPath_keeps id :
  respects keeps (fun _ => True) (resolveScriptPath config id).
Proof.
  intros st. split; [|by apply Forall_forall].
  unfold resolveScriptPath. destruct (Options.resolveScriptPath config) as [f|].
  - intros k v Hk. by rewrite callUser_sameCache.
  - apply resolver_keeps.
Qed.

Lemma transform_keeps code id st :
  keeps st (final (transform config code id st)).
Proof.
  apply (respects_transform config keeps (fun _ => True)); try done.
  - apply resolveScriptPath_keeps.
  - intros f content comment scriptPath _ st0.
    split; [|by apply Forall_forall].
    intros k v Hk. by rewrite callUser_sameCache.
Qed.

Lemma step_keeps s st : keeps st (final (step config s st)).
Proof.
  destruct s as [id|code id|d]; cbn [step].
  - rewrite bind_eq, attempt_eq, ret_eq. outcome. apply resolver_keeps.
  - rewrite bind_eq, attempt_eq, ret_eq. outcome. apply transform_keeps.
  - by intros k v Hk.
Qed.

Lemma step_returns s st : result (step config s st) = Val tt.
Proof.
  destruct s as [id|code id|d]; cbn [step]; [| |done];
    by rewrite bind_eq, attempt_eq, ret_eq.
Qed.

Lemma run_keeps steps : forall st, keeps st (final (run config steps st)).
Proof.
  induction steps as [|s rest IH]; intros st; cbn [run]; [by intros k v|].
  rewrite bind_eq, step_returns. outcome.
  etrans; [apply step_keeps | apply IH].
Qed.

End CacheGrows.

(** C1 -- Once the built-in resolver has been called on a path [P],
    every later call with [P] gives the very same answer (a script
    path or [null]) out of the cache: whatever happened in between
    (other resolutions, [transform] calls, files created or deleted on
    the disk), the later call returns what the first one returned,
    leaves the state as it is, and its only events are
    [scriptCache.has(P)] and [scriptCache.get(P)] -- the disk is not
    looked at. *)
Theorem resolver_answer_is_final `{rt : Runtime} (config : Config)
    (P : jstring) (st : State) :
  exists v,
    result (createPathResolver config P st) = Val v /\
    forall steps : list Step,
      let later := final (run config steps (final (createPathResolver config P st))) in
      createPathResolver config P later
      = (Val v, later, [ECacheHas P; ECacheGet P]).
Proof.
  destruct (resolver_caches config P st) as (v & Hv & Hc).
  exists v. split; [done|]. intros steps later.
  apply resolver_hit. by apply (run_keeps config steps).
Qed.

(** ** Strings and patterns *)

Lemma strip_app p r : strip p (p ++ r) = Some r.
Proof.
  induction p as [|a p IH]; cbn [strip app]; [by destruct r|].
  by rewrite N.eqb_refl.
Qed.

Lemma strip_Some p : forall s r, strip p s = Some r -> s = p ++ r.
Proof.
  induction p as [|a p IH]; intros s r; cbn [strip].
  - destruct s; intros [= <-]; done.
  - destruct s as [|b s]; [done|].
    destruct (a =? b) eqn:Hab; [|done].
    apply N.eqb_eq in Hab as ->. intros H. by rewrite (IH s r H).
Qed.

Lemma strip_head_ne a p c t : (a =? c) = false -> strip (a :: p) (c :: t) = None.
Proof. intros H. cbn [strip]. by rewrite H. Qed.

Lemma strip_None p s : strip p s = None -> forall r, s <> p ++ r.
Proof. intros H r ->. by rewrite strip_app in H. Qed.

Lemma startsWith_strip s p : startsWith s p = bool_decide (is_Some (strip p s)).
Proof.
  revert s. induction p as [|a p IH]; intros [|b s]; cbn [startsWith strip].
  - by rewrite bool_decide_eq_true_2.
  - by rewrite bool_decide_eq_true_2.
  - rewrite bool_decide_eq_false_2; [done | by intros [? ?]].
  - destruct (a =? b); cbn [andb]; [apply IH|].
    rewrite bool_decide_eq_false_2; [done | by intros [? ?]].
Qed.

Lemma startsWith_app p r : startsWith (p ++ r) p = true.
Proof.
  rewrite startsWith_strip, strip_app. by apply bool_decide_eq_true_2.
Qed.

Lemma span_app p s : s = (span p s).1 ++ (span p s).2.
Proof.
  induction s as [|c s IH]; cbn [span]; [done|].
  destruct (p c); cbn [fst snd app]; [by rewrite <- IH | done].
Qed.

Lemma span_all p s : Forall (fun c => p c = true) (span p s).1.
Proof.
  induction s as [|c s IH]; cbn [span]; [constructor|].
  destruct (p c) eqn:Hc; cbn [fst]; by constructor.
Qed.

Lemma span_stop p s c t : (span p s).2 = c :: t -> p c = false.
Proof.
  induction s as [|d s IH]; cbn [span]; [done|].
  destruct (p d) eqn:Hd; cbn [snd]; [done|]. by intros [= -> _].
Qed.

(** The split into a run of the class and a rest that does not go on
    with the class is the one [span] finds. *)
Lemma span_unique p ws rest :
  Forall (fun c => p c = true) ws ->
  match rest with c :: _ => p c = false | [] => True end ->
  span p (ws ++ rest) = (ws, rest).
Proof.
  intros Hws Hrest. induction Hws as [|c ws Hc _ IH]; cbn [app].
  - destruct rest as [|c t]; cbn [span]; [done|]. by rewrite Hrest.
  - cbn [span]. by rewrite Hc, IH.
Qed.

(** A greedy class followed by something that cannot start within
    the class never gives a character back. *)
Lemma star_greedy_det p (k : Cont) :
  (forall c t cs, p c = true -> k (c :: t) cs = None) ->
  forall s caps, star_greedy p s caps k = k (span p s).2 caps.
Proof.
  intros Hk s caps. induction s as [|c s IH]; cbn [star_greedy span]; [done|].
  destruct (p c) eqn:Hc; cbn [snd]; [|done].
  rewrite IH. destruct (k (span p s).2 caps) eqn:Hr; [done|].
  by apply Hk.
Qed.

Lemma is_space_not_s c : is_space c = true -> (115 =? c) = false.
Proof.
  intros H. destruct (115 =? c) eqn:Hc; [|done].
  apply N.eqb_eq in Hc as <-. done.
Qed.

Lemma not_gt_spec c : not_gt c = true <-> c <> 62.
Proof.
  unfold not_gt. rewrite negb_true_iff, N.eqb_neq. done.
Qed.

(** The open-tag pattern, run with any continuation. *)
Lemma rmatch_re_open s caps (k : Cont) :
  rmatch re_open s caps k =
  match openTagAt s with
  | Some (_, rest) => k rest caps
  | None => None
  end.
Proof.
  unfold re_open, openTagAt. cbn [rmatch].
  destruct (strip (js "<script") s) as [s1|]; [|done].
  assert (match s1 with
          | c :: s' =>
              if is_space c then
                star_greedy is_space s' caps
                  (fun s2 caps2 =>
                     match strip (js "setup") s2 with
                     | Some s3 =>
                         star_greedy not_gt s3 caps2
                           (fun s4 caps4 =>
                              match strip (js ">") s4 with
                              | Some s5 => k s5 caps4
                              | None => None
                              end)
                     | None => None
                     end)
              else None
          | [] => None
          end =
          match span is_space s1 with
          | ([], _) => None
          | (_ :: _, s2) =>
              match strip (js "setup") s2 with
              | Some s3 =>
                  match strip (js ">") (span not_gt s3).2 with
                  | Some s5 => k s5 caps
                  | None => None
                  end
              | None => None
              end
          end) as ->.
  { destruct s1 as [|c s']; cbn [span]; [done|].
    destruct (is_space c); [|done]. cbn [fst snd].
    rewrite star_greedy_det.
    - destruct (strip (js "setup") (span is_space s').2) as [s3|]; [|done].
      rewrite star_greedy_det; [done|].
      intros d t cs Hd. change (js ">") with [62].
      rewrite strip_head_ne; [done|].
      apply N.eqb_neq. intros <-. by apply not_gt_spec in Hd.
    - intros d t cs Hd. change (js "setup") with (115 :: js "etup").
      by rewrite strip_head_ne by by apply is_space_not_s. }
  destruct (span is_space s1) as [[|w ws] s2]; [done|].
  destruct (strip (js "setup") s2) as [s3|]; [|done].
  by destruct (strip (js ">") (span not_gt s3).2).
Qed.

Lemma openTagAt_sound s tag rest :
  openTagAt s = Some (tag, rest) -> s = tag ++ rest /\ isOpenTag tag.
Proof.
  unfold openTagAt.
  destruct (strip (js "<script") s) as [s1|] eqn:H1; [|done].
  pose proof (span_app is_space s1) as Happ1.
  pose proof (span_all is_space s1) as Hall1.
  destruct (span is_space s1) as [[|w ws] s2]; [done|]. cbn [fst snd] in *.
  destruct (strip (js "setup") s2) as [s3|] eqn:H3; [|done].
  pose proof (span_app not_gt s3) as Happ3.
  pose proof (span_all not_gt s3) as Hall3.
  destruct (span not_gt s3) as [attrs s4]. cbn [fst snd] in *.
  destruct (strip (js ">") s4) as [s5|] eqn:H5; [|done].
  intros Heq. apply (inj Some) in Heq. apply pair_equal_spec in Heq as [<- <-].
  apply strip_Some in H1, H3, H5. split.
  - rewrite H1, Happ1, H3, Happ3, H5. by rewrite <- !app_assoc.
  - exists (w :: ws), attrs. repeat split; [done|done|].
    eapply Forall_impl; [exact Hall3|]. intros c Hc. by apply not_gt_spec.
Qed.

Lemma openTagAt_complete tag rest :
  isOpenTag tag -> openTagAt (tag ++ rest) = Some (tag, rest).
Proof.
  intros (ws & attrs & -> & Hne & Hws & Hattrs). unfold openTagAt.
  rewrite <- !app_assoc, strip_app.
  rewrite (span_unique is_space ws (js "setup" ++ attrs ++ js ">" ++ rest));
    [|done|done].
  destruct ws as [|w ws]; [done|].
  rewrite strip_app.
  rewrite (span_unique not_gt attrs (js ">" ++ rest)); [|..|done].
  - cbn [fst snd]. by rewrite strip_app.
  - eapply Forall_impl; [exact Hattrs|]. intros c Hc. by apply not_gt_spec.
Qed.

(** An open tag has no second reading: two open tags at the head of
    one text are the same. *)
Lemma isOpenTag_unique t1 r1 t2 r2 :
  isOpenTag t1 -> isOpenTag t2 -> t1 ++ r1 = t2 ++ r2 -> t1 = t2 /\ r1 = r2.
Proof.
  intros H1 H2 Heq.
  pose proof (openTagAt_complete t1 r1 H1) as E1.
  pose proof (openTagAt_complete t2 r2 H2) as E2.
  rewrite Heq in E1. rewrite E1 in E2. by injection E2.
Qed.

(** *** The first occurrence of a literal *)

Lemma findFirst_sound pat : forall s a b,
  findFirst pat s = Some (a, b) -> s = a ++ pat ++ b /\ firstAt pat a s.
Proof.
  induction s as [|c s IH]; intros a b; cbn [findFirst].
  - destruct (strip pat []) as [b0|] eqn:Hs; [|done].
    intros Heq. apply (inj Some) in Heq. apply pair_equal_spec in Heq as [<- <-].
    apply strip_Some in Hs. split; [done|]. intros a' b' _. cbn. lia.
  - destruct (strip pat (c :: s)) as [b0|] eqn:Hs.
    + intros Heq. apply (inj Some) in Heq. apply pair_equal_spec in Heq as [<- <-].
      apply strip_Some in Hs. split; [done|]. intros a' b' _. cbn. lia.
    + destruct (findFirst pat s) as [[a0 b0]|] eqn:Hf; [|done].
      intros Heq. apply (inj Some) in Heq. apply pair_equal_spec in Heq as [<- <-].
      destruct (IH a0 b0 eq_refl) as [-> Hfirst]. split; [done|].
      intros [|c' a'] b' Heq.
      * exfalso. by apply (strip_None _ _ Hs b').
      * cbn [app] in Heq. injection Heq as _ Heq. cbn [length].
        specialize (Hfirst a' b' Heq). lia.
Qed.

Lemma findFirst_None pat : forall s, findFirst pat s = None -> ~ occursIn pat s.
Proof.
  induction s as [|c s IH]; cbn [findFirst].
  - destruct (strip pat []) eqn:Hs; [done|]. intros _ ([|? a] & b & Heq).
    + by apply (strip_None _ _ Hs b).
    + done.
  - destruct (strip pat (c :: s)) eqn:Hs; [done|].
    destruct (findFirst pat s) as [[a0 b0]|] eqn:Hf; [done|].
    intros _ ([|c' a] & b & Heq).
    + by apply (strip_None _ _ Hs b).
    + cbn [app] in Heq. injection Heq as _ Heq. apply IH; [done|]. by exists a, b.
Qed.

Lemma findFirst_complete pat s :
  occursIn pat s -> exists a b, findFirst pat s = Some (a, b).
Proof.
  intros Hocc. destruct (findFirst pat s) as [[a b]|] eqn:Hf; [by eauto|].
  by apply findFirst_None in Hf.
Qed.

Lemma take_len_diff (a b : jstring) :
  take (length (a ++ b) - length b) (a ++ b) = a.
Proof.
  rewrite length_app.
  replace (length a + length b - length b)%nat with (length a) by lia.
  apply take_app_length.
Qed.

Lemma any_char_true c : any_char c = true.
Proof. unfold any_char. by destruct (is_space c). Qed.

(** A lazy [[\s\S]*?] in front of a literal stops at the first
    occurrence of the literal. *)
Lemma star_lazy_literal pat
    (h : jstring -> jstring -> list jstring -> jstring * list jstring)
    (k : Cont) caps :
  (forall s2 caps2,
     k s2 caps2 =
     match strip pat s2 with
     | Some s3 => Some (h s2 s3 caps2)
     | None => None
     end) ->
  forall s,
    star_lazy any_char s caps k =
    match findFirst pat s with
    | Some (_, b) => Some (h (pat ++ b) b caps)
    | None => None
    end.
Proof.
  intros Hk. induction s as [|c s IH]; cbn [star_lazy findFirst]; rewrite Hk.
  - destruct (strip pat []) as [b|] eqn:Hs; [|done].
    by rewrite <- (strip_Some _ _ _ Hs).
  - destruct (strip pat (c :: s)) as [b|] eqn:Hs.
    + by rewrite <- (strip_Some _ _ _ Hs).
    + rewrite any_char_true, IH. by destruct (findFirst pat s) as [[a b]|].
Qed.

(** *** The three patterns, anchored *)

Lemma match_here_literal pat before s :
  match_here (Str pat) before s =
  match strip pat s with
  | Some b =>
      Some {| m_before := before; m_text := pat; m_caps := []; m_after := b |}
  | None => None
  end.
Proof.
  unfold match_here. cbn [rmatch].
  destruct (strip pat s) as [b|] eqn:Hs; [|done].
  apply strip_Some in Hs as ->. by rewrite take_len_diff.
Qed.

Lemma match_here_open before s :
  match_here re_open before s =
  match openTagAt s with
  | Some (tag, rest) =>
      Some {| m_before := before; m_text := tag; m_caps := []; m_after := rest |}
  | None => None
  end.
Proof.
  unfold match_here. rewrite rmatch_re_open.
  destruct (openTagAt s) as [[tag rest]|] eqn:Ho; [|done].
  apply openTagAt_sound in Ho as [-> _]. by rewrite take_len_diff.
Qed.

Lemma match_here_block before s :
  match_here re_block before s =
  match openTagAt s with
  | Some (tag, rest) =>
      match findFirst closeTag rest with
      | Some (inner, after) =>
          Some {| m_before := before;
                  m_text := tag ++ inner ++ closeTag;
                  m_caps := [tag; inner; closeTag];
                  m_after := after |}
      | None => None
      end
  | None => None
  end.
Proof.
  unfold match_here, re_block. cbn [rmatch]. rewrite rmatch_re_open.
  destruct (openTagAt s) as [[tag rest]|] eqn:Ho; [|done].
  apply openTagAt_sound in Ho as [-> _].
  rewrite (star_lazy_literal closeTag
             (fun s2 s3 caps2 =>
                (s3, (caps2 ++ [take (length rest - length s2) rest])
                     ++ [take (length s2 - length s3) s2]))); [|done].
  destruct (findFirst closeTag rest) as [[inner after]|] eqn:Hf; [|done].
  apply findFirst_sound in Hf as [-> _].
  rewrite !take_len_diff.
  replace (tag ++ inner ++ closeTag ++ after)
    with ((tag ++ inner ++ closeTag) ++ after) by (by rewrite <- !app_assoc).
  by rewrite take_len_diff.
Qed.

(** *** The leftmost match *)

Section Leftmost.

Variable r : Re.
Variable here : jstring -> option (jstring * list jstring * jstring).
Hypothesis here_ok : forall before s,
  match_here r before s =
  match here s with
  | Some (t, c, a) =>
      Some {| m_before := before; m_text := t; m_caps := c; m_after := a |}
  | None => None
  end.

Lemma exec_from_Some : forall s before m,
  exec_from r before s = Some m ->
  exists pre suf t c a,
    s = pre ++ suf /\ here suf = Some (t, c, a) /\
    m = {| m_before := before ++ pre; m_text := t; m_caps := c; m_after := a |} /\
    forall pre' suf', s = pre' ++ suf' -> (length pre' < length pre)%nat ->
                      here suf' = None.
Proof.
  induction s as [|x s IH]; intros before m; cbn [exec_from]; rewrite here_ok.
  - destruct (here []) as [[[t c] a]|] eqn:Hh; [|done].
    intros [= <-]. exists [], [], t, c, a. rewrite (app_nil_r before).
    do 3 (split; [done|]). intros pre' suf' _ Hlt. cbn in Hlt. lia.
  - destruct (here (x :: s)) as [[[t c] a]|] eqn:Hh.
    + intros [= <-]. exists [], (x :: s), t, c, a. rewrite (app_nil_r before).
      do 3 (split; [done|]). intros pre' suf' _ Hlt. cbn in Hlt. lia.
    + intros Hex. destruct (IH _ _ Hex) as (pre & suf & t & c & a & -> & Hs & -> & Hmin).
      exists (x :: pre), suf, t, c, a. rewrite <- app_assoc.
      do 3 (split; [done|]).
      intros [|x' pre'] suf' Heq Hlt.
      * cbn [app] in Heq. by rewrite <- Heq.
      * cbn [app] in Heq. injection Heq as _ Heq. apply (Hmin pre' suf' Heq).
        cbn in Hlt. lia.
Qed.

Lemma exec_from_None : forall s before,
  exec_from r before s = None ->
  forall pre suf, s = pre ++ suf -> here suf = None.
Proof.
  induction s as [|x s IH]; intros before; cbn [exec_from]; rewrite here_ok.
  - destruct (here []) as [[[t c] a]|] eqn:Hh; [done|].
    intros _ pre suf Heq. symmetry in Heq. apply app_eq_nil in Heq as [_ ->]. done.
  - destruct (here (x :: s)) as [[[t c] a]|] eqn:Hh; [done|].
    intros Hex [|x' pre] suf Heq.
    + cbn [app] in Heq. by rewrite <- Heq.
    + cbn [app] in Heq. injection Heq as _ Heq. by apply (IH _ Hex pre suf).
Qed.

End Leftmost.

(** *** The three patterns, searched *)

Lemma exec_literal pat s :
  exec (Str pat) s =
  match findFirst pat s with
  | Some (a, b) =>
      Some {| m_before := a; m_text := pat; m_caps := []; m_after := b |}
  | None => None
  end.
Proof.
  assert (forall before,
    exec_from (Str pat) before s =
    match findFirst pat s with
    | Some (a, b) =>
        Some {| m_before := before ++ a; m_text := pat; m_caps := [];
                m_after := b |}
    | None => None
    end) as H.
  { induction s as [|c s IH]; intros before; cbn [exec_from findFirst];
      rewrite match_here_literal.
    - destruct (strip pat []); [by rewrite (app_nil_r before) | done].
    - destruct (strip pat (c :: s)); [by rewrite (app_nil_r before)|].
      rewrite IH. destruct (findFirst pat s) as [[a b]|]; [|done].
      by rewrite <- app_assoc. }
  unfold exec. rewrite H. by destruct (findFirst pat s) as [[a b]|].
Qed.

Lemma hereOpen_ok before s :
  match_here re_open before s =
  match hereOpen s with
  | Some (t, c, a) =>
      Some {| m_before := before; m_text := t; m_caps := c; m_after := a |}
  | None => None
  end.
Proof.
  rewrite match_here_open. unfold hereOpen.
  by destruct (openTagAt s) as [[tag rest]|].
Qed.

Lemma hereBlock_ok before s :
  match_here re_block before s =
  match hereBlock s with
  | Some (t, c, a) =>
      Some {| m_before := before; m_text := t; m_caps := c; m_after := a |}
  | None => None
  end.
Proof.
  rewrite match_here_block. unfold hereBlock, blockAt.
  destruct (openTagAt s) as [[tag rest]|]; [|done].
  by destruct (findFirst closeTag rest) as [[inner after]|].
Qed.

Lemma test_open_iff code : test re_open code = true <-> hasOpenTag code.
Proof.
  unfold test, exec. split.
  - destruct (exec_from re_open [] code) as [m|] eqn:Hex; [|done]. intros _.
    destruct (exec_from_Some re_open hereOpen hereOpen_ok _ _ _ Hex)
      as (pre & suf & t & c & a & -> & Hh & _ & _).
    unfold hereOpen in Hh.
    destruct (openTagAt suf) as [[tag rest]|] eqn:Ho; [|done].
    apply openTagAt_sound in Ho as [-> Htag]. by exists pre, tag, rest.
  - intros (pre & tag & rest & -> & Htag).
    destruct (exec_from re_open [] _) as [m|] eqn:Hex; [done|].
    pose proof (exec_from_None re_open hereOpen hereOpen_ok _ _ Hex
                  pre (tag ++ rest) eq_refl) as Hh.
    unfold hereOpen in Hh. by rewrite (openTagAt_complete tag rest Htag) in Hh.
Qed.

Lemma blockAt_sound s tag inner after :
  blockAt s = Some (tag, inner, after) ->
  s = tag ++ inner ++ closeTag ++ after /\ isOpenTag tag /\
  firstAt closeTag inner (inner ++ closeTag ++ after).
Proof.
  unfold blockAt.
  destruct (openTagAt s) as [[tag0 rest]|] eqn:Ho; [|done].
  destruct (findFirst closeTag rest) as [[inner0 after0]|] eqn:Hf; [|done].
  intros Heq. apply (inj Some) in Heq.
  apply pair_equal_spec in Heq as [Heq <-].
  apply pair_equal_spec in Heq as [<- <-].
  apply openTagAt_sound in Ho as [-> Htag].
  apply findFirst_sound in Hf as [-> Hfirst]. done.
Qed.

Lemma blockAt_complete tag mid post :
  isOpenTag tag ->
  exists inner after, blockAt (tag ++ mid ++ closeTag ++ post) = Some (tag, inner, after).
Proof.
  intros Htag. unfold blockAt. rewrite (openTagAt_complete _ _ Htag).
  destruct (findFirst_complete closeTag (mid ++ closeTag ++ post))
    as (inner & after & ->); [by exists mid, post|].
  by exists inner, after.
Qed.

(** The block pattern finds the first open tag that has a close tag
    behind it, and takes the text up to the first close tag. *)
Lemma exec_block_Some code m :
  exec re_block code = Some m ->
  exists before tag inner after,
    code = before ++ tag ++ inner ++ closeTag ++ after /\
    isOpenTag tag /\
    (forall pre' tag' mid' post',
        code = pre' ++ tag' ++ mid' ++ closeTag ++ post' -> isOpenTag tag' ->
        (length before <= length pre')%nat) /\
    firstAt closeTag inner (inner ++ closeTag ++ after) /\
    m = {| m_before := before; m_text := tag ++ inner ++ closeTag;
           m_caps := [tag; inner; closeTag]; m_after := after |}.
Proof.
  intros Hex.
  destruct (exec_from_Some re_block hereBlock hereBlock_ok _ _ _ Hex)
    as (pre & suf & t & c & a & -> & Hh & -> & Hmin).
  unfold hereBlock in Hh.
  destruct (blockAt suf) as [[[tag inner] after]|] eqn:Hb; [|done].
  injection Hh as <- <- <-.
  apply blockAt_sound in Hb as (-> & Htag & Hfirst).
  exists pre, tag, inner, after. do 2 (split; [done|]). split; [|done].
  intros pre' tag' mid' post' Heq Htag'.
  destruct (decide (length pre' < length pre)%nat) as [Hlt|]; [|lia].
  pose proof (Hmin pre' _ Heq Hlt) as Hnone. unfold hereBlock in Hnone.
  destruct (blockAt_complete tag' mid' post' Htag') as (i & a & Hsome).
  by rewrite Hsome in Hnone.
Qed.

Lemma exec_block_None code : exec re_block code = None -> ~ hasBlock code.
Proof.
  intros Hex (pre & tag & mid & post & -> & Htag).
  pose proof (exec_from_None re_block hereBlock hereBlock_ok _ _ Hex
                pre _ eq_refl) as Hnone.
  unfold hereBlock in Hnone.
  destruct (blockAt_complete tag mid post Htag) as (i & a & Hsome).
  by rewrite Hsome in Hnone.
Qed.

Lemma hasBlock_hasOpenTag code : hasBlock code -> hasOpenTag code.
Proof.
  intros (pre & tag & mid & post & -> & Htag).
  by exists pre, tag, (mid ++ closeTag ++ post).
Qed.

(** *** The default splice *)

Lemma defaultTransform_block code comment content :
  hasBlock code ->
  exists before tag inner after,
    code = before ++ tag ++ inner ++ closeTag ++ after /\
    isOpenTag tag /\
    (forall pre' tag' mid' post',
        code = pre' ++ tag' ++ mid' ++ closeTag ++ post' -> isOpenTag tag' ->
        (length before <= length pre')%nat) /\
    firstAt closeTag inner (inner ++ closeTag ++ after) /\
    defaultTransform code comment content =
    before
    ++ (tag ++ nl ++ comment ++ nl ++ content ++ nl ++ inner ++ closeTag)
    ++ after.
Proof.
  intros Hblock. unfold defaultTransform.
  rewrite (proj2 (test_open_iff code)) by by apply hasBlock_hasOpenTag.
  unfold replace_fn.
  destruct (exec re_block code) as [m|] eqn:Hex;
    [|by apply exec_block_None in Hex].
  destruct (exec_block_Some code m Hex)
    as (before & tag & inner & after & Hcode & Htag & Hmin & Hfirst & ->).
  exists before, tag, inner, after. by do 4 (split; [done|]).
Qed.

Lemma defaultTransform_no_close code comment content :
  hasOpenTag code -> ~ hasBlock code ->
  defaultTransform code comment content = code.
Proof.
  intros Hopen Hno. unfold defaultTransform.
  rewrite (proj2 (test_open_iff code)) by done. unfold replace_fn.
  destruct (exec re_block code) as [m|] eqn:Hex; [|done].
  destruct (exec_block_Some code m Hex)
    as (before & tag & inner & after & Hcode & Htag & _).
  exfalso. apply Hno. by exists before, tag, inner, after.
Qed.

Lemma test_open_false code : ~ hasOpenTag code -> test re_open code = false.
Proof.
  intros Hno. destruct (test re_open code) eqn:Ht; [|done].
  by apply test_open_iff in Ht.
Qed.

Lemma defaultTransform_fallback code comment content :
  ~ hasOpenTag code ->
  defaultTransform code comment content =
  match findFirst templateClose code with
  | Some (a, b) =>
      a ++ getSubstitution templateClose a b (newBlock comment content) ++ b
  | None => code
  end.
Proof.
  intros Hno. unfold defaultTransform. rewrite test_open_false by done.
  unfold replace_re, re_template. fold templateClose. rewrite exec_literal.
  by destruct (findFirst templateClose code) as [[a b]|].
Qed.

Lemma defaultTransform_no_template code comment content :
  ~ hasOpenTag code -> ~ occursIn templateClose code ->
  defaultTransform code comment content = code.
Proof.
  intros Hno Hnt. rewrite defaultTransform_fallback by done.
  destruct (findFirst templateClose code) as [[a b]|] eqn:Hf; [|done].
  apply findFirst_sound in Hf as [-> _]. exfalso. apply Hnt. by exists a, b.
Qed.

(** A replacement string without [$$], [$&], [$`] and [$'] is
    inserted as it is. *)
Lemma getSubstitution_plain matched before after : forall repl,
  plainReplacement repl = true ->
  getSubstitution matched before after repl = repl.
Proof.
  induction repl as [|c r IH]; [done|].
  cbn [getSubstitution plainReplacement].
  destruct r as [|d r'].
  - intros _. by destruct (c =? 36).
  - intros Hp. apply andb_true_iff in Hp as [Hcd Hr].
    rewrite (IH Hr).
    destruct (c =? 36); [|done].
    cbn [andb negb] in Hcd. apply negb_true_iff in Hcd.
    apply orb_false_iff in Hcd as [Hcd H39].
    apply orb_false_iff in Hcd as [Hcd H96].
    apply orb_false_iff in Hcd as [H36 H38].
    by rewrite H36, H38, H96, H39.
Qed.

(** The fallback, when nothing in the new block is a [$] pattern. *)
Lemma defaultTransform_plain code comment content a b :
  ~ hasOpenTag code ->
  code = a ++ templateClose ++ b -> firstAt templateClose a code ->
  plainReplacement (newBlock comment content) = true ->
  defaultTransform code comment content = a ++ newBlock comment content ++ b.
Proof.
  intros Hno Hcode Hfirst Hplain. rewrite defaultTransform_fallback by done.
  destruct (findFirst templateClose code) as [[a0 b0]|] eqn:Hf.
  - apply findFirst_sound in Hf as [Hcode0 Hfirst0].
    assert (length a0 = length a) as Hlen.
    { pose proof (Hfirst a0 b0 Hcode0). pose proof (Hfirst0 a b Hcode). lia. }
    rewrite Hcode in Hcode0.
    apply app_inj_1 in Hcode0 as [<- Hrest]; [|done].
    apply app_inv_head in Hrest as <-.
    by rewrite getSubstitution_plain.
  - apply findFirst_None in Hf. exfalso. apply Hf. by exists a, b.
Qed.

(** ** The [transform] hook *)

Section Hook.

Context {rt : Runtime}.
Variable config : Config.

Lemma transform_not_vue code id st :
  endsWith id (js ".vue") = false ->
  transform config code id st = (Val None, st, []).
Proof. intros H. unfold transform. by rewrite H. Qed.

Lemma transform_ok code id st v :
  endsWith id (js ".vue") = true ->
  result (transformBody config code id st) = Val v ->
  transform config code id st = transformBody config code id st.
Proof.
  intros Hvue Hb. unfold transform. rewrite Hvue. cbn [negb].
  by rewrite try_catch_eq, Hb.
Qed.

Lemma transform_caught code id st err :
  endsWith id (js ".vue") = true ->
  result (transformBody config code id st) = Exn err ->
  transform config code id st =
  (Val None, final (transformBody config code id st),
   events (transformBody config code id st) ++ [caughtLine id err]).
Proof.
  intros Hvue Hb. unfold transform. rewrite Hvue. cbn [negb].
  rewrite try_catch_eq, Hb. cbn [transformFailed].
  by rewrite bind_eq, log_eq, ret_eq.
Qed.

(** A caught [null] or [undefined]: reading its [stack] raises, and
    nothing is logged. *)
Lemma transform_raised code id st u :
  endsWith id (js ".vue") = true ->
  result (transformBody config code id st) = Raise (Nullish u) ->
  transform config code id st =
  (Exn (typeError u "stack"), final (transformBody config code id st),
   events (transformBody config code id st)).
Proof.
  intros Hvue Hb. unfold transform. rewrite Hvue. cbn [negb].
  rewrite try_catch_eq, Hb. cbn [transformFailed].
  rewrite throw_eq. outcome. by rewrite app_nil_r.
Qed.

Lemma transformBody_resolve_fails code id st t :
  result (resolveScriptPath config id st) = Raise t ->
  transformBody config code id st =
  (Raise t, final (resolveScriptPath config id st),
   events (resolveScriptPath config id st)).
Proof. intros Hr. unfold transformBody. by rewrite bind_eq, Hr. Qed.

Lemma transformBody_no_path code id st v :
  result (resolveScriptPath config id st) = Val v ->
  v = None \/ v = Some [] ->
  transformBody config code id st =
  (Val None, final (resolveScriptPath config id st),
   events (resolveScriptPath config id st)).
Proof.
  intros Hr Hv. unfold transformBody. rewrite bind_eq, Hr.
  destruct Hv as [-> | ->]; rewrite ret_eq; outcome; by rewrite app_nil_r.
Qed.

Lemma transformBody_read_fails code id st p err :
  result (resolveScriptPath config id st) = Val (Some p) -> p <> [] ->
  fs_readFile (fs (final (resolveScriptPath config id st))) p = Exn err ->
  transformBody config code id st =
  (Exn err, final (resolveScriptPath config id st),
   events (resolveScriptPath config id st) ++ [EReadFile p]).
Proof.
  intros Hr Hp Hread. unfold transformBody. rewrite bind_eq, Hr.
  destruct p as [|c p]; [done|].
  by rewrite bind_eq, readFileSync_eq, Hread.
Qed.

Lemma transformBody_default code id st p content :
  result (resolveScriptPath config id st) = Val (Some p) -> p <> [] ->
  fs_readFile (fs (final (resolveScriptPath config id st))) p = Val content ->
  Options.transform config = None ->
  transformBody config code id st =
  (Val (Some (defaultTransform code (commentFor config id p) content)),
   final (resolveScriptPath config id st),
   events (resolveScriptPath config id st) ++ [EReadFile p]).
Proof.
  intros Hr Hp Hread Hnone. unfold transformBody. rewrite bind_eq, Hr.
  destruct p as [|c p]; [done|].
  rewrite bind_eq, readFileSync_eq. outcome. rewrite Hread, Hnone, ret_eq.
  outcome. by rewrite app_nil_r.
Qed.

Lemma transformBody_custom code id st p content f :
  result (resolveScriptPath config id st) = Val (Some p) -> p <> [] ->
  fs_readFile (fs (final (resolveScriptPath config id st))) p = Val content ->
  Options.transform config = Some f ->
  transformBody config code id st =
  ((f code content (commentFor config id p) id p
      (fs (final (resolveScriptPath config id st)))).1,
   {| fs := (f code content (commentFor config id p) id p
               (fs (final (resolveScriptPath config id st)))).2;
      scriptCache := scriptCache (final (resolveScriptPath config id st)) |},
   events (resolveScriptPath config id st)
   ++ [EReadFile p; ECallTransform code content (commentFor config id p) id p]).
Proof.
  intros Hr Hp Hread Hf. unfold transformBody. rewrite bind_eq, Hr.
  destruct p as [|c p]; [done|].
  rewrite bind_eq, readFileSync_eq. outcome. rewrite Hread, Hf.
  by rewrite callUser_eq.
Qed.

(** With a resolved and readable script and no custom transform, the
    hook returns the default splice. *)
Lemma transform_default code id st p content :
  endsWith id (js ".vue") = true ->
  result (resolveScriptPath config id st) = Val (Some p) -> p <> [] ->
  fs_readFile (fs (final (resolveScriptPath config id st))) p = Val content ->
  Options.transform config = None ->
  transform config code id st =
  (Val (Some (defaultTransform code (commentFor config id p) content)),
   final (resolveScriptPath config id st),
   events (resolveScriptPath config id st) ++ [EReadFile p]).
Proof.
  intros Hvue Hr Hp Hread Hnone.
  pose proof (transformBody_default code id st p content Hr Hp Hread Hnone) as Hb.
  erewrite transform_ok; [done | done | by rewrite Hb].
Qed.

(** The hook returns unless its [try] block threw [null] or
    [undefined]. *)
Lemma transform_returns code id st :
  (forall u, result (transformBody config code id st) <> Raise (Nullish u)) ->
  exists v, result (transform config code id st) = Val v.
Proof.
  intros Hb. unfold transform. destruct (negb _); [by eexists|].
  rewrite try_catch_eq.
  destruct (result (transformBody config code id st)) as [v|[err|u]] eqn:Hr.
  - by exists v.
  - cbn [transformFailed]. rewrite bind_eq, log_eq, ret_eq. by eexists.
  - by destruct (Hb u).
Qed.

(** A resolved script is read first thing behind the resolution. *)
Lemma transform_reads code id st p :
  endsWith id (js ".vue") = true ->
  result (resolveScriptPath config id st) = Val (Some p) -> p <> [] ->
  exists rest,
    events (transform config code id st)
    = events (resolveScriptPath config id st) ++ EReadFile p :: rest.
Proof.
  intros Hvue Hr Hp.
  assert (exists rest,
            events (transformBody config code id st)
            = events (resolveScriptPath config id st) ++ EReadFile p :: rest)
    as [rest Hb].
  { unfold transformBody. rewrite bind_eq, Hr. destruct p as [|c p]; [done|].
    outcome. rewrite bind_eq, readFileSync_eq. outcome.
    destruct (fs_readFile _ _) as [content|t]; outcome; by eexists. }
  unfold transform. rewrite Hvue. cbn [negb]. rewrite try_catch_eq.
  destruct (result (transformBody config code id st)) as [v|t].
  - by exists rest.
  - outcome. rewrite Hb, <- app_assoc. by eexists.
Qed.

(** With the built-in resolver and the default splice the [try]
    block throws nothing but the [Error] of a failed read. *)
Lemma transformBody_builtin code id st u :
  Options.resolveScriptPath config = None ->
  Options.transform config = None ->
  result (transformBody config code id st) <> Raise (Nullish u).
Proof.
  intros Hres Htr. unfold transformBody, resolveScriptPath. rewrite Hres, Htr.
  rewrite bind_eq.
  destruct (resolver_caches config id st) as (v & -> & _).
  destruct v as [[|c p]|]; [by rewrite ret_eq | | by rewrite ret_eq].
  rewrite bind_eq, readFileSync_eq. outcome.
  destruct (fs_readFile _ _) as [content|t] eqn:Hread; [by rewrite ret_eq|].
  destruct (fs_readFile_throws _ _ _ Hread) as [err ->]. done.
Qed.

(** Behind the resolution the hook reads the script, calls the custom
    transform and logs; it does not go back to the resolver or to the
    cache. *)
Lemma transform_shape code id st :
  endsWith id (js ".vue") = true ->
  exists rest,
    events (transform config code id st)
    = events (resolveScriptPath config id st) ++ rest /\
    Forall afterResolve rest /\
    scriptCache (final (transform config code id st))
    = scriptCache (final (resolveScriptPath config id st)).
Proof.
  intros Hvue.
  destruct (result (resolveScriptPath config id st)) as [v|[err|u]] eqn:Hr.
  - destruct v as [[|c p]|].
    + exists []. rewrite (transform_ok code id st None Hvue);
        rewrite (transformBody_no_path code id st _ Hr) by auto; outcome;
        [by rewrite app_nil_r | done].
    + set (p1 := c :: p) in *.
      assert (p1 <> []) as Hp by done.
      destruct (fs_readFile (fs (final (resolveScriptPath config id st))) p1)
        as [content|t] eqn:Hread;
        [|destruct (fs_readFile_throws _ _ _ Hread) as [err ->]].
      * destruct (Options.transform config) as [f|] eqn:Hf.
        -- pose proof (transformBody_custom code id st p1 content f
                         Hr Hp Hread Hf) as Hb.
           destruct (f code content (commentFor config id p1) id p1
                       (fs (final (resolveScriptPath config id st)))).1
             as [v|[err|u]] eqn:Hres.
           ++ exists [EReadFile p1;
                     ECallTransform code content (commentFor config id p1) id p1].
              rewrite (transform_ok code id st v Hvue), Hb by by rewrite Hb.
              outcome. by repeat constructor.
           ++ exists [EReadFile p1;
                     ECallTransform code content (commentFor config id p1) id p1;
                     caughtLine id err].
              rewrite (transform_caught code id st err Hvue), Hb by by rewrite Hb.
              outcome. rewrite <- app_assoc. by repeat constructor.
           ++ exists [EReadFile p1;
                     ECallTransform code content (commentFor config id p1) id p1].
              rewrite (transform_raised code id st u Hvue), Hb by by rewrite Hb.
              outcome. by repeat constructor.
        -- exists [EReadFile p1].
           rewrite (transform_default code id st p1 content) by done.
           outcome. by repeat constructor.
      * exists [EReadFile p1; caughtLine id err].
        pose proof (transformBody_read_fails code id st p1 err Hr Hp Hread) as Hb.
        rewrite (transform_caught code id st err Hvue), Hb by by rewrite Hb.
        outcome. rewrite <- app_assoc. by repeat constructor.
    + exists []. rewrite (transform_ok code id st None Hvue);
        rewrite (transformBody_no_path code id st _ Hr) by auto; outcome;
        [by rewrite app_nil_r | done].
  - exists [caughtLine id err].
    pose proof (transformBody_resolve_fails code id st _ Hr) as Hb.
    rewrite (transform_caught code id st err Hvue), Hb by by rewrite Hb.
    outcome. by repeat constructor.
  - exists [].
    pose proof (transformBody_resolve_fails code id st _ Hr) as Hb.
    rewrite (transform_raised code id st u Hvue), Hb by by rewrite Hb.
    outcome. by rewrite app_nil_r.
Qed.

End Hook.

(** ** The same-directory step *)

Lemma first_true_split {A} (f : A -> bool) (l : list A) :
  (exists x, x ∈ l /\ f x = true) ->
  exists pre x post,
    l = pre ++ x :: post /\ Forall (fun y => f y = false) pre /\ f x = true.
Proof.
  induction l as [|a l IH]; intros (x & Hin & Hx).
  - by apply elem_of_nil in Hin.
  - destruct (f a) eqn:Ha.
    + by exists [], a, l.
    + apply elem_of_cons in Hin as [-> | Hin]; [congruence|].
      destruct IH as (pre & y & post & -> & Hpre & Hy); [by exists x|].
      exists (a :: pre), y, post. by repeat constructor.
Qed.

Section SameDir.

Context {rt : Runtime}.
Variable config : Config.

Lemma sameDirLoop_found P st ext post : forall pre,
  Forall (fun e => fs_exists (fs st) (sameDirCandidate P e) = false) pre ->
  fs_exists (fs st) (sameDirCandidate P ext) = true ->
  sameDirLoop config P (dirname P) (basename P (Some (js ".vue")))
    (pre ++ ext :: post) st =
  (Val (Return (Some (sameDirCandidate P ext))),
   cached P (Some (sameDirCandidate P ext)) st,
   map (fun e => EExists (sameDirCandidate P e)) (pre ++ [ext])
   ++ logLine config
        (Msg.sameDir ++ relative (rootDir config) (sameDirCandidate P ext)) LDebug
   ++ [ECacheSet P (Some (sameDirCandidate P ext))]).
Proof.
  intros pre Hpre Hext. induction Hpre as [|e pre He _ IH]; cbn [app sameDirLoop].
  - rewrite bind_eq, existsSync_eq. outcome.
    fold (sameDirCandidate P ext). rewrite Hext, found_eq. by outcome.
  - rewrite bind_eq, existsSync_eq. outcome.
    fold (sameDirCandidate P e). rewrite He, IH. by outcome.
Qed.

End SameDir.

(** When the same-directory file exists for some configured suffix,
    there is a first such suffix. *)
Lemma sameDirHit_exists `{rt : Runtime} (config : Config) (P : jstring) (d : FS) :
  (exists e, e ∈ extensions config /\
             fs_exists d (sameDirCandidate P e) = true) ->
  exists ext, sameDirHit config P ext d.
Proof.
  intros Hex.
  destruct (first_true_split (fun e => fs_exists d (sameDirCandidate P e))
              (extensions config) Hex)
    as (pre & ext & post & Hexts & Hpre & Hext).
  by exists ext, pre, post.
Qed.

(** A resolution that is not answered from the cache stops at the
    first configured suffix whose same-directory file exists: the run
    is the cache check, the existence tests of the same-directory
    candidates up to the one found, the debug line and the cache
    store. *)
Lemma same_directory_miss `{rt : Runtime} (config : Config)
    (P : jstring) (st : State) (pre : list jstring) (ext : jstring)
    (post : list jstring) :
  useSameDir config = true ->
  scriptCache st !! P = None ->
  extensions config = pre ++ ext :: post ->
  Forall (fun e => fs_exists (fs st) (sameDirCandidate P e) = false) pre ->
  fs_exists (fs st) (sameDirCandidate P ext) = true ->
  createPathResolver config P st =
  (Val (Some (sameDirCandidate P ext)),
   cached P (Some (sameDirCandidate P ext)) st,
   ECacheHas P
   :: map (fun e => EExists (sameDirCandidate P e)) (pre ++ [ext])
   ++ logLine config
        (Msg.sameDir ++ relative (rootDir config) (sameDirCandidate P ext))
        LDebug
   ++ [ECacheSet P (Some (sameDirCandidate P ext))]).
Proof.
  intros Hsame Hmiss Hexts Hpre Hext.
  unfold createPathResolver. rewrite bind_eq, cacheHas_eq. outcome.
  rewrite Hmiss, bool_decide_eq_false_2 by (by intros [? ?]).
  rewrite bind_eq, Hsame, Hexts, (sameDirLoop_found config P st ext post pre)
    by done.
  outcome. rewrite ret_eq. outcome. by rewrite app_nil_r.
Qed.

(** ** Failures inside [transform] *)

(** C6 -- What the [catch] block of [transform] does, and where the
    hook raises all the same.  A thrown value whose [stack] can be
    read is caught, logged with [console.error] and turned into
    [null]: so it is for a failed read of the resolved script, and
    with the built-in resolver and the default splice the hook never
    raises.  But the block reads [error.stack] off whatever it caught:
    when a custom resolver or a custom transform throws [null] or
    [undefined], that read raises a [TypeError] inside the block,
    nothing is logged and the hook raises. *)
Theorem transform_raises_on_nullish `{rt : Runtime} (config : Config)
    (code id : jstring) (st : State) :
  (forall u,
     endsWith id (js ".vue") = true ->
     result (transformBody config code id st) = Raise (Nullish u) ->
     transform config code id st =
     (Exn (typeError u "stack"), final (transformBody config code id st),
      events (transformBody config code id st))) /\
  (forall err,
     endsWith id (js ".vue") = true ->
     result (transformBody config code id st) = Exn err ->
     transform config code id st =
     (Val None, final (transformBody config code id st),
      events (transformBody config code id st) ++ [caughtLine id err])) /\
  (forall p err,
     endsWith id (js ".vue") = true ->
     result (resolveScriptPath config id st) = Val (Some p) -> p <> [] ->
     fs_readFile (fs (final (resolveScriptPath config id st))) p = Exn err ->
     transform config code id st =
     (Val None, final (resolveScriptPath config id st),
      events (resolveScriptPath config id st)
      ++ [EReadFile p; caughtLine id err])) /\
  (Options.resolveScriptPath config = None ->
   Options.transform config = None ->
   exists v, result (transform config code id st) = Val v) /\
  (forall f u,
     endsWith id (js ".vue") = true ->
     Options.resolveScriptPath config = Some f ->
     (f id (fs st)).1 = Raise (Nullish u) ->
     transform config code id st =
     (Exn (typeError u "stack"),
      {| fs := (f id (fs st)).2; scriptCache := scriptCache st |},
      [ECallResolve id])) /\
  (forall f p content u,
     endsWith id (js ".vue") = true ->
     Options.transform config = Some f ->
     result (resolveScriptPath config id st) = Val (Some p) -> p <> [] ->
     fs_readFile (fs (final (resolveScriptPath config id st))) p = Val content ->
     (f code content (commentFor config id p) id p
        (fs (final (resolveScriptPath config id st)))).1 = Raise (Nullish u) ->
     result (transform config code id st) = Exn (typeError u "stack") /\
     events (transform config code id st) =
     events (resolveScriptPath config id st)
     ++ [EReadFile p; ECallTransform code content (commentFor config id p) id p]).
Proof.
  split; [|split; [|split; [|split; [|split]]]].
  - intros u Hvue Hb. by apply transform_raised.
  - intros err Hvue Hb. by apply transform_caught.
  - intros p err Hvue Hr Hp Hread.
    pose proof (transformBody_read_fails config code id st p err Hr Hp Hread) as Hb.
    rewrite (transform_caught config code id st err Hvue), Hb by by rewrite Hb.
    outcome. by rewrite <- app_assoc.
  - intros Hres Htr. apply transform_returns. intros u.
    by apply transformBody_builtin.
  - intros f u Hvue Hf Hthrow.
    assert (resolveScriptPath config id st =
            (Raise (Nullish u),
             {| fs := (f id (fs st)).2; scriptCache := scriptCache st |},
             [ECallResolve id])) as Hr.
    { unfold resolveScriptPath. by rewrite Hf, callUser_eq, Hthrow. }
    pose proof (transformBody_resolve_fails config code id st (Nullish u)) as Hb.
    rewrite Hr in Hb. specialize (Hb eq_refl).
    by rewrite (transform_raised config code id st u Hvue), Hb by by rewrite Hb.
  - intros f p content u Hvue Hf Hr Hp Hread Hthrow.
    pose proof (transformBody_custom config code id st p content f
                  Hr Hp Hread Hf) as Hb.
    rewrite Hthrow in Hb.
    by rewrite (transform_raised config code id st u Hvue), Hb by by rewrite Hb.
Qed.

(** ** The no-work cases of [transform] *)


(** ** A custom resolver *)

Lemma resolveCalls_app a b : resolveCalls (a ++ b) = resolveCalls a ++ resolveCalls b.
Proof. apply omap_app. Qed.

Lemma afterResolve_facts rest :
  Forall afterResolve rest ->
  resolveCalls rest = [] /\ Forall (fun e => is_cache_event e = false) rest.
Proof.
  induction 1 as [|e rest He _ [IH1 IH2]]; [done|].
  destruct e; try done; cbn; by split; [|constructor].
Qed.

Section Override.

Context {rt : Runtime}.
Variable config : Config.
Variable f : jstring -> UserFn (option jstring).
Hypothesis custom : Options.resolveScriptPath config = Some f.

Lemma transform_override code id st :
  scriptCache (final (transform config code id st)) = scriptCache st /\
  Forall (fun e => is_cache_event e = false) (events (transform config code id st)) /\
  resolveCalls (events (transform config code id st))
  = if endsWith id (js ".vue") then [id] else [].
Proof.
  destruct (endsWith id (js ".vue")) eqn:Hvue.
  - destruct (transform_shape config code id st Hvue) as (rest & -> & Hrest & ->).
    destruct (afterResolve_facts rest Hrest) as [Hcalls Hcache].
    unfold resolveScriptPath. rewrite custom, callUser_eq. outcome.
    split; [done|]. split; [by constructor|].
    rewrite resolveCalls_app, Hcalls. done.
  - by rewrite transform_not_vue.
Qed.

Lemma run_override (calls : list (jstring * jstring)) : forall st,
  scriptCache (final (run config (map (fun c => Transform c.1 c.2) calls) st))
  = scriptCache st /\
  Forall (fun e => is_cache_event e = false)
    (events (run config (map (fun c => Transform c.1 c.2) calls) st)) /\
  resolveCalls (events (run config (map (fun c => Transform c.1 c.2) calls) st))
  = List.filter (fun id => endsWith id (js ".vue")) (map snd calls).
Proof.
  induction calls as [|[code id] calls IH]; intros st; cbn [map run]; [done|].
  rewrite bind_eq. cbn [step fst snd]. rewrite bind_eq, attempt_eq, ret_eq.
  outcome. rewrite app_nil_r.
  destruct (transform_override code id st) as (Hc & He & Hr).
  destruct (IH (final (transform config code id st))) as (Hc2 & He2 & Hr2).
  split; [by rewrite Hc2|]. split; [by apply Forall_app|].
  rewrite resolveCalls_app, Hr, Hr2. cbn [List.filter].
  by destruct (endsWith id (js ".vue")).
Qed.

(** The resolution is the custom resolver applied to the path on the
    disk as it is, whatever the cache holds. *)
Lemma resolve_override id st :
  resolveScriptPath config id st =
  ((f id (fs st)).1,
   {| fs := (f id (fs st)).2; scriptCache := scriptCache st |},
   [ECallResolve id]).
Proof. unfold resolveScriptPath. by rewrite custom, callUser_eq. Qed.

Lemma transform_override_none code id st v :
  endsWith id (js ".vue") = true ->
  (f id (fs st)).1 = Val v -> v = None \/ v = Some [] ->
  transform config code id st =
  (Val None, {| fs := (f id (fs st)).2; scriptCache := scriptCache st |},
   [ECallResolve id]).
Proof.
  intros Hvue Hf Hv.
  pose proof (transformBody_no_path config code id st v) as Hb.
  rewrite resolve_override in Hb. specialize (Hb Hf Hv).
  erewrite transform_ok; [done | done | by rewrite Hb].
Qed.

Lemma transform_override_reads code id st p :
  endsWith id (js ".vue") = true ->
  (f id (fs st)).1 = Val (Some p) -> p <> [] ->
  exists rest,
    events (transform config code id st)
    = ECallResolve id :: EReadFile p :: rest.
Proof.
  intros Hvue Hf Hp.
  destruct (transform_reads config code id st p Hvue) as [rest Hev];
    [by rewrite resolve_override | done |].
  exists rest. by rewrite Hev, resolve_override.
Qed.

End Override.

(** C8 -- With a custom [resolveScriptPath] configured, the resolution
    cache is neither read nor written: over any sequence of
    [transform] calls the cache stays what it was, no call of
    [scriptCache.has], [get] or [set] happens, and the custom resolver
    is called once for every call on a [.vue] path, in order -- a
    path seen before is resolved again.  At every call, whatever the
    cache holds and whatever was resolved before, the resolution is
    the custom resolver applied to the path on the disk as it is then:
    when it answers [null] or the empty string the hook returns [null]
    and the disk is as the resolver left it; when it answers a path,
    that path is the file the hook goes on to read. *)
Theorem override_bypasses_cache `{rt : Runtime} (config : Config)
    (f : jstring -> UserFn (option jstring))
    (calls : list (jstring * jstring)) (st : State) :
  Options.resolveScriptPath config = Some f ->
  scriptCache (final (run config (map (fun c => Transform c.1 c.2) calls) st))
  = scriptCache st /\
  Forall (fun e => is_cache_event e = false)
    (events (run config (map (fun c => Transform c.1 c.2) calls) st)) /\
  resolveCalls (events (run config (map (fun c => Transform c.1 c.2) calls) st))
  = List.filter (fun id => endsWith id (js ".vue")) (map snd calls) /\
  (forall id st1,
     resolveScriptPath config id st1 =
     ((f id (fs st1)).1,
      {| fs := (f id (fs st1)).2; scriptCache := scriptCache st1 |},
      [ECallResolve id])) /\
  (forall code id st1 v,
     endsWith id (js ".vue") = true ->
     (f id (fs st1)).1 = Val v -> v = None \/ v = Some [] ->
     transform config code id st1 =
     (Val None, {| fs := (f id (fs st1)).2; scriptCache := scriptCache st1 |},
      [ECallResolve id])) /\
  (forall code id st1 p,
     endsWith id (js ".vue") = true ->
     (f id (fs st1)).1 = Val (Some p) -> p <> [] ->
     exists rest,
       events (transform config code id st1)
       = ECallResolve id :: EReadFile p :: rest).
Proof.
  intros custom.
  destruct (run_override config f custom calls st) as (Hc & He & Hr).
  do 3 (split; [done|]). split; [|split].
  - intros id st1. by apply resolve_override.
  - intros code id st1 v. by apply transform_override_none.
  - intros code id st1 p. by apply transform_override_reads.
Qed.

(** ** The disk *)

#[local] Instance sameDisk_preorder : PreOrder sameDisk.
Proof.
  split.
  - by intros st.
  - intros a b c Hab Hbc. unfold sameDisk in *. congruence.
Qed.

Section ReadOnly.

Context {rt : Runtime}.
Variable config : Config.
Hypothesis resolver_readOnly :
  forall f id, Options.resolveScriptPath config = Some f -> readOnly (f id).
Hypothesis transform_readOnly :
  forall f code content comment id p,
    Options.transform config = Some f -> readOnly (f code content comment id p).

Lemma callUser_sameDisk {A} ev (g : UserFn A) :
  readOnly g -> respects sameDisk (fun _ => True) (callUser ev g).
Proof.
  intros Hg st. rewrite callUser_eq. outcome. split; [apply Hg|].
  by repeat constructor.
Qed.

Lemma resolver_sameDisk id :
  respects sameDisk (fun _ => True) (createPathResolver config id).
Proof.
  apply respects_createPathResolver; try done; try exact _.
  intros v st. rewrite cacheSet_eq. outcome. split; [done|]. by repeat constructor.
Qed.

Lemma transform_sameDisk code id :
  respects sameDisk (fun _ => True) (transform config code id).
Proof.
  apply respects_transform; try done; try exact _.
  - unfold resolveScriptPath.
    destruct (Options.resolveScriptPath config) as [g|] eqn:Hg.
    + apply callUser_sameDisk. by apply resolver_readOnly.
    + apply resolver_sameDisk.
  - intros g content comment p Hg. apply callUser_sameDisk.
    by apply transform_readOnly.
Qed.

Lemma run_sameDisk steps : forall st,
  Forall (fun s => isCall s = true) steps ->
  fs (final (run config steps st)) = fs st.
Proof.
  induction steps as [|s steps IH]; intros st Hcalls; cbn [run]; [done|].
  apply Forall_cons in Hcalls as [Hs Hcalls].
  rewrite bind_eq, step_returns. outcome. rewrite IH by done.
  destruct s as [id|code id|d]; cbn [step]; [| |done];
    rewrite bind_eq, attempt_eq, ret_eq; outcome.
  - apply resolver_sameDisk.
  - apply transform_sameDisk.
Qed.

End ReadOnly.

(** C10 -- The plugin writes nothing to the disk.  Its own code
    reaches the disk through [existsSync], [readdirSync] and
    [readFileSync] only; so, unless a function supplied by the user
    (a custom resolver or a custom transform) changes the disk itself,
    the disk after any sequence of resolver and [transform] calls is
    the disk before it. *)
Theorem plugin_never_writes `{rt : Runtime} (config : Config)
    (steps : list Step) (st : State) :
  (forall f id, Options.resolveScriptPath config = Some f -> readOnly (f id)) ->
  (forall f code content comment id p,
     Options.transform config = Some f ->
     readOnly (f code content comment id p)) ->
  Forall (fun s => isCall s = true) steps ->
  fs (final (run config steps st)) = fs st.
Proof. intros Hr Ht Hcalls. by apply run_sameDisk. Qed.

(** ** What the default splice does to the source *)

(** C3 -- When the source has a [<script setup ...>] open tag with a
    [</script>] behind it, the default transform (script resolved and
    read, no custom transform) rewrites the first such block and
    nothing else: the text before the open tag and the text behind
    the first [</script>] that follows it stay, and the block becomes
    open tag, newline, comment, newline, script content, newline, the
    original inner content, close tag. *)
Theorem splice_into_setup_block `{rt : Runtime} (config : Config)
    (code id : jstring) (st : State) (p content : jstring) :
  endsWith id (js ".vue") = true ->
  result (resolveScriptPath config id st) = Val (Some p) -> p <> [] ->
  fs_readFile (fs (final (resolveScriptPath config id st))) p = Val content ->
  Options.transform config = None ->
  hasBlock code ->
  exists before tag inner after,
    code = before ++ tag ++ inner ++ closeTag ++ after /\
    isOpenTag tag /\
    (forall pre' tag' mid' post',
        code = pre' ++ tag' ++ mid' ++ closeTag ++ post' -> isOpenTag tag' ->
        (length before <= length pre')%nat) /\
    firstAt closeTag inner (inner ++ closeTag ++ after) /\
    result (transform config code id st) =
    Val (Some (before
               ++ (tag ++ nl ++ commentFor config id p ++ nl ++ content ++ nl
                   ++ inner ++ closeTag)
               ++ after)).
Proof.
  intros Hvue Hr Hp Hread Hnone Hblock.
  destruct (defaultTransform_block code (commentFor config id p) content Hblock)
    as (before & tag & inner & after & Hcode & Htag & Hmin & Hfirst & Hd).
  exists before, tag, inner, after. do 4 (split; [done|]).
  rewrite (transform_default config code id st p content) by done.
  outcome. by rewrite Hd.
Qed.

(** C9 -- When the pattern of the default splice does not match --
    there is an open tag but no [</script>] behind any, or there is
    neither an open tag nor a [</template>] -- [transform] returns the
    source as it is: a string equal to [code], not [null]. *)
Theorem unmatched_returns_source `{rt : Runtime} (config : Config)
    (code id : jstring) (st : State) (p content : jstring) :
  endsWith id (js ".vue") = true ->
  result (resolveScriptPath config id st) = Val (Some p) -> p <> [] ->
  fs_readFile (fs (final (resolveScriptPath config id st))) p = Val content ->
  Options.transform config = None ->
  (hasOpenTag code /\ ~ hasBlock code) \/
  (~ hasOpenTag code /\ ~ occursIn templateClose code) ->
  result (transform config code id st) = Val (Some code).
Proof.
  intros Hvue Hr Hp Hread Hnone Hcase.
  rewrite (transform_default config code id st p content) by done. outcome.
  destruct Hcase as [[Hopen Hno] | [Hno Hnt]].
  - by rewrite defaultTransform_no_close.
  - by rewrite defaultTransform_no_template.
Qed.

(** ** The same-directory file, over the life of the plugin *)

Section SameDirAlways.

Context {rt : Runtime}.
Variable config : Config.
Variables P ext : jstring.
Hypothesis sameDirOn : useSameDir config = true.
Hypothesis resolver_readOnly :
  forall f id, Options.resolveScriptPath config = Some f -> readOnly (f id).
Hypothesis transform_readOnly :
  forall f code content comment id p,
    Options.transform config = Some f -> readOnly (f code content comment id p).

Lemma resolver_inv Q st : sameDirInv config P ext st -> sameDirInv config P ext (final (createPathResolver config Q st)).
Proof.
  intros [Hhit Hcache]. split.
  - by rewrite (proj1 (resolver_sameDisk config Q st)).
  - destruct (decide (Q = P)) as [->|Hne].
    + destruct Hcache as [Hmiss|Hthere].
      * destruct Hhit as (pre & post & Hexts & Hpre & Hext).
        rewrite (same_directory_miss config P st pre ext post) by done.
        right. outcome. cbn [cached scriptCache]. apply lookup_insert_eq.
      * rewrite (resolver_hit config P _ st Hthere). by right.
    + unfold unresolvedOr. by rewrite (resolver_othersKept config Q st P).
Qed.

Lemma transform_inv code id st :
  sameDirInv config P ext st -> sameDirInv config P ext (final (transform config code id st)).
Proof.
  intros Hinv. split.
  - rewrite (proj1 (transform_sameDisk config resolver_readOnly
                      transform_readOnly code id st)).
    apply Hinv.
  - destruct (endsWith id (js ".vue")) eqn:Hvue.
    + destruct (transform_shape config code id st Hvue) as (rest & _ & _ & Hc).
      unfold unresolvedOr. rewrite Hc. unfold resolveScriptPath.
      destruct (Options.resolveScriptPath config) as [f|].
      * rewrite callUser_sameCache. apply Hinv.
      * by apply resolver_inv.
    + rewrite transform_not_vue by done. apply Hinv.
Qed.

Lemma run_inv steps : forall st,
  Forall (keepsSameDirHit config P ext) steps ->
  sameDirInv config P ext st -> sameDirInv config P ext (final (run config steps st)).
Proof.
  induction steps as [|s steps IH]; intros st Hsteps Hinv; cbn [run]; [done|].
  apply Forall_cons in Hsteps as [Hs Hsteps].
  rewrite bind_eq, step_returns. outcome. apply IH; [done|].
  destruct s as [id|code id|d]; cbn [step].
  - rewrite bind_eq, attempt_eq, ret_eq. outcome. by apply resolver_inv.
  - rewrite bind_eq, attempt_eq, ret_eq. outcome. by apply transform_inv.
  - split; [exact Hs | apply Hinv].
Qed.

Lemma inv_resolves st :
  sameDirInv config P ext st ->
  exists pre post,
    extensions config = pre ++ ext :: post /\
    (createPathResolver config P st
     = (Val (Some (sameDirCandidate P ext)), st, [ECacheHas P; ECacheGet P])
     \/
     createPathResolver config P st
     = (Val (Some (sameDirCandidate P ext)),
        cached P (Some (sameDirCandidate P ext)) st,
        ECacheHas P
        :: map (fun e => EExists (sameDirCandidate P e)) (pre ++ [ext])
        ++ logLine config
             (Msg.sameDir ++ relative (rootDir config) (sameDirCandidate P ext))
             LDebug
        ++ [ECacheSet P (Some (sameDirCandidate P ext))])).
Proof.
  intros [(pre & post & Hexts & Hpre & Hext) Hcache].
  exists pre, post. split; [done|].
  destruct Hcache as [Hmiss|Hthere].
  - right. by apply same_directory_miss with post.
  - left. by apply resolver_hit.
Qed.

End SameDirAlways.

(** C5 -- With same-directory preference enabled, a component [P]
    whose directory holds [<base><ext>] for a configured suffix,
    [ext] being the first one in the configured order for which that
    file exists, resolves to that same-directory file: at every point
    in the life of a plugin instance, as long as the file is there
    (disk changes keep it, user functions do not touch the disk).
    The search directories are not consulted, whatever they hold: the
    resolver either answers from the cache, or runs the cache check,
    the existence tests of the same-directory candidates in the
    configured order up to [ext], the debug line and the cache
    store. *)
Theorem same_directory_first `{rt : Runtime} (config : Config)
    (P ext : jstring) (d0 : FS) (steps : list Step) :
  useSameDir config = true ->
  (forall f id, Options.resolveScriptPath config = Some f -> readOnly (f id)) ->
  (forall f code content comment id p,
     Options.transform config = Some f ->
     readOnly (f code content comment id p)) ->
  sameDirHit config P ext d0 ->
  Forall (keepsSameDirHit config P ext) steps ->
  exists pre post,
    extensions config = pre ++ ext :: post /\
    (createPathResolver config P (final (run config steps (freshState d0)))
     = (Val (Some (sameDirCandidate P ext)),
        final (run config steps (freshState d0)),
        [ECacheHas P; ECacheGet P])
     \/
     createPathResolver config P (final (run config steps (freshState d0)))
     = (Val (Some (sameDirCandidate P ext)),
        cached P (Some (sameDirCandidate P ext))
          (final (run config steps (freshState d0))),
        ECacheHas P
        :: map (fun e => EExists (sameDirCandidate P e)) (pre ++ [ext])
        ++ logLine config
             (Msg.sameDir ++ relative (rootDir config) (sameDirCandidate P ext))
             LDebug
        ++ [ECacheSet P (Some (sameDirCandidate P ext))])).
Proof.
  intros Hsame Hr Ht Hhit Hsteps.
  apply inv_resolves; [done|].
  apply run_inv; try done.
  split; [done|]. left. apply lookup_empty.
Qed.

(** ** Concrete runs *)

#[local] Existing Instance node.

Lemma not_hasOpenTag code : test re_open code = false -> ~ hasOpenTag code.
Proof. intros Ht Hopen. apply test_open_iff in Hopen. congruence. Qed.

Lemma not_occursIn pat s : findFirst pat s = None -> ~ occursIn pat s.
Proof. apply findFirst_None. Qed.

Lemma fresh_miss d k : scriptCache (freshState d) !! k = None.
Proof. apply lookup_empty. Qed.

Example fooComment_eq :
  commentFor (rt := node) project fooVue (js "/proj/src/pages/Foo.script.js")
  = fooComment.
Proof. vm_compute. reflexivity. Qed.

(** C1, on a disk: the component has no script when it is first
    resolved; the script is created afterwards; the resolver still
    answers [null], and from the cache alone. *)
Lemma resolver_answer_is_final_witness :
  createPathResolver (rt := node) project fooVue
    (final (run (rt := node) project [Disk sameDirDisk]
              (final (createPathResolver (rt := node) project fooVue
                        (freshState bareDisk)))))
  = (Val None,
     final (run (rt := node) project [Disk sameDirDisk]
              (final (createPathResolver (rt := node) project fooVue
                        (freshState bareDisk)))),
     [ECacheHas fooVue; ECacheGet fooVue]).
Proof.
  destruct (resolver_answer_is_final (rt := node) project fooVue
              (freshState bareDisk)) as (v & Hv & Hlater).
  assert (v = None) as ->.
  { vm_compute in Hv. by injection Hv. }
  apply (Hlater [Disk sameDirDisk]).
Defined.

(** C2 -- The claim: with extensions [['.script.js', '.js']] and a
    search directory holding two candidates that differ by suffix
    only, the resolver returns the one whose suffix comes first in the
    list.  The code: [src/views] lists [Foo.js] before
    [Foo.script.js], and the resolver returns [Foo.js], the first
    listed file that matches, although [.script.js] comes first in
    the list. *)
Theorem search_takes_listing_order :
  extensions project = [js ".script.js"; js ".js"] /\
  fs_readdir viewsDisk (js "/proj/src/views")
  = Val [fileEntry "Foo.js"; fileEntry "Foo.script.js"] /\
  result (createPathResolver (rt := node) project fooVue (freshState viewsDisk))
  = Val (Some (js "/proj/src/views/Foo.js")).
Proof. split; [done|]. split; vm_compute; reflexivity. Qed.

(** C3, on a disk: of the two script-setup blocks of the source the
    first one gets the script, in front of its own content. *)
Lemma splice_into_setup_block_witness :
  exists before tag inner after,
    srcBlocks = before ++ tag ++ inner ++ closeTag ++ after /\
    isOpenTag tag /\
    (forall pre' tag' mid' post',
        srcBlocks = pre' ++ tag' ++ mid' ++ closeTag ++ post' -> isOpenTag tag' ->
        (length before <= length pre')%nat) /\
    firstAt closeTag inner (inner ++ closeTag ++ after) /\
    result (transform (rt := node) project srcBlocks fooVue (freshState sameDirDisk)) =
    Val (Some (before
               ++ (tag ++ nl
                   ++ commentFor (rt := node) project fooVue
                        (js "/proj/src/pages/Foo.script.js")
                   ++ nl ++ js "const b = 2" ++ nl ++ inner ++ closeTag)
               ++ after)).
Proof.
  apply (splice_into_setup_block (rt := node) project srcBlocks fooVue
           (freshState sameDirDisk) (js "/proj/src/pages/Foo.script.js")
           (js "const b = 2")).
  - vm_compute. reflexivity.
  - vm_compute. reflexivity.
  - discriminate.
  - vm_compute. reflexivity.
  - reflexivity.
  - exists (js "<template><p/></template>"), (js "<script  setup lang='ts'>"),
      (js "x"), (js "<script setup>y</script>").
    split; [reflexivity|].
    exists (js "  "), (js " lang='ts'").
    split; [reflexivity|]. split; [discriminate|].
    split; repeat constructor; discriminate.
Defined.

(** C4 -- The claim: without a script-setup tag, the text inserted in
    front of the first [</template>] is exactly the closing tag, two
    newlines, [<script setup>], newline, comment, newline, script
    content, newline, [</script>].  The code: the new block is passed
    to [replace] as a replacement string, so a [$'] in the script
    ([const cur = '$';]) is expanded to the text behind the match:
    the script arrives as [const cur = '<style></style>;]. *)
Theorem fallback_expands_dollar_patterns :
  ~ hasOpenTag srcPlain /\
  result (transform (rt := node) project srcPlain fooVue (freshState dollarDisk))
  = Val (Some (js "<template><p/>" ++ templateClose ++ nl ++ nl
               ++ js "<script setup>" ++ nl ++ fooComment ++ nl
               ++ js "const cur = '<style></style>;" ++ nl ++ closeTag
               ++ js "<style></style>")) /\
  result (transform (rt := node) project srcPlain fooVue (freshState dollarDisk))
  <> Val (Some (js "<template><p/>" ++ newBlock fooComment dollarScript
                ++ js "<style></style>")).
Proof.
  split; [by apply not_hasOpenTag|].
  assert (result (transform (rt := node) project srcPlain fooVue
                    (freshState dollarDisk))
          = Val (Some (js "<template><p/>" ++ templateClose ++ nl ++ nl
                       ++ js "<script setup>" ++ nl ++ fooComment ++ nl
                       ++ js "const cur = '<style></style>;" ++ nl ++ closeTag
                       ++ js "<style></style>"))) as Hres.
  { vm_compute. reflexivity. }
  split; [exact Hres|]. rewrite Hres. vm_compute. discriminate.
Qed.

(** C5, on a disk: [Foo.script.js] next to the component wins over
    the [Foo.js] of [src/views], on the first resolution and on the
    one after a [transform] call. *)
Lemma same_directory_first_witness :
  exists pre post,
    extensions project = pre ++ js ".script.js" :: post /\
    (createPathResolver project fooVue
       (final (run project [Transform srcPlain fooVue] (freshState sameDirDisk)))
     = (Val (Some (sameDirCandidate fooVue (js ".script.js"))),
        final (run project [Transform srcPlain fooVue] (freshState sameDirDisk)),
        [ECacheHas fooVue; ECacheGet fooVue])
     \/
     createPathResolver project fooVue
       (final (run project [Transform srcPlain fooVue] (freshState sameDirDisk)))
     = (Val (Some (sameDirCandidate fooVue (js ".script.js"))),
        cached fooVue (Some (sameDirCandidate fooVue (js ".script.js")))
          (final (run project [Transform srcPlain fooVue] (freshState sameDirDisk))),
        ECacheHas fooVue
        :: map (fun e => EExists (sameDirCandidate fooVue e)) (pre ++ [js ".script.js"])
        ++ logLine project
             (Msg.sameDir
              ++ relative (rootDir project)
                   (sameDirCandidate fooVue (js ".script.js")))
             LDebug
        ++ [ECacheSet fooVue (Some (sameDirCandidate fooVue (js ".script.js")))])).
Proof.
  apply (same_directory_first project fooVue (js ".script.js") sameDirDisk
           [Transform srcPlain fooVue]).
  - reflexivity.
  - intros f id Hf. discriminate Hf.
  - intros f code content comment id p Hf. discriminate Hf.
  - exists [], [js ".js"]. split; [reflexivity|]. split; [constructor|].
    vm_compute. reflexivity.
  - repeat constructor.
Defined.

(** C6, on a disk: the script next to the component is read, the
    custom transform throws [undefined], and [transform] raises the
    [TypeError] of its [catch] block with nothing logged. *)
Lemma transform_raises_on_nullish_witness :
  result (transform (rt := node) throwingProject srcPlain fooVue
            (freshState sameDirDisk))
  = Exn (typeError true "stack") /\
  events (transform (rt := node) throwingProject srcPlain fooVue
            (freshState sameDirDisk))
  = events (resolveScriptPath (rt := node) throwingProject fooVue
              (freshState sameDirDisk))
    ++ [EReadFile (js "/proj/src/pages/Foo.script.js");
        ECallTransform srcPlain (js "const b = 2")
          (commentFor throwingProject fooVue (js "/proj/src/pages/Foo.script.js"))
          fooVue (js "/proj/src/pages/Foo.script.js")].
Proof.
  destruct (transform_raises_on_nullish (rt := node) throwingProject
              srcPlain fooVue (freshState sameDirDisk))
    as (_ & _ & _ & _ & _ & Hthrow).
  apply (Hthrow throwingTransform (js "/proj/src/pages/Foo.script.js")
           (js "const b = 2") true).
  - vm_compute. reflexivity.
  - reflexivity.
  - vm_compute. reflexivity.
  - discriminate.
  - vm_compute. reflexivity.
  - reflexivity.
Defined.


(** C8, on a disk: three calls, two of them on the same component;
    the custom resolver is called for both.  And with [null] in the
    cache for the component and no script on the disk, the hook still
    goes by the answer of the custom resolver. *)
Lemma override_bypasses_cache_witness :
  scriptCache
    (final (run (rt := node) customProject
              (map (fun c => Transform c.1 c.2)
                 [(srcPlain, fooVue); (srcPlain, js "/proj/src/main.js");
                  (srcPlain, fooVue)])
              (freshState sameDirDisk)))
  = scriptCache (freshState sameDirDisk) /\
  Forall (fun e => is_cache_event e = false)
    (events (run (rt := node) customProject
               (map (fun c => Transform c.1 c.2)
                  [(srcPlain, fooVue); (srcPlain, js "/proj/src/main.js");
                   (srcPlain, fooVue)])
               (freshState sameDirDisk))) /\
  resolveCalls
    (events (run (rt := node) customProject
               (map (fun c => Transform c.1 c.2)
                  [(srcPlain, fooVue); (srcPlain, js "/proj/src/main.js");
                   (srcPlain, fooVue)])
               (freshState sameDirDisk)))
  = List.filter (fun id => endsWith id (js ".vue"))
      (map snd [(srcPlain, fooVue); (srcPlain, js "/proj/src/main.js");
                (srcPlain, fooVue)]) /\
  (exists rest,
     events (transform (rt := node) customProject srcPlain fooVue
               {| fs := bareDisk; scriptCache := {[ fooVue := None ]} |})
     = ECallResolve fooVue
       :: EReadFile (js "/proj/src/pages/Foo.script.js") :: rest).
Proof.
  destruct (override_bypasses_cache (rt := node) customProject fixedResolver
              [(srcPlain, fooVue); (srcPlain, js "/proj/src/main.js");
               (srcPlain, fooVue)] (freshState sameDirDisk) eq_refl)
    as (Hcache & Hevents & Hcalls & _ & _ & Hreads).
  do 3 (split; [done|]).
  by apply Hreads.
Defined.

(** C9, on a disk: an open tag that is never closed, and a source
    with neither tag. *)
Lemma unmatched_returns_source_witness :
  result (transform (rt := node) project srcOpenOnly fooVue (freshState sameDirDisk))
  = Val (Some srcOpenOnly) /\
  result (transform (rt := node) project srcNeither fooVue (freshState sameDirDisk))
  = Val (Some srcNeither).
Proof.
  split.
  - apply (unmatched_returns_source (rt := node) project srcOpenOnly fooVue
             (freshState sameDirDisk) (js "/proj/src/pages/Foo.script.js")
             (js "const b = 2")).
    + vm_compute. reflexivity.
    + vm_compute. reflexivity.
    + discriminate.
    + vm_compute. reflexivity.
    + reflexivity.
    + left. split.
      * apply test_open_iff. vm_compute. reflexivity.
      * apply exec_block_None. vm_compute. reflexivity.
  - apply (unmatched_returns_source (rt := node) project srcNeither fooVue
             (freshState sameDirDisk) (js "/proj/src/pages/Foo.script.js")
             (js "const b = 2")).
    + vm_compute. reflexivity.
    + vm_compute. reflexivity.
    + discriminate.
    + vm_compute. reflexivity.
    + reflexivity.
    + right. split.
      * apply not_hasOpenTag. vm_compute. reflexivity.
      * apply not_occursIn. vm_compute. reflexivity.
Defined.

(** C10, on a disk: a custom resolver that reads nothing, and a run
    of resolver and [transform] calls. *)
Lemma plugin_never_writes_witness :
  fs (final (run (rt := node) customProject
               [Transform srcPlain fooVue; Resolve fooVue;
                Transform srcBlocks fooVue]
               (freshState sameDirDisk)))
  = fs (freshState sameDirDisk).
Proof.
  apply (plugin_never_writes (rt := node) customProject).
  - intros f id Hf d. injection Hf as <-. reflexivity.
  - intros f code content comment id p Hf. discriminate Hf.
  - repeat constructor.
Defined.

(** * Further properties *)

(** ** The recursive search, one level at a time *)

Section SearchLevels.

Context {rt : Runtime}.
Variable config : Config.

Lemma forEntries_outcome recur dir exts entries :
  (forall d res st, searchOutcome res st (recur d res st)) ->
  forall results st,
    let o := forEntries recur dir exts entries results st in
    (exists found thrown,
       result o = Val (results ++ found, thrown) /\
       forall t, thrown = Some t -> exists err, t = Object err) /\
    final o = st /\ Forall searchEvent (events o).
Proof.
  intros Hrec. induction entries as [|entry rest IH]; intros results st;
    cbn [forEntries].
  - rewrite ret_eq. outcome. split; [|by split].
    exists [], None. by rewrite app_nil_r.
  - destruct (isDirectory entry).
    + rewrite bind_eq, attempt_eq. outcome.
      destruct (Hrec (join [dir; name entry]) results st) as (Hres & Hst & Hev).
      destruct (result (recur (join [dir; name entry]) results st))
        as [res1|t] eqn:Hr.
      * destruct Hres as (found1 & ->).
        destruct (IH (results ++ found1)
                    (final (recur (join [dir; name entry]) results st)))
          as ((found2 & thrown & Hr2 & Hth) & Hst2 & Hev2).
        split; [|split].
        -- exists (found1 ++ found2), thrown. by rewrite Hr2, app_assoc.
        -- by rewrite Hst2.
        -- by apply Forall_app.
      * rewrite ret_eq. outcome. split; [|split; [done | by rewrite app_nil_r]].
        exists [], (Some t). rewrite app_nil_r. split; [done|].
        intros t' Ht'. by apply (inj Some) in Ht' as <-.
    + destruct (isFile entry && _).
      * destruct (IH (results ++ [join [dir; name entry]]) st)
          as ((found2 & thrown & Hr2 & Hth) & Hst2 & Hev2).
        split; [|by split].
        exists (join [dir; name entry] :: found2), thrown.
        by rewrite Hr2, <- app_assoc.
      * apply IH.
Qed.

Lemma findMatchingFiles_outcome depth : forall dir exts results st,
  searchOutcome results st (findMatchingFiles config depth dir exts results st).
Proof.
  induction depth as [|depth IH]; intros dir exts results st;
    cbn [findMatchingFiles]; unfold searchOutcome.
  - rewrite throw_eq. outcome. split; [by eexists | by split].
  - rewrite bind_eq, existsSync_eq. outcome.
    destruct (fs_exists (fs st) dir); cbn [negb].
    + rewrite bind_eq, attempt_eq, readdirSync_eq. outcome.
      destruct (fs_readdir (fs st) dir) as [entries|t] eqn:Hread;
        [|destruct (fs_readdir_throws _ _ _ Hread) as [err ->]].
      * rewrite bind_eq.
        destruct (forEntries_outcome
                    (fun d res => findMatchingFiles config depth d exts res)
                    dir exts entries (fun d res st0 => IH d exts res st0)
                    results st)
          as ((found & thrown & Hr & Hth) & Hst & Hev).
        rewrite Hr. outcome. destruct thrown as [t|].
        -- destruct (Hth t eq_refl) as [err ->]. cbn [readDirFailed].
           rewrite bind_eq, log_eq, ret_eq. outcome.
           split; [by exists found|]. split; [done|].
           repeat constructor. apply Forall_app. split; [done|].
           by repeat constructor.
        -- rewrite ret_eq. outcome. split; [by exists found|]. split; [done|].
           repeat constructor. by rewrite app_nil_r.
      * cbn [readDirFailed]. rewrite bind_eq, log_eq, ret_eq. outcome.
        split; [exists []; by rewrite app_nil_r|]. split; [done|].
        by repeat constructor.
    + rewrite ret_eq. outcome. split; [exists []; by rewrite app_nil_r|].
      split; [done|]. by repeat constructor.
Qed.

Lemma findMatchingFiles_same depth dir exts results st :
  final (findMatchingFiles config depth dir exts results st) = st.
Proof. apply findMatchingFiles_outcome. Qed.

(** Over entries none of which is a directory the loop is a filter. *)
Lemma forEntries_flat recur dir exts entries :
  Forall (fun e => isDirectory e = false) entries ->
  forall results st,
    forEntries recur dir exts entries results st =
    (Val (results ++ filesOf exts dir entries, None), st, []).
Proof.
  intros Hflat. induction Hflat as [|entry rest He _ IH]; intros results st;
    cbn [forEntries].
  - unfold filesOf. cbn. by rewrite app_nil_r.
  - rewrite He. unfold filesOf. cbn [List.filter]. fold (keptEntry exts entry).
    destruct (keptEntry exts entry); rewrite IH; [|done].
    unfold filesOf. cbn [map]. by rewrite <- app_assoc.
Qed.

(** The loop over a listing is the loop over its first part followed,
    unless that was left by an exception, by the loop over the rest. *)
Lemma forEntries_app recur dir exts es1 es2 : forall results st r1,
  result (forEntries recur dir exts es1 results st) = Val (r1, None) ->
  forEntries recur dir exts (es1 ++ es2) results st =
  (result (forEntries recur dir exts es2 r1
             (final (forEntries recur dir exts es1 results st))),
   final (forEntries recur dir exts es2 r1
            (final (forEntries recur dir exts es1 results st))),
   events (forEntries recur dir exts es1 results st)
   ++ events (forEntries recur dir exts es2 r1
                (final (forEntries recur dir exts es1 results st)))).
Proof.
  induction es1 as [|entry rest IH]; intros results st r1; cbn [forEntries app].
  - rewrite ret_eq. outcome. intros [= <-]. apply outcome_eta.
  - destruct (isDirectory entry).
    + rewrite !bind_eq, attempt_eq. outcome.
      destruct (result (recur (join [dir; name entry]) results st)) as [res1|err].
      * intros Hr. rewrite (IH _ _ r1 Hr). outcome. by rewrite app_assoc.
      * rewrite ret_eq. outcome. done.
    + destruct (isFile entry && _); apply IH.
Qed.

End SearchLevels.

Section SearchFacts.

Context {rt : Runtime}.
Variable config : Config.

Lemma findMatchingFiles_flat depth dir exts results st entries :
  fs_exists (fs st) dir = true ->
  fs_readdir (fs st) dir = Val entries ->
  Forall (fun e => isDirectory e = false) entries ->
  findMatchingFiles config (S depth) dir exts results st =
  (Val (results ++ filesOf exts dir entries), st, [EExists dir; EReaddir dir]).
Proof.
  intros Hex Hread Hflat. cbn [findMatchingFiles].
  rewrite bind_eq, existsSync_eq. outcome. rewrite Hex. cbn [negb].
  rewrite bind_eq, attempt_eq, readdirSync_eq. outcome. rewrite Hread.
  rewrite bind_eq, forEntries_flat by done. outcome. by rewrite ret_eq.
Qed.

Lemma findMatchingFiles_unreadable depth dir exts results st err :
  fs_exists (fs st) dir = true ->
  fs_readdir (fs st) dir = Exn err ->
  findMatchingFiles config (S depth) dir exts results st =
  (Val results, st,
   [EExists dir; EReaddir dir;
    EConsole ConsoleError (js "[vue-script-merger] ERROR:")
      (Msg.readDir1 ++ dir ++ Msg.failed ++ message err)]).
Proof.
  intros Hex Hread. cbn [findMatchingFiles].
  rewrite bind_eq, existsSync_eq. outcome. rewrite Hex. cbn [negb].
  rewrite bind_eq, attempt_eq, readdirSync_eq. outcome. rewrite Hread.
  cbn [readDirFailed]. by rewrite bind_eq, log_eq, ret_eq.
Qed.

Lemma findMatchingFiles_missing depth dir exts results st :
  fs_exists (fs st) dir = false ->
  findMatchingFiles config (S depth) dir exts results st =
  (Val results, st, [EExists dir]).
Proof.
  intros Hex. cbn [findMatchingFiles].
  rewrite bind_eq, existsSync_eq. outcome. rewrite Hex. cbn [negb].
  by rewrite ret_eq.
Qed.

(** One level of [findMatchingFiles], the next one folded. *)
Lemma findMatchingFiles_listing depth dir exts results st entries :
  fs_exists (fs st) dir = true ->
  fs_readdir (fs st) dir = Val entries ->
  let rest :=
    (let* out :=
       forEntries (fun d res => findMatchingFiles config depth d exts res)
         dir exts entries results in
     match out with
     | (results1, Some err) => readDirFailed config dir err results1
     | (results1, None) => ret results1
     end) in
  findMatchingFiles config (S depth) dir exts results st =
  (result (rest st), final (rest st),
   [EExists dir; EReaddir dir] ++ events (rest st)).
Proof.
  intros Hex Hread.
  change (findMatchingFiles config (S depth) dir exts results)
    with (let* there := existsSync dir in
          if negb there then ret results
          else
            let* r := attempt (readdirSync dir) in
            match r with
            | Raise err => readDirFailed config dir err results
            | Val entries0 =>
                let* out :=
                  forEntries
                    (fun d res => findMatchingFiles config depth d exts res)
                    dir exts entries0 results in
                match out with
                | (results1, Some err) => readDirFailed config dir err results1
                | (results1, None) => ret results1
                end
            end).
  rewrite bind_eq, existsSync_eq. outcome. rewrite Hex. cbn [negb].
  rewrite (bind_eq (attempt _)), attempt_eq, readdirSync_eq. outcome.
  by rewrite Hread.
Qed.

End SearchFacts.

(** X1 -- Below the limit of the call stack [findMatchingFiles] never
    raises, whatever the disk answers: it returns the array it was
    given with the paths it found behind it, leaves the disk and the
    cache as they are, and does nothing but test existence, read
    directories and write to [console.error] -- it reads no file. *)
Theorem search_is_safe `{rt : Runtime} (config : Config) (depth : nat)
    (dir : jstring) (exts results : list jstring) (st : State) :
  (exists found,
     result (findMatchingFiles config (S depth) dir exts results st)
     = Val (results ++ found)) /\
  final (findMatchingFiles config (S depth) dir exts results st) = st /\
  Forall searchEvent
    (events (findMatchingFiles config (S depth) dir exts results st)).
Proof.
  destruct (findMatchingFiles_outcome config (S depth) dir exts results st)
    as (Hres & Hst & Hev).
  split; [|by split].
  destruct (findMatchingFiles_returns config depth dir exts results st) as [r Hr].
  rewrite Hr in Hres |- *. destruct Hres as [found ->]. by exists found.
Qed.

(** X2 -- A directory without sub-directories: [findMatchingFiles]
    appends, in the order of the listing, the path of every regular
    file whose name ends in one of the suffixes; entries that are not
    regular files (links, sockets) and files with other suffixes are
    left out.  It costs one existence test and one directory read. *)
Theorem flat_directory_listing `{rt : Runtime} (config : Config) (depth : nat)
    (dir : jstring) (exts results : list jstring) (st : State)
    (entries : list Dirent) :
  fs_exists (fs st) dir = true ->
  fs_readdir (fs st) dir = Val entries ->
  Forall (fun e => isDirectory e = false) entries ->
  findMatchingFiles config (S depth) dir exts results st =
  (Val (results ++ filesOf exts dir entries), st, [EExists dir; EReaddir dir]).
Proof. apply findMatchingFiles_flat. Qed.

(** X3 -- A directory that is missing yields nothing and is passed
    over in silence; a directory that exists and cannot be read
    yields nothing either, and the failure is written to
    [console.error] with the message of the error.  In both cases the
    array comes back as it was given. *)
Theorem missing_or_unreadable_directory `{rt : Runtime} (config : Config)
    (depth : nat) (dir : jstring) (exts results : list jstring) (st : State) :
  (fs_exists (fs st) dir = false ->
   findMatchingFiles config (S depth) dir exts results st =
   (Val results, st, [EExists dir])) /\
  (forall err,
     fs_exists (fs st) dir = true ->
     fs_readdir (fs st) dir = Exn err ->
     findMatchingFiles config (S depth) dir exts results st =
     (Val results, st,
      [EExists dir; EReaddir dir;
       EConsole ConsoleError (js "[vue-script-merger] ERROR:")
         (Msg.readDir1 ++ dir ++ Msg.failed ++ message err)])).
Proof.
  split.
  - apply findMatchingFiles_missing.
  - intros err. apply findMatchingFiles_unreadable.
Qed.

(** X4 -- A sub-directory is searched where it stands in the listing
    (depth first): the files of the entries before it, then the files
    of the sub-directory, then the files of the entries behind it. *)
Theorem subdirectory_in_place `{rt : Runtime} (config : Config) (depth : nat)
    (dir : jstring) (exts results : list jstring) (st : State)
    (pre post inside : list Dirent) (sub : Dirent) :
  fs_exists (fs st) dir = true ->
  fs_readdir (fs st) dir = Val (pre ++ sub :: post) ->
  isDirectory sub = true ->
  Forall (fun e => isDirectory e = false) pre ->
  Forall (fun e => isDirectory e = false) post ->
  fs_exists (fs st) (join [dir; name sub]) = true ->
  fs_readdir (fs st) (join [dir; name sub]) = Val inside ->
  Forall (fun e => isDirectory e = false) inside ->
  findMatchingFiles config (S (S depth)) dir exts results st =
  (Val (results ++ filesOf exts dir pre
        ++ filesOf exts (join [dir; name sub]) inside
        ++ filesOf exts dir post),
   st,
   [EExists dir; EReaddir dir;
    EExists (join [dir; name sub]); EReaddir (join [dir; name sub])]).
Proof.
  intros Hex Hread Hsub Hpre Hpost Hex2 Hread2 Hinside.
  rewrite (findMatchingFiles_listing config (S depth) dir exts results st
             (pre ++ sub :: post)) by done.
  cbv zeta. rewrite bind_eq.
  rewrite (forEntries_app _ dir exts pre (sub :: post) results st
             (results ++ filesOf exts dir pre))
    by by rewrite forEntries_flat.
  rewrite (forEntries_flat _ dir exts pre) by done. outcome.
  cbn [forEntries]. rewrite Hsub.
  rewrite bind_eq, attempt_eq.
  rewrite (findMatchingFiles_flat config depth _ exts _ st inside) by done.
  outcome. rewrite forEntries_flat by done. outcome.
  rewrite ret_eq. outcome. by rewrite <- !app_assoc.
Qed.

(** ** What the search finds *)

Section SearchSound.

Context {rt : Runtime}.
Variable config : Config.

Lemma forEntries_listed recur d exts dir all :
  fs_exists d dir = true ->
  fs_readdir d dir = Val all ->
  (forall sub res st, final (recur sub res st) = st) ->
  (forall sub res st r,
     fs st = d -> result (recur sub res st) = Val r ->
     exists found, r = res ++ found /\ Forall (listed d exts sub) found) ->
  forall entries, (forall e, e ∈ entries -> e ∈ all) ->
  forall results st out thrown,
    fs st = d ->
    result (forEntries recur dir exts entries results st) = Val (out, thrown) ->
    exists found, out = results ++ found /\ Forall (listed d exts dir) found.
Proof.
  intros Hex Hread Hsame Hrec.
  induction entries as [|entry rest IH]; intros Hall results st out thrown Hd;
    cbn [forEntries].
  - rewrite ret_eq. outcome. intros [= <- _]. exists []. by rewrite app_nil_r.
  - assert (entry ∈ all) as Hentry by (apply Hall; by left).
    assert (forall e, e ∈ rest -> e ∈ all) as Hrest
      by (intros e He; apply Hall; by right).
    destruct (isDirectory entry) eqn:Hdir.
    + rewrite bind_eq, attempt_eq. outcome.
      destruct (result (recur (join [dir; name entry]) results st))
        as [res1|t] eqn:Hr.
      * destruct (Hrec _ _ _ _ Hd Hr) as (found1 & -> & Hfound1).
        rewrite Hsame. intros Hout.
        destruct (IH Hrest _ _ _ _ Hd Hout) as (found2 & -> & Hfound2).
        exists (found1 ++ found2). rewrite app_assoc. split; [done|].
        apply Forall_app. split; [|done].
        eapply Forall_impl; [exact Hfound1|]. intros p Hp.
        by apply (listed_below d exts dir all entry p).
      * rewrite ret_eq. outcome. intros [= <- _]. exists [].
        by rewrite app_nil_r.
    + fold (keptEntry exts entry).
      destruct (keptEntry exts entry) eqn:Hkept.
      * intros Hout.
        destruct (IH Hrest _ _ _ _ Hd Hout) as (found2 & -> & Hfound2).
        exists (join [dir; name entry] :: found2).
        rewrite <- app_assoc. split; [done|]. constructor; [|done].
        by apply (listed_here d exts dir all entry).
      * by apply IH.
Qed.

Lemma findMatchingFiles_listed depth : forall dir exts results st r,
  result (findMatchingFiles config depth dir exts results st) = Val r ->
  exists found, r = results ++ found /\ Forall (listed (fs st) exts dir) found.
Proof.
  induction depth as [|depth IH]; intros dir exts results st r;
    cbn [findMatchingFiles]; [by rewrite throw_eq|].
  rewrite bind_eq, existsSync_eq. outcome.
  destruct (fs_exists (fs st) dir) eqn:Hex; cbn [negb].
  - rewrite bind_eq, attempt_eq, readdirSync_eq. outcome.
    destruct (fs_readdir (fs st) dir) as [entries|t] eqn:Hread;
      [|destruct (fs_readdir_throws _ _ _ Hread) as [err ->]].
    + rewrite bind_eq.
      pose proof (forEntries_listed
                    (fun d res => findMatchingFiles config depth d exts res)
                    (fs st) exts dir entries Hex Hread
                    (fun sub res st0 =>
                       findMatchingFiles_same config depth sub exts res st0))
        as Hloop.
      destruct (forEntries_returns
                  (fun d res => findMatchingFiles config depth d exts res)
                  dir exts entries) with (results := results) (st := st)
        as (out & thrown & Hout & Hth).
      { intros d res st1 t1 Ht.
        destruct (findMatchingFiles_throws config _ _ _ _ _ _ Ht) as [_ ->].
        by eexists. }
      assert (forall sub res st0 r0,
                fs st0 = fs st ->
                result (findMatchingFiles config depth sub exts res st0) = Val r0 ->
                exists found,
                  r0 = res ++ found /\ Forall (listed (fs st) exts sub) found)
        as Hrec.
      { intros sub res st0 r0 Hd Hr. rewrite <- Hd. by apply IH. }
      destruct (Hloop Hrec entries (fun e He => He) results st out thrown
                  eq_refl Hout)
        as (found & -> & Hfound).
      rewrite Hout. outcome. destruct thrown as [t|].
      * destruct (Hth t eq_refl) as [err ->]. cbn [readDirFailed].
        rewrite bind_eq, log_eq, ret_eq. outcome. intros [= <-].
        by exists found.
      * rewrite ret_eq. outcome. intros [= <-]. by exists found.
    + cbn [readDirFailed]. rewrite bind_eq, log_eq, ret_eq. outcome.
      intros [= <-]. exists []. by rewrite app_nil_r.
  - rewrite ret_eq. outcome. intros [= <-]. exists []. by rewrite app_nil_r.
Qed.

End SearchSound.

(** X19 -- What [findMatchingFiles] returns is the array it was given
    with nothing behind it but paths of directory entries: each is the
    join of a directory and the name of an entry of its listing, a
    regular file with one of the suffixes, the directory being [dir]
    or reached from it through entries that are directories, each of
    them there and readable. *)
Theorem search_finds_directory_entries `{rt : Runtime} (config : Config)
    (depth : nat) (dir : jstring) (exts results : list jstring) (st : State)
    (r : list jstring) :
  result (findMatchingFiles config depth dir exts results st) = Val r ->
  exists found, r = results ++ found /\ Forall (listed (fs st) exts dir) found.
Proof. apply findMatchingFiles_listed. Qed.

(** ** The steps of the resolver *)

Lemma cacheSets_app a b : cacheSets (a ++ b) = cacheSets a ++ cacheSets b.
Proof. apply omap_app. Qed.

Lemma cacheSets_search evs : Forall searchEvent evs -> cacheSets evs = [].
Proof.
  induction 1 as [|e evs He _ IH]; [done|].
  by destruct e.
Qed.

Lemma cacheSets_logLine config msg level : cacheSets (logLine config msg level) = [].
Proof. unfold logLine. by destruct level, (debug config). Qed.

Section ResolverSteps.

Context {rt : Runtime}.
Variable config : Config.

Lemma sameDirLoop_none P vueDir base st : forall exts,
  Forall (fun e => fs_exists (fs st) (join [vueDir; base ++ e]) = false) exts ->
  sameDirLoop config P vueDir base exts st =
  (Val Continue, st, map (fun e => EExists (join [vueDir; base ++ e])) exts).
Proof.
  induction 1 as [|ext exts He _ IH]; cbn [sameDirLoop map]; [done|].
  rewrite bind_eq, existsSync_eq. outcome. by rewrite He, IH.
Qed.

Lemma matchLoop_none P base st : forall files,
  Forall (fun f => matchesComponent base f = false) files ->
  matchLoop config P base files st = (Val Continue, st, []).
Proof.
  induction 1 as [|f files Hf _ IH]; cbn [matchLoop]; [done|]. by rewrite Hf.
Qed.

Lemma matchLoop_first P base st f post : forall pre,
  Forall (fun x => matchesComponent base x = false) pre ->
  matchesComponent base f = true ->
  matchLoop config P base (pre ++ f :: post) st =
  (Val (Return (Some f)), cached P (Some f) st,
   logLine config (Msg.found ++ relative (rootDir config) f) LDebug
   ++ [ECacheSet P (Some f)]).
Proof.
  intros pre Hpre Hf. induction Hpre as [|x pre Hx _ IH]; cbn [app matchLoop].
  - by rewrite Hf, found_eq.
  - by rewrite Hx.
Qed.

(** Search directories that are missing are passed with a warning. *)
Lemma searchLoop_skip P base st more : forall skipped,
  Forall (fun sp => fs_exists (fs st) (searchDirOf config sp) = false) skipped ->
  searchLoop config P base (skipped ++ more) st =
  (result (searchLoop config P base more st),
   final (searchLoop config P base more st),
   concat (map (skippedDir config) skipped)
   ++ events (searchLoop config P base more st)).
Proof.
  induction 1 as [|sp skipped Hsp _ IH]; cbn [app searchLoop map concat].
  - apply outcome_eta.
  - rewrite bind_eq, existsSync_eq. outcome. rewrite Hsp. cbn [negb].
    rewrite bind_eq, log_eq. outcome. rewrite IH. outcome.
    unfold skippedDir. cbn [app]. by rewrite <- !app_assoc.
Qed.

(** The first directory that is there and holds a match ends the
    search. *)
Lemma searchLoop_found P base st sp rest pre f post :
  fs_exists (fs st) (searchDirOf config sp) = true ->
  result (findMatchingFiles config stackDepth (searchDirOf config sp)
            (extensions config) [] st) = Val (pre ++ f :: post) ->
  Forall (fun x => matchesComponent base x = false) pre ->
  matchesComponent base f = true ->
  searchLoop config P base (sp :: rest) st =
  (Val (Return (Some f)), cached P (Some f) st,
   [EExists (searchDirOf config sp)]
   ++ events (findMatchingFiles config stackDepth (searchDirOf config sp)
                (extensions config) [] st)
   ++ logLine config (Msg.found ++ relative (rootDir config) f) LDebug
   ++ [ECacheSet P (Some f)]).
Proof.
  intros Hex Hfiles Hpre Hf. cbn [searchLoop].
  rewrite bind_eq, existsSync_eq. outcome. rewrite Hex. cbn [negb].
  rewrite bind_eq, try_catch_eq, bind_eq, Hfiles. outcome.
  rewrite findMatchingFiles_same, (matchLoop_first P base st f post pre) by done.
  outcome. by rewrite ret_eq, app_nil_r.
Qed.

(** A directory that is there and holds no match: on to the next. *)
Lemma searchLoop_next P base st sp rest files :
  fs_exists (fs st) (searchDirOf config sp) = true ->
  result (findMatchingFiles config stackDepth (searchDirOf config sp)
            (extensions config) [] st) = Val files ->
  Forall (fun x => matchesComponent base x = false) files ->
  searchLoop config P base (sp :: rest) st =
  (result (searchLoop config P base rest st),
   final (searchLoop config P base rest st),
   [EExists (searchDirOf config sp)]
   ++ events (findMatchingFiles config stackDepth (searchDirOf config sp)
                (extensions config) [] st)
   ++ events (searchLoop config P base rest st)).
Proof.
  intros Hex Hfiles Hnone. cbn [searchLoop].
  rewrite bind_eq, existsSync_eq. outcome. rewrite Hex. cbn [negb].
  rewrite bind_eq, try_catch_eq, bind_eq, Hfiles. outcome.
  rewrite findMatchingFiles_same, (matchLoop_none P base st files) by done.
  outcome. by rewrite app_nil_r.
Qed.

(** The resolver behind a cache miss and a same-directory step that
    found nothing. *)
Lemma resolver_searches P st :
  scriptCache st !! P = None ->
  (useSameDir config = true ->
   Forall (fun e => fs_exists (fs st) (sameDirCandidate P e) = false)
     (extensions config)) ->
  createPathResolver config P st =
  let search :=
    searchLoop config P (basename P (Some (js ".vue"))) (scriptPaths config) st in
  match result search with
  | Val (Return v) =>
      (Val v, final search, ECacheHas P :: sameDirProbes config P ++ events search)
  | Val Continue =>
      (Val None, cached P None (final search),
       ECacheHas P :: sameDirProbes config P ++ events search
       ++ notFoundLine config P ++ [ECacheSet P None])
  | Raise err =>
      (Raise err, final search,
       ECacheHas P :: sameDirProbes config P ++ events search)
  end.
Proof.
  intros Hmiss Hnone. cbv zeta. unfold createPathResolver.
  rewrite bind_eq, cacheHas_eq. outcome.
  rewrite Hmiss, bool_decide_eq_false_2 by (by intros [? ?]).
  rewrite bind_eq. unfold sameDirProbes.
  assert ((if useSameDir config
           then sameDirLoop config P (dirname P) (basename P (Some (js ".vue")))
                  (extensions config)
           else ret Continue) st =
          (Val Continue, st,
           if useSameDir config
           then map (fun e => EExists (sameDirCandidate P e)) (extensions config)
           else [])) as ->.
  { destruct (useSameDir config); [|done]. by apply sameDirLoop_none, Hnone. }
  outcome. rewrite bind_eq.
  destruct (result (searchLoop config P _ _ st)) as [[v|]|err]; outcome.
  - rewrite ret_eq. outcome. by rewrite app_nil_r.
  - rewrite bind_eq, log_eq. outcome. rewrite bind_eq, cacheSet_eq, ret_eq.
    outcome. unfold notFoundLine. by rewrite app_nil_r.
  - done.
Qed.

Lemma sameDirLoop_sets P vueDir base exts :
  loopSets P (sameDirLoop config P vueDir base exts).
Proof.
  induction exts as [|ext rest IH]; intros st; cbn [sameDirLoop]; [done|].
  rewrite bind_eq, existsSync_eq. outcome.
  destruct (fs_exists _ _).
  - rewrite found_eq. outcome.
    by rewrite !cacheSets_app, cacheSets_logLine.
  - specialize (IH st).
    by destruct (result (sameDirLoop config P vueDir base rest st)) as [[v|]|err].
Qed.

Lemma matchLoop_sets P base files : loopSets P (matchLoop config P base files).
Proof.
  induction files as [|file rest IH]; intros st; cbn [matchLoop]; [done|].
  destruct (matchesComponent base file); [|apply IH].
  rewrite found_eq. outcome. by rewrite cacheSets_app, cacheSets_logLine.
Qed.

Lemma searchLoop_sets P base paths : loopSets P (searchLoop config P base paths).
Proof.
  induction paths as [|scriptPath rest IH]; intros st; cbn [searchLoop]; [done|].
  rewrite bind_eq, existsSync_eq. outcome.
  destruct (fs_exists _ _); cbn [negb].
  - rewrite bind_eq, try_catch_eq, bind_eq.
    destruct (findMatchingFiles_outcome config stackDepth
                (searchDirOf config scriptPath) (extensions config) [] st)
      as (_ & Hst & Hev).
    apply cacheSets_search in Hev.
    set (o := findMatchingFiles config stackDepth _ _ _ st) in *.
    destruct (result o) as [files|err] eqn:Ho; outcome.
    + pose proof (matchLoop_sets P base files (final o)) as Hm.
      destruct (result (matchLoop config P base files (final o))) as [[v|]|e1];
        outcome; [| |done].
      * rewrite ret_eq. outcome.
        by rewrite ?app_nil_r, !cacheSets_app, Hev, Hm.
      * specialize (IH (final (matchLoop config P base files (final o)))).
        destruct (result (searchLoop config P base rest _)) as [[v|]|e2];
          [| |done]; by rewrite !cacheSets_app, Hev, Hm, IH.
    + destruct (findMatchingFiles_throws _ _ _ _ _ _ _ Ho) as [_ ->].
      cbn [searchFailed]. rewrite bind_eq, log_eq, ret_eq. outcome.
      specialize (IH (final o)).
      destruct (result (searchLoop config P base rest _)) as [[v|]|e2];
        [| |done]; by rewrite !cacheSets_app, Hev, cacheSets_logLine, IH.
  - rewrite bind_eq, log_eq. outcome. specialize (IH st).
    destruct (result (searchLoop config P base rest st)) as [[v|]|e2];
      [| |done]; by rewrite !cacheSets_app, cacheSets_logLine, IH.
Qed.

Lemma sameDirLoop_finds P exts :
  loopFinds
    (fun st f =>
       exists ext, ext ∈ exts /\ f = sameDirCandidate P ext /\
                   fs_exists (fs st) f = true)
    (sameDirLoop config P (dirname P) (basename P (Some (js ".vue"))) exts).
Proof.
  induction exts as [|ext rest IH]; intros st; cbn [sameDirLoop]; [done|].
  rewrite bind_eq, existsSync_eq. outcome.
  fold (sameDirCandidate P ext).
  destruct (fs_exists (fs st) (sameDirCandidate P ext)) eqn:Hex.
  - rewrite found_eq. outcome. eexists. split; [done|].
    exists ext. split; [by left | by split].
  - specialize (IH st).
    destruct (result (sameDirLoop config P _ _ rest st)) as [[v|]|err]; try done.
    destruct IH as (f & -> & ext' & Hin & -> & Hthere).
    exists (sameDirCandidate P ext'). split; [done|].
    exists ext'. split; [by right | by split].
Qed.

(** The same-directory step that found nothing leaves the state as
    it is. *)
Lemma sameDirLoop_same P vueDir base exts st :
  result (sameDirLoop config P vueDir base exts st) = Val Continue ->
  final (sameDirLoop config P vueDir base exts st) = st.
Proof.
  induction exts as [|ext rest IH]; cbn [sameDirLoop]; [done|].
  rewrite bind_eq, existsSync_eq. outcome.
  destruct (fs_exists _ _); [by rewrite found_eq | apply IH].
Qed.

(** A search directory whose search threw: the failure is logged and
    the loop goes on. *)
Lemma searchLoop_failed P base st sp rest t :
  fs_exists (fs st) (searchDirOf config sp) = true ->
  result (findMatchingFiles config stackDepth (searchDirOf config sp)
            (extensions config) [] st) = Raise t ->
  searchLoop config P base (sp :: rest) st =
  (result (searchLoop config P base rest st),
   final (searchLoop config P base rest st),
   [EExists (searchDirOf config sp)]
   ++ events (findMatchingFiles config stackDepth (searchDirOf config sp)
                (extensions config) [] st)
   ++ logLine config
        (Msg.search1 ++ searchDirOf config sp ++ Msg.search2
         ++ message rangeError) LError
   ++ events (searchLoop config P base rest st)).
Proof.
  intros Hex Hfiles. cbn [searchLoop].
  rewrite bind_eq, existsSync_eq. outcome. rewrite Hex. cbn [negb].
  rewrite bind_eq, try_catch_eq, bind_eq, Hfiles. outcome.
  destruct (findMatchingFiles_throws _ _ _ _ _ _ _ Hfiles) as [_ ->].
  cbn [searchFailed]. rewrite bind_eq, log_eq, ret_eq. outcome.
  rewrite findMatchingFiles_same. by rewrite app_nil_r, <- !app_assoc.
Qed.

(** What the search loop returns was listed by [findMatchingFiles]
    for one of the search directories, on the state the loop started
    in, and passed the name test; a loop that falls through leaves the
    state as it is. *)
Lemma searchLoop_listed P base st : forall paths,
  match result (searchLoop config P base paths st) with
  | Val (Return v) =>
      exists f sp files,
        v = Some f /\ sp ∈ paths /\
        fs_exists (fs st) (searchDirOf config sp) = true /\
        result (findMatchingFiles config stackDepth (searchDirOf config sp)
                  (extensions config) [] st) = Val files /\
        f ∈ files /\ matchesComponent base f = true
  | Val Continue => final (searchLoop config P base paths st) = st
  | Raise _ => False
  end.
Proof.
  induction paths as [|sp rest IH]; [done|].
  assert (match result (searchLoop config P base rest st) with
          | Val (Return v) =>
              exists f sp0 files,
                v = Some f /\ sp0 ∈ sp :: rest /\
                fs_exists (fs st) (searchDirOf config sp0) = true /\
                result (findMatchingFiles config stackDepth
                          (searchDirOf config sp0) (extensions config) [] st)
                = Val files /\
                f ∈ files /\ matchesComponent base f = true
          | Val Continue => final (searchLoop config P base rest st) = st
          | Raise _ => False
          end) as IH'.
  { destruct (result (searchLoop config P base rest st)) as [[v|]|t]; try done.
    destruct IH as (f & sp0 & files & Hv & Hin & Hrest).
    exists f, sp0, files. split; [done|]. split; [by right | done]. }
  destruct (fs_exists (fs st) (searchDirOf config sp)) eqn:Hex.
  - destruct (result (findMatchingFiles config stackDepth (searchDirOf config sp)
                        (extensions config) [] st)) as [files|t] eqn:Hfiles.
    + destruct (existsb (matchesComponent base) files) eqn:Hany.
      * apply existsb_exists in Hany as (x & Hin & Hx).
        destruct (first_true_split (matchesComponent base) files)
          as (pre & f & post & -> & Hpre & Hf).
        { exists x. split; [by apply list_elem_of_In | done]. }
        rewrite (searchLoop_found P base st sp rest pre f post) by done.
        outcome. exists f, sp, (pre ++ f :: post).
        split; [done|]. split; [by left|]. split; [done|]. split; [done|].
        split; [|done]. apply elem_of_app. right. by left.
      * rewrite (searchLoop_next P base st sp rest files); [by outcome | done | done |].
        apply Forall_forall. intros x Hin.
        destruct (matchesComponent base x) eqn:Hx; [|done].
        assert (existsb (matchesComponent base) files = true) as Habs
          by (apply existsb_exists; exists x; split;
              [by apply list_elem_of_In | done]).
        congruence.
    + rewrite (searchLoop_failed P base st sp rest t) by done. by outcome.
  - pose proof (searchLoop_skip P base st rest [sp]) as Hs.
    cbn [app] in Hs. rewrite Hs by by repeat constructor. by outcome.
Qed.

End ResolverSteps.

(** X5 -- Among the files of a search directory the resolver takes
    the first one, in the order they were found, that matches the
    component; it stores it in the cache and returns it.  When none
    matches, the loop has no effect at all. *)
Theorem first_listed_match_wins `{rt : Runtime} (config : Config)
    (P base : jstring) (st : State) :
  (forall pre f post,
     Forall (fun x => matchesComponent base x = false) pre ->
     matchesComponent base f = true ->
     matchLoop config P base (pre ++ f :: post) st =
     (Val (Return (Some f)), cached P (Some f) st,
      logLine config (Msg.found ++ relative (rootDir config) f) LDebug
      ++ [ECacheSet P (Some f)])) /\
  (forall files,
     Forall (fun x => matchesComponent base x = false) files ->
     matchLoop config P base files st = (Val Continue, st, [])).
Proof.
  split.
  - intros pre f post. apply matchLoop_first.
  - intros files. apply matchLoop_none.
Qed.

(** X6 -- When nothing lies next to the component (or the
    same-directory step is off) and none of the search directories
    exists, the resolver gives up: it returns [null], stores [null]
    for the component, and has written one warning per missing
    directory, in the configured order, and a last one that no script
    was found. *)
Theorem resolver_gives_up `{rt : Runtime} (config : Config)
    (P : jstring) (st : State) :
  scriptCache st !! P = None ->
  (useSameDir config = true ->
   Forall (fun e => fs_exists (fs st) (sameDirCandidate P e) = false)
     (extensions config)) ->
  Forall (fun sp => fs_exists (fs st) (searchDirOf config sp) = false)
    (scriptPaths config) ->
  createPathResolver config P st =
  (Val None, cached P None st,
   ECacheHas P :: sameDirProbes config P
   ++ concat (map (skippedDir config) (scriptPaths config))
   ++ notFoundLine config P ++ [ECacheSet P None]).
Proof.
  intros Hmiss Hnone Hdirs. rewrite resolver_searches by done. cbv zeta.
  pose proof (searchLoop_skip config P (basename P (Some (js ".vue"))) st []
                (scriptPaths config) Hdirs) as Hs.
  rewrite app_nil_r in Hs. rewrite Hs. cbn [searchLoop]. rewrite ret_eq.
  outcome. by rewrite !app_nil_r.
Qed.


(** X8 -- A search directory that exists and cannot be read does not
    end the resolution: [findMatchingFiles] reports the failure on
    [console.error], and the resolver goes on with the next
    directory. *)
Theorem unreadable_directory_is_skipped `{rt : Runtime} (config : Config)
    (P base : jstring) (st : State) (sp : jstring) (rest : list jstring)
    (err : Error) (n : nat) :
  stackDepth = S n ->
  fs_exists (fs st) (searchDirOf config sp) = true ->
  fs_readdir (fs st) (searchDirOf config sp) = Exn err ->
  searchLoop config P base (sp :: rest) st =
  (result (searchLoop config P base rest st),
   final (searchLoop config P base rest st),
   [EExists (searchDirOf config sp); EExists (searchDirOf config sp);
    EReaddir (searchDirOf config sp);
    EConsole ConsoleError (js "[vue-script-merger] ERROR:")
      (Msg.readDir1 ++ searchDirOf config sp ++ Msg.failed ++ message err)]
   ++ events (searchLoop config P base rest st)).
Proof.
  intros Hdepth Hex Hread.
  pose proof (findMatchingFiles_unreadable config n (searchDirOf config sp)
                (extensions config) [] st err Hex Hread) as Hf.
  rewrite <- Hdepth in Hf.
  rewrite (searchLoop_next config P base st sp rest []); rewrite ?Hf; done.
Qed.

(** X9 -- A call of the resolver writes to the cache at most once:
    not at all when the path is in the cache, and otherwise exactly
    one entry, for the path it was called with and with the value it
    returns -- a script path or [null]. *)
Theorem resolver_stores_once `{rt : Runtime} (config : Config)
    (P : jstring) (st : State) :
  exists v,
    result (createPathResolver config P st) = Val v /\
    cacheSets (events (createPathResolver config P st)) =
    if bool_decide (is_Some (scriptCache st !! P)) then [] else [(P, v)].
Proof.
  destruct (scriptCache st !! P) as [v|] eqn:Hc.
  { exists v. rewrite (resolver_hit config P v st Hc).
    by rewrite bool_decide_eq_true_2 by eauto. }
  rewrite bool_decide_eq_false_2 by (by intros [? ?]).
  unfold createPathResolver. rewrite bind_eq, cacheHas_eq. outcome.
  rewrite Hc, bool_decide_eq_false_2 by (by intros [? ?]).
  rewrite bind_eq.
  set (c1 := if useSameDir config then _ else _).
  assert (loopSets P c1) as H1.
  { subst c1. destruct (useSameDir config); [apply sameDirLoop_sets | by intros ?]. }
  specialize (H1 st).
  destruct (result (c1 st)) as [[v|]|err]; outcome; [| |done].
  { exists v. rewrite ret_eq. outcome.
    by rewrite app_nil_r, cacheSets_app, H1. }
  rewrite bind_eq.
  pose proof (searchLoop_sets config P (basename P (Some (js ".vue")))
                (scriptPaths config) (final (c1 st))) as H2.
  destruct (result (searchLoop config P _ _ (final (c1 st)))) as [[v|]|err];
    outcome; [| |done].
  { exists v. rewrite ret_eq. outcome.
    by rewrite app_nil_r, !cacheSets_app, H1, H2. }
  exists None. rewrite bind_eq, log_eq. outcome.
  rewrite bind_eq, cacheSet_eq, ret_eq. outcome. split; [done|].
  by rewrite !cacheSets_app, H1, H2, cacheSets_logLine.
Qed.

(** X10 -- The resolver does not make a path up: a path it returns
    on a cache miss is either a same-directory candidate of a
    configured suffix that exists on the disk (the same-directory step
    being on), or a file that [findMatchingFiles] listed for one of
    the configured search directories, that directory being there, and
    that passed the name test against the component: the path of a
    regular file with a configured suffix in the listing of that
    directory or of a directory below it. *)
Theorem resolver_answer_is_checked `{rt : Runtime} (config : Config)
    (P : jstring) (st : State) (f : jstring) :
  scriptCache st !! P = None ->
  result (createPathResolver config P st) = Val (Some f) ->
  (useSameDir config = true /\
   exists ext, ext ∈ extensions config /\ f = sameDirCandidate P ext /\
               fs_exists (fs st) f = true) \/
  (exists sp files,
     sp ∈ scriptPaths config /\
     fs_exists (fs st) (searchDirOf config sp) = true /\
     result (findMatchingFiles config stackDepth (searchDirOf config sp)
               (extensions config) [] st) = Val files /\
     f ∈ files /\
     listed (fs st) (extensions config) (searchDirOf config sp) f /\
     matchesComponent (basename P (Some (js ".vue"))) f = true).
Proof.
  intros Hc. unfold createPathResolver. rewrite bind_eq, cacheHas_eq. outcome.
  rewrite Hc, bool_decide_eq_false_2 by (by intros [? ?]).
  rewrite bind_eq.
  assert (forall st1, st1 = st ->
            forall v,
              result (searchLoop config P (basename P (Some (js ".vue")))
                        (scriptPaths config) st1) = Val (Return v) ->
              v = Some f ->
              exists sp files,
                sp ∈ scriptPaths config /\
                fs_exists (fs st) (searchDirOf config sp) = true /\
                result (findMatchingFiles config stackDepth
                          (searchDirOf config sp) (extensions config) [] st)
                = Val files /\
                f ∈ files /\
                listed (fs st) (extensions config) (searchDirOf config sp) f /\
                matchesComponent (basename P (Some (js ".vue"))) f = true)
    as Hsearch.
  { intros st1 -> v Hv ->.
    pose proof (searchLoop_listed config P (basename P (Some (js ".vue"))) st
                  (scriptPaths config)) as H2.
    rewrite Hv in H2.
    destruct H2 as (f0 & sp & files & Hf0 & Hsp & Hex & Hfiles & Hin & Hm).
    apply (inj Some) in Hf0 as <-. exists sp, files.
    do 4 (split; [done|]). split; [|done].
    destruct (findMatchingFiles_listed config _ _ _ _ _ _ Hfiles)
      as (found & -> & Hfound).
    by apply (proj1 (Forall_forall _ _) Hfound). }
  destruct (useSameDir config) eqn:Hsame.
  - pose proof (sameDirLoop_finds config P (extensions config) st) as H1.
    pose proof (sameDirLoop_same config P (dirname P)
                  (basename P (Some (js ".vue"))) (extensions config) st) as Hst.
    cbv beta in H1.
    destruct (result (sameDirLoop config P _ _ _ st)) as [[v|]|err]; outcome.
    + rewrite ret_eq. outcome. intros [= ->].
      destruct H1 as (f0 & [= <-] & Hext). left. by split.
    + rewrite bind_eq. specialize (Hst eq_refl).
      destruct (result (searchLoop config P _ _ _)) as [[v|]|err] eqn:H2; outcome.
      * rewrite ret_eq. outcome. intros [= ->].
        right. by apply (Hsearch _ Hst _ H2).
      * by rewrite bind_eq, log_eq.
      * done.
    + done.
  - rewrite ret_eq. outcome. rewrite bind_eq.
    destruct (result (searchLoop config P _ _ _)) as [[v|]|err] eqn:H2; outcome.
    + rewrite ret_eq. outcome. intros [= ->].
      right. by apply (Hsearch _ eq_refl _ H2).
    + by rewrite bind_eq, log_eq.
    + done.
Qed.

(** ** Replacing in strings *)

Lemma findFirst_unique pat a b s :
  s = a ++ pat ++ b -> firstAt pat a s -> findFirst pat s = Some (a, b).
Proof.
  intros Hs Hfirst.
  destruct (findFirst pat s) as [[a0 b0]|] eqn:Hf.
  - apply findFirst_sound in Hf as [Hs0 Hfirst0].
    assert (length a0 = length a) as Hlen.
    { pose proof (Hfirst a0 b0 Hs0). pose proof (Hfirst0 a b Hs). lia. }
    rewrite Hs in Hs0. apply app_inj_1 in Hs0 as [-> Hrest]; [|done].
    by apply app_inv_head in Hrest as ->.
  - apply findFirst_None in Hf. exfalso. apply Hf. by exists a, b.
Qed.

Lemma replace_absent s pat repl : ~ occursIn pat s -> replace s pat repl = s.
Proof.
  intros Hno. unfold replace, replace_re. rewrite exec_literal.
  destruct (findFirst pat s) as [[a b]|] eqn:Hf; [|done].
  apply findFirst_sound in Hf as [-> _]. exfalso. apply Hno. by exists a, b.
Qed.

Lemma replace_first s pat repl a b :
  s = a ++ pat ++ b -> firstAt pat a s ->
  replace s pat repl = a ++ getSubstitution pat a b repl ++ b.
Proof.
  intros Hs Hfirst. unfold replace, replace_re.
  by rewrite exec_literal, (findFirst_unique pat a b s).
Qed.

Lemma firstAt_head pat s : firstAt pat [] s.
Proof. intros a' b' _. cbn. lia. Qed.

Lemma startsWith_split s p : startsWith s p = true -> exists r, s = p ++ r.
Proof.
  rewrite startsWith_strip. intros H. apply bool_decide_eq_true_1 in H as [r Hr].
  exists r. by apply strip_Some.
Qed.

(** ** Aliases *)

Section Aliases.

Context {rt : Runtime}.

Lemma resolveAliasIn_none entries filepath :
  noAlias entries filepath -> resolveAliasIn entries filepath = filepath.
Proof.
  induction 1 as [|[alias target] entries He _ IH]; cbn [resolveAliasIn]; [done|].
  cbn [fst] in He. by rewrite He.
Qed.

Lemma resolveAliasIn_first pre alias target post rest :
  noAlias pre (alias ++ rest) ->
  resolveAliasIn (pre ++ (alias, target) :: post) (alias ++ rest)
  = getSubstitution alias [] rest target ++ rest.
Proof.
  induction 1 as [|[a t] pre He _ IH]; cbn [app resolveAliasIn].
  - rewrite startsWith_app.
    by rewrite (replace_first (alias ++ rest) alias target [] rest eq_refl
                  (firstAt_head _ _)).
  - cbn [fst] in He. by rewrite He.
Qed.

End Aliases.

(** X11 -- Alias rewriting: the first alias, in the order of the
    configuration, that is a prefix of the path is taken, and that
    prefix alone is replaced by the target of the alias (a target
    without [$]-patterns arrives as it is); later aliases and later
    occurrences of the alias in the path play no part.  A path none
    of the aliases is a prefix of stays as it is. *)
Theorem alias_rewrites_prefix `{rt : Runtime} (config : Config)
    (filepath : jstring) :
  (noAlias (aliases config) filepath ->
   resolveAlias config filepath = filepath) /\
  (forall pre alias target post rest,
     aliases config = pre ++ (alias, target) :: post ->
     noAlias pre filepath ->
     filepath = alias ++ rest ->
     plainReplacement target = true ->
     resolveAlias config filepath = target ++ rest).
Proof.
  split.
  - apply resolveAliasIn_none.
  - intros pre alias target post rest Hal Hpre -> Hplain.
    unfold resolveAlias. rewrite Hal, resolveAliasIn_first by done.
    by rewrite getSubstitution_plain.
Qed.

(** X12 -- The injected comment is the template with its first
    [{filename}] replaced by the path of the script relative to the
    directory of the component (a path without [$]-patterns arrives
    as it is); a second [{filename}] stays, and a template without
    the placeholder is used unchanged. *)
Theorem comment_fills_placeholder `{rt : Runtime} (config : Config)
    (id scriptPath : jstring) :
  (~ occursIn (js "{filename}") (injectComment config) ->
   commentFor config id scriptPath = injectComment config) /\
  (forall a b,
     injectComment config = a ++ js "{filename}" ++ b ->
     firstAt (js "{filename}") a (injectComment config) ->
     plainReplacement (relative (dirname id) scriptPath) = true ->
     commentFor config id scriptPath
     = a ++ relative (dirname id) scriptPath ++ b).
Proof.
  split.
  - intros Hno. by apply replace_absent.
  - intros a b Ha Hfirst Hplain. unfold commentFor.
    rewrite (replace_first _ _ _ a b Ha Hfirst).
    by rewrite getSubstitution_plain.
Qed.

(** ** The splice as an insertion *)

(** X13 -- The default splice only inserts: whatever the source, the
    result is the source with one piece of text put in at one place
    (or the source itself); no character of the source is dropped or
    changed, and the order is kept. *)
Theorem default_transform_only_inserts (code comment content : jstring) :
  exists a ins b,
    code = a ++ b /\ defaultTransform code comment content = a ++ ins ++ b.
Proof.
  unfold defaultTransform. destruct (test re_open code).
  - unfold replace_fn. destruct (exec re_block code) as [m|] eqn:Hex.
    + destruct (exec_block_Some code m Hex)
        as (before & tag & inner & after & -> & _ & _ & _ & ->).
      exists (before ++ tag), (nl ++ comment ++ nl ++ content ++ nl),
        (inner ++ closeTag ++ after).
      cbn [m_before m_after inject m_caps nth].
      split; [by rewrite <- !app_assoc|]. unfold inject. cbn [m_caps nth].
      by rewrite <- !app_assoc.
    + exists code, [], []. by rewrite !app_nil_r.
  - unfold replace_re, re_template. fold templateClose. rewrite exec_literal.
    destruct (findFirst templateClose code) as [[a b]|] eqn:Hf.
    + apply findFirst_sound in Hf as [-> _].
      cbn [m_before m_after m_text].
      exists (a ++ templateClose),
        (getSubstitution templateClose a b
           (nl ++ nl ++ js "<script setup>" ++ nl ++ comment ++ nl ++ content
            ++ nl ++ js "</script>")),
        b.
      split; [by rewrite <- app_assoc|].
      change (newBlock comment content)
        with (templateClose
              ++ (nl ++ nl ++ js "<script setup>" ++ nl ++ comment ++ nl
                  ++ content ++ nl ++ js "</script>")).
      assert (forall r,
                getSubstitution templateClose a b (templateClose ++ r)
                = templateClose ++ getSubstitution templateClose a b r) as ->
        by reflexivity.
      by rewrite <- !app_assoc.
    + exists code, [], []. by rewrite !app_nil_r.
Qed.

(** X14 -- The test that sends [transform] into the script-setup
    branch succeeds exactly on a source that holds, somewhere,
    [<script], at least one white-space character, [setup], any
    characters other than [>], and [>]. *)
Theorem open_tag_test_exact (code : jstring) :
  test re_open code = true <-> hasOpenTag code.
Proof. apply test_open_iff. Qed.

(** ** The console without [debug] *)

#[local] Instance anyState_preorder : PreOrder anyState.
Proof. by split. Qed.

Section Quiet.

Context {rt : Runtime}.
Variable config : Config.
Hypothesis quiet : debug config = false.

Lemma quiet_log msg level :
  respects anyState notConsoleLog (log config msg level).
Proof.
  intros st. rewrite log_eq. outcome. split; [done|].
  unfold logLine. rewrite quiet. destruct level; by repeat constructor.
Qed.

Lemma quiet_event {A} (c : M A) :
  (forall st, Forall notConsoleLog (events (c st))) ->
  respects anyState notConsoleLog c.
Proof. intros H st. by split. Qed.

Lemma quiet_found P msg v :
  respects anyState notConsoleLog
    (log config msg LDebug ;; cacheSet P (Some v) ;; ret (Return (Some v))).
Proof.
  apply respects_bind; [apply quiet_log|]. intros _.
  apply respects_bind; [|intros _; apply respects_ret].
  apply quiet_event. intros st. by repeat constructor.
Qed.

Lemma quiet_findMatchingFiles depth dir exts results :
  respects anyState notConsoleLog
    (findMatchingFiles config depth dir exts results).
Proof.
  apply quiet_event. intros st.
  destruct (findMatchingFiles_outcome config depth dir exts results st)
    as (_ & _ & Hev).
  eapply Forall_impl; [exact Hev|]. intros e He.
  destruct e as [| | | | | | s ? ?| |]; try done. by destruct s.
Qed.

Lemma quiet_sameDirLoop P vueDir base exts :
  respects anyState notConsoleLog (sameDirLoop config P vueDir base exts).
Proof.
  induction exts as [|ext rest IH]; cbn [sameDirLoop]; [apply respects_ret|].
  apply respects_bind; [apply quiet_event; intros st; by repeat constructor|].
  intros [|]; [apply quiet_found | apply IH].
Qed.

Lemma quiet_matchLoop P base files :
  respects anyState notConsoleLog (matchLoop config P base files).
Proof.
  induction files as [|file rest IH]; cbn [matchLoop]; [apply respects_ret|].
  destruct (matchesComponent base file); [apply quiet_found | apply IH].
Qed.

Lemma quiet_searchLoop P base paths :
  respects anyState notConsoleLog (searchLoop config P base paths).
Proof.
  induction paths as [|sp rest IH]; cbn [searchLoop]; [apply respects_ret|].
  apply respects_bind; [apply quiet_event; intros st; by repeat constructor|].
  intros [|]; cbn [negb].
  - apply respects_bind.
    + apply respects_try_catch.
      * apply respects_bind; [apply quiet_findMatchingFiles|].
        intros files. apply quiet_matchLoop.
      * intros [err|u]; cbn [searchFailed]; [|apply respects_throw].
        apply respects_bind; [apply quiet_log|].
        intros _. apply respects_ret.
    + intros [v|]; [apply respects_ret | apply IH].
  - apply respects_bind; [apply quiet_log | intros _; apply IH].
Qed.

Lemma quiet_resolver P :
  respects anyState notConsoleLog (createPathResolver config P).
Proof.
  unfold createPathResolver.
  apply respects_bind; [apply quiet_event; intros st; by repeat constructor|].
  intros [|]; [apply quiet_event; intros st; by repeat constructor|].
  apply respects_bind.
  - destruct (useSameDir config); [apply quiet_sameDirLoop | apply respects_ret].
  - intros [v|]; [apply respects_ret|].
    apply respects_bind; [apply quiet_searchLoop|].
    intros [v|]; [apply respects_ret|].
    apply respects_bind; [apply quiet_log|]. intros _.
    apply respects_bind; [|intros _; apply respects_ret].
    apply quiet_event. intros st. by repeat constructor.
Qed.

Lemma quiet_callUser {A} ev (f : UserFn A) :
  notConsoleLog ev -> respects anyState notConsoleLog (callUser ev f).
Proof.
  intros Hev. apply quiet_event. intros st. rewrite callUser_eq. outcome.
  by repeat constructor.
Qed.

Lemma quiet_transform code id :
  respects anyState notConsoleLog (transform config code id).
Proof.
  unfold transform. destruct (negb _); [apply respects_ret|].
  apply respects_try_catch.
  - unfold transformBody. apply respects_bind.
    + unfold resolveScriptPath.
      destruct (Options.resolveScriptPath config);
        [by apply quiet_callUser | apply quiet_resolver].
    + intros [[|c p]|]; try apply respects_ret.
      apply respects_bind;
        [apply quiet_event; intros st; rewrite readFileSync_eq;
         by repeat constructor|].
      intros content.
      destruct (Options.transform config);
        [by apply quiet_callUser | apply respects_ret].
  - intros [err|u]; cbn [transformFailed]; [|apply respects_throw].
    apply respects_bind; [apply quiet_log|].
    intros _. apply respects_ret.
Qed.

Lemma quiet_run steps : respects anyState notConsoleLog (run config steps).
Proof.
  induction steps as [|s steps IH]; cbn [run]; [apply respects_ret|].
  apply respects_bind; [|intros _; apply IH].
  destruct s as [id|code id|d]; cbn [step].
  - apply respects_bind; [|intros _; apply respects_ret].
    apply respects_attempt, quiet_resolver.
  - apply respects_bind; [|intros _; apply respects_ret].
    apply respects_attempt, quiet_transform.
  - apply quiet_event. intros st. constructor.
Qed.

End Quiet.

(** X15 -- With [debug] off the plugin never writes to [console.log]:
    over any sequence of resolver and [transform] calls the only lines
    on the console are warnings and errors. *)
Theorem quiet_without_debug `{rt : Runtime} (config : Config)
    (steps : list Step) (st : State) :
  debug config = false ->
  Forall notConsoleLog (events (run config steps st)).
Proof. intros Hquiet. by apply quiet_run. Qed.

(** ** Custom functions *)


(** X17 -- A custom [resolveScriptPath] takes the place of the whole
    search: with one configured, a [transform] call makes no
    existence test and reads no directory. *)
Theorem override_skips_search `{rt : Runtime} (config : Config)
    (f : jstring -> UserFn (option jstring)) (code id : jstring) (st : State) :
  Options.resolveScriptPath config = Some f ->
  Forall notSearch (events (transform config code id st)).
Proof.
  intros Hf. destruct (endsWith id (js ".vue")) eqn:Hvue.
  - destruct (transform_shape config code id st Hvue) as (rest & -> & Hrest & _).
    unfold resolveScriptPath. rewrite Hf, callUser_eq. outcome.
    constructor; [done|]. eapply Forall_impl; [exact Hrest|].
    intros e He. by destruct e.
  - by rewrite transform_not_vue.
Qed.

(** ** [transform] on a component already resolved *)

(** X18 -- The path is cached, the content is not.  For a component
    whose resolution is in the cache, [transform] makes no existence
    test and reads no directory: a cached [null] gives [null] at
    once; a cached path is read again at every call, so the result
    follows the current content of the script, and if the script has
    gone since, the call logs the error and returns [null]. *)
Theorem transform_after_resolution `{rt : Runtime} (config : Config)
    (code id : jstring) (st : State) :
  endsWith id (js ".vue") = true ->
  Options.resolveScriptPath config = None ->
  (scriptCache st !! id = Some None ->
   transform config code id st = (Val None, st, [ECacheHas id; ECacheGet id])) /\
  (forall p content,
     scriptCache st !! id = Some (Some p) -> p <> [] ->
     Options.transform config = None ->
     fs_readFile (fs st) p = Val content ->
     transform config code id st =
     (Val (Some (defaultTransform code (commentFor config id p) content)), st,
      [ECacheHas id; ECacheGet id; EReadFile p])) /\
  (forall p err,
     scriptCache st !! id = Some (Some p) -> p <> [] ->
     fs_readFile (fs st) p = Exn err ->
     transform config code id st =
     (Val None, st,
      [ECacheHas id; ECacheGet id; EReadFile p; caughtLine id err])).
Proof.
  intros Hvue Hbuiltin.
  assert (forall v, scriptCache st !! id = Some v ->
                    resolveScriptPath config id st
                    = (Val v, st, [ECacheHas id; ECacheGet id])) as Hres.
  { intros v Hv. unfold resolveScriptPath. rewrite Hbuiltin.
    by apply resolver_hit. }
  split; [|split].
  - intros Hc.
    pose proof (transformBody_no_path config code id st None) as Hb.
    rewrite (Hres None Hc) in Hb. outcome_in Hb.
    erewrite transform_ok; [apply Hb; auto | done | rewrite Hb; auto].
  - intros p content Hc Hp Hnone Hread.
    rewrite (transform_default config code id st p content); rewrite ?(Hres _ Hc);
      done.
  - intros p err Hc Hp Hread.
    pose proof (transformBody_read_fails config code id st p err) as Hb.
    rewrite (Hres _ Hc) in Hb. specialize (Hb eq_refl Hp Hread).
    by rewrite (transform_caught config code id st err Hvue), Hb by by rewrite Hb.
Qed.

(** ** The further properties on concrete disks *)

Lemma firstAt_found pat s a b : findFirst pat s = Some (a, b) -> firstAt pat a s.
Proof. intros Hf. by apply findFirst_sound in Hf as [_ Hfirst]. Qed.

(** X2, on a disk: of a script, a style sheet, a link named [Foo.js]
    and another script, the two scripts are listed. *)
Lemma flat_directory_listing_witness :
  findMatchingFiles project 1 (js "/proj/src/views") (extensions project) []
    (freshState mixedDisk) =
  (Val ([] ++ filesOf (extensions project) (js "/proj/src/views")
                [fileEntry "Bar.js"; fileEntry "Foo.css";
                 {| name := js "Foo.js"; kind := KOther |};
                 fileEntry "Foo.script.js"]),
   freshState mixedDisk,
   [EExists (js "/proj/src/views"); EReaddir (js "/proj/src/views")]).
Proof.
  apply (flat_directory_listing project 0 (js "/proj/src/views")
           (extensions project) [] (freshState mixedDisk)).
  - vm_compute. reflexivity.
  - vm_compute. reflexivity.
  - repeat constructor.
Defined.

(** X3, on a disk: [src/scripts] is missing, [src/views] is locked. *)
Lemma missing_or_unreadable_directory_witness :
  findMatchingFiles project 1 (js "/proj/src/scripts") (extensions project)
    [js "/kept.js"] (freshState lockedDisk) =
  (Val [js "/kept.js"], freshState lockedDisk, [EExists (js "/proj/src/scripts")]) /\
  findMatchingFiles project 1 (js "/proj/src/views") (extensions project)
    [js "/kept.js"] (freshState lockedDisk) =
  (Val [js "/kept.js"], freshState lockedDisk,
   [EExists (js "/proj/src/views"); EReaddir (js "/proj/src/views");
    EConsole ConsoleError (js "[vue-script-merger] ERROR:")
      (Msg.readDir1 ++ js "/proj/src/views" ++ Msg.failed
       ++ js "EACCES: permission denied, scandir")]).
Proof.
  split.
  - destruct (missing_or_unreadable_directory project 0 (js "/proj/src/scripts")
                (extensions project) [js "/kept.js"] (freshState lockedDisk))
      as [H _].
    apply H. vm_compute. reflexivity.
  - destruct (missing_or_unreadable_directory project 0 (js "/proj/src/views")
                (extensions project) [js "/kept.js"] (freshState lockedDisk))
      as [_ H].
    apply (H {| message := js "EACCES: permission denied, scandir"; stack := [] |});
      vm_compute; reflexivity.
Defined.

(** X4, on a disk: [Bar.js], then [Foo/index.js], then [Zed.js]. *)
Lemma subdirectory_in_place_witness :
  findMatchingFiles project 2 (js "/proj/src/views") (extensions project) []
    (freshState treeDisk) =
  (Val ([] ++ filesOf (extensions project) (js "/proj/src/views")
                [fileEntry "Bar.js"]
        ++ filesOf (extensions project)
             (join [js "/proj/src/views"; name (dirEntry "Foo")])
             [fileEntry "index.js"; fileEntry "notes.txt"]
        ++ filesOf (extensions project) (js "/proj/src/views")
             [fileEntry "Zed.js"]),
   freshState treeDisk,
   [EExists (js "/proj/src/views"); EReaddir (js "/proj/src/views");
    EExists (join [js "/proj/src/views"; name (dirEntry "Foo")]);
    EReaddir (join [js "/proj/src/views"; name (dirEntry "Foo")])]).
Proof.
  apply (subdirectory_in_place project 0 (js "/proj/src/views")
           (extensions project) [] (freshState treeDisk)
           [fileEntry "Bar.js"] [fileEntry "Zed.js"]
           [fileEntry "index.js"; fileEntry "notes.txt"] (dirEntry "Foo")).
  - vm_compute. reflexivity.
  - vm_compute. reflexivity.
  - reflexivity.
  - repeat constructor.
  - repeat constructor.
  - vm_compute. reflexivity.
  - vm_compute. reflexivity.
  - repeat constructor.
Defined.

(** X5, on a disk: [Bar.js] does not match [Foo]; [Foo.js] does and
    is taken before [Foo.script.js]. *)
Lemma first_listed_match_wins_witness :
  matchLoop project fooVue (js "Foo")
    ([js "/proj/src/views/Bar.js"]
     ++ js "/proj/src/views/Foo.js" :: [js "/proj/src/views/Foo.script.js"])
    (freshState viewsDisk) =
  (Val (Return (Some (js "/proj/src/views/Foo.js"))),
   cached fooVue (Some (js "/proj/src/views/Foo.js")) (freshState viewsDisk),
   logLine project
     (Msg.found ++ relative (rootDir project) (js "/proj/src/views/Foo.js"))
     LDebug
   ++ [ECacheSet fooVue (Some (js "/proj/src/views/Foo.js"))]).
Proof.
  destruct (first_listed_match_wins project fooVue (js "Foo")
              (freshState viewsDisk)) as [H _].
  apply H.
  - repeat constructor.
  - vm_compute. reflexivity.
Defined.

(** X6, on a disk: no search directory exists. *)
Lemma resolver_gives_up_witness :
  createPathResolver project fooVue (freshState pagesOnlyDisk) =
  (Val None, cached fooVue None (freshState pagesOnlyDisk),
   ECacheHas fooVue :: sameDirProbes project fooVue
   ++ concat (map (skippedDir project) (scriptPaths project))
   ++ notFoundLine project fooVue ++ [ECacheSet fooVue None]).
Proof.
  apply (resolver_gives_up project fooVue (freshState pagesOnlyDisk)).
  - apply fresh_miss.
  - intros _. repeat constructor.
  - repeat constructor.
Defined.


(** X8, on a disk: [src/views] is locked; the search goes on. *)
Lemma unreadable_directory_is_skipped_witness :
  searchLoop project fooVue (js "Foo") (js "views" :: [js "scripts"])
    (freshState lockedDisk) =
  (result (searchLoop project fooVue (js "Foo") [js "scripts"]
             (freshState lockedDisk)),
   final (searchLoop project fooVue (js "Foo") [js "scripts"]
            (freshState lockedDisk)),
   [EExists (searchDirOf project (js "views"));
    EExists (searchDirOf project (js "views"));
    EReaddir (searchDirOf project (js "views"));
    EConsole ConsoleError (js "[vue-script-merger] ERROR:")
      (Msg.readDir1 ++ searchDirOf project (js "views") ++ Msg.failed
       ++ message
            {| message := js "EACCES: permission denied, scandir"; stack := [] |})]
   ++ events (searchLoop project fooVue (js "Foo") [js "scripts"]
                (freshState lockedDisk))).
Proof.
  apply (unreadable_directory_is_skipped project fooVue (js "Foo")
           (freshState lockedDisk) (js "views") [js "scripts"] _
           (N.to_nat 9999)).
  - vm_compute. reflexivity.
  - vm_compute. reflexivity.
  - vm_compute. reflexivity.
Defined.

(** X10, on a disk: the answer [src/views/Foo.js] was listed for a
    search directory and passed the name test. *)
Lemma resolver_answer_is_checked_witness :
  (useSameDir project = true /\
   exists ext, ext ∈ extensions project /\
               js "/proj/src/views/Foo.js" = sameDirCandidate fooVue ext /\
               fs_exists (fs (freshState viewsDisk)) (js "/proj/src/views/Foo.js")
               = true) \/
  (exists sp files,
     sp ∈ scriptPaths project /\
     fs_exists (fs (freshState viewsDisk)) (searchDirOf project sp) = true /\
     result (findMatchingFiles project stackDepth (searchDirOf project sp)
               (extensions project) [] (freshState viewsDisk)) = Val files /\
     js "/proj/src/views/Foo.js" ∈ files /\
     listed (fs (freshState viewsDisk)) (extensions project)
       (searchDirOf project sp) (js "/proj/src/views/Foo.js") /\
     matchesComponent (basename fooVue (Some (js ".vue")))
       (js "/proj/src/views/Foo.js") = true).
Proof.
  apply (resolver_answer_is_checked project fooVue (freshState viewsDisk)).
  - apply fresh_miss.
  - vm_compute. reflexivity.
Defined.

(** X11, on a configuration: [@scripts] under the source directory
    is mapped to [/srv/scripts]; the alias of [/proj] behind it is not
    applied. *)
Lemma alias_rewrites_prefix_witness :
  resolveAlias aliasProject (js "/proj/src/@scripts/pages")
  = js "/srv/scripts" ++ js "/pages" /\
  resolveAlias aliasProject (js "/srv/lib") = js "/srv/lib".
Proof.
  split.
  - destruct (alias_rewrites_prefix aliasProject (js "/proj/src/@scripts/pages"))
      as [_ H].
    apply (H [] (js "/proj/src/@scripts") (js "/srv/scripts")
             [(js "/proj", js "/other")] (js "/pages")).
    + reflexivity.
    + constructor.
    + reflexivity.
    + reflexivity.
  - destruct (alias_rewrites_prefix aliasProject (js "/srv/lib")) as [H _].
    apply H. repeat constructor.
Defined.

(** X12, on a configuration: the default template. *)
Lemma comment_fills_placeholder_witness :
  commentFor project fooVue (js "/proj/src/pages/Foo.script.js")
  = commentHead
    ++ relative (dirname fooVue) (js "/proj/src/pages/Foo.script.js") ++ [].
Proof.
  destruct (comment_fills_placeholder project fooVue
              (js "/proj/src/pages/Foo.script.js")) as [_ H].
  apply (H commentHead []).
  - reflexivity.
  - apply firstAt_found with []. vm_compute. reflexivity.
  - vm_compute. reflexivity.
Defined.

(** X15, on a disk: a run with a failed search and a splice. *)
Lemma quiet_without_debug_witness :
  Forall notConsoleLog
    (events (run project
               [Transform srcPlain fooVue; Disk sameDirDisk;
                Transform srcBlocks (js "/proj/src/pages/Bar.vue")]
               (freshState lockedDisk))).
Proof.
  apply (quiet_without_debug project). reflexivity.
Defined.


(** X17, on a disk: the custom resolver answers; the disk is only
    read for the script. *)
Lemma override_skips_search_witness :
  Forall notSearch
    (events (transform customProject srcPlain fooVue (freshState sameDirDisk))).
Proof.
  apply (override_skips_search customProject fixedResolver). reflexivity.
Defined.

(** X18, on a disk: the component was resolved, then the script was
    rewritten; the next [transform] splices the new content. *)
Lemma transform_after_resolution_witness :
  transform project srcBlocks fooVue
    (final (run project [Resolve fooVue; Disk dollarDisk] (freshState sameDirDisk)))
  = (Val (Some (defaultTransform srcBlocks
                  (commentFor project fooVue (js "/proj/src/pages/Foo.script.js"))
                  dollarScript)),
     final (run project [Resolve fooVue; Disk dollarDisk] (freshState sameDirDisk)),
     [ECacheHas fooVue; ECacheGet fooVue;
      EReadFile (js "/proj/src/pages/Foo.script.js")]).
Proof.
  destruct (transform_after_resolution project srcBlocks fooVue
              (final (run project [Resolve fooVue; Disk dollarDisk]
                        (freshState sameDirDisk))))
    as (_ & H & _).
  - vm_compute. reflexivity.
  - reflexivity.
  - apply H.
    + apply lookup_insert_eq.
    + discriminate.
    + reflexivity.
    + vm_compute. reflexivity.
Defined.

(** X19, on a disk: the three scripts under [src/views] are entries
    of its listing and of the listing of [Foo]. *)
Lemma search_finds_directory_entries_witness :
  exists found,
    [js "/proj/src/views/Bar.js"; js "/proj/src/views/Foo/index.js";
     js "/proj/src/views/Zed.js"] = [] ++ found /\
    Forall (listed (fs (freshState treeDisk)) (extensions project)
              (js "/proj/src/views")) found.
Proof.
  apply (search_finds_directory_entries project 2 (js "/proj/src/views")
           (extensions project) [] (freshState treeDisk)).
  vm_compute. reflexivity.
Defined.
